(** * segmented-input: the segment model and the cursor/selection controller

    A shallow embedding of [src/segmented-input.js] (the range resolver
    [getSegmentRanges], the cursor mapper [getCursorSegment], and the
    [SegmentedInput] controller class) together with the later revision of
    the same class that knows action segments and enumerated ([options])
    segments.

    Conventions of the embedding.
    - A JavaScript string is the list of its UTF-16 code units ([list N]).
    - [undefined] is [None]; an array of strings that may hold [undefined]
      or holes is a [list (option jsstring)].
    - A [Number] is a value of an abstract interface ([JSNumber]) that names
      every built-in the source applies to numbers; a concrete instance on
      IEEE 754 doubles is given for running the model.
    - The host [<input>] element is the part of the controller state the
      source reads and writes: its text, its custom validity message, its
      selection and the events dispatched on it. *)

From Stdlib Require Import ZArith NArith Lia String Ascii.
From stdpp Require Import base tactics option list.

#[local] Open Scope Z_scope.
#[local] Open Scope list_scope.

(** ** Strings *)

Abbreviation code_unit := N (only parsing).
Abbreviation jsstring := (list N) (only parsing).

(** A literal: the code units of an ASCII string. *)
Definition str (s : string) : jsstring :=
  map N_of_ascii (list_ascii_of_string s).

(** U+200B, the zero-width space used as a guard around action segments. *)
Definition ZWS : code_unit := 8203%N.

Definition jsstring_eqb (a b : jsstring) : bool := bool_decide (a = b).

(** [s.startsWith(pat)] on the remaining text. *)
Fixpoint starts_with (pat s : jsstring) : bool :=
  match pat, s with
  | [], _ => true
  | _ :: _, [] => false
  | p :: pat', c :: s' => (p =? c)%N && starts_with pat' s'
  end.

(** The scan of [String.prototype.indexOf]: the first position, counted
    from [pos], at which [pat] starts in [s]. *)
Fixpoint find_from (pat s : jsstring) (pos : nat) : option nat :=
  if starts_with pat s then Some pos
  else match s with
       | [] => None
       | _ :: s' => find_from pat s' (S pos)
       end.

(** [s.indexOf(pat, position)]; [None] is the source's [-1].  The start
    position is clamped to the length of [s], as the built-in does. *)
Definition indexOf (s pat : jsstring) (position : nat) : option nat :=
  let from := Nat.min position (length s) in
  find_from pat (drop from s) from.

(** [s.includes(c)] for a one-unit needle. *)
Definition includes (c : code_unit) (s : jsstring) : bool :=
  existsb (N.eqb c) s.

(** [s.split(c)] for a one-unit separator. *)
Fixpoint split (c : code_unit) (s : jsstring) : list jsstring :=
  match s with
  | [] => [[]]
  | x :: s' =>
      if (x =? c)%N then [] :: split c s'
      else match split c s' with
           | [] => [[x]]
           | piece :: pieces => (x :: piece) :: pieces
           end
  end.

(** [pieces.join(sep)] on strings. *)
Fixpoint join (sep : jsstring) (pieces : list jsstring) : jsstring :=
  match pieces with
  | [] => []
  | [p] => p
  | p :: rest => p ++ sep ++ join sep rest
  end.

(** [s.padStart(n, c)] for a one-unit filler. *)
Definition padStart (n : nat) (c : code_unit) (s : jsstring) : jsstring :=
  replicate (n - length s) c ++ s.

(** [s.toUpperCase()] on the ASCII letters, which is all that the digits
    produced by [Number.prototype.toString(radix)] can contain. *)
Definition toUpperCase (s : jsstring) : jsstring :=
  map (fun c => if ((97 <=? c) && (c <=? 122))%N then (c - 32)%N else c) s.

(** The code units that [trimEnd] removes: the white space and the line
    terminators of the language. *)
Definition is_white_space (c : code_unit) : bool :=
  bool_decide (c ∈ [9; 10; 11; 12; 13; 32; 160; 5760; 8232; 8233; 8239; 8287;
                    12288; 65279]%N)
  || ((8192 <=? c) && (c <=? 8202))%N.

(** [s.trimEnd()]. *)
Fixpoint trimEnd (s : jsstring) : jsstring :=
  match s with
  | [] => []
  | c :: rest =>
      match trimEnd rest with
      | [] => if is_white_space c then [] else [c]
      | kept => c :: kept
      end
  end.

(** ** Arrays *)

(** A slot of a values array: a string, or [undefined].  A hole of a
    sparse array is read as [undefined] too, which is what indexing and
    [join] make of it; a [format] that visits the elements (with [map],
    say) can tell the two apart, and is modelled on arrays without
    holes. *)
Abbreviation slot := (option (list N)) (only parsing).

(** [arr[i]] for an integer [i]: [undefined] outside the array. *)
Definition array_get {A} (arr : list A) (i : Z) : option A :=
  if i <? 0 then None else arr !! Z.to_nat i.

(** [arr[i]] on an array of slots: a hole and [undefined] read alike. *)
Definition slot_get (arr : list slot) (i : Z) : slot :=
  mjoin (array_get arr i).

(** [arr[i] = v] for a natural index: inside the array the element is
    replaced; past its end JavaScript extends the array, leaving holes. *)
Definition array_set (i : nat) (v : slot) (arr : list slot) : list slot :=
  if decide (i < length arr)%nat then <[i := v]> arr
  else arr ++ replicate (i - length arr) None ++ [v].

(** [arr[i] = v] for an integer index: a negative index names a property
    of the array object and leaves its elements alone. *)
Definition array_setZ (i : Z) (v : slot) (arr : list slot) : list slot :=
  if i <? 0 then arr else array_set (Z.to_nat i) v arr.

(** ** Segment ranges *)

Record range := mkRange {
  start : Z;
  end_ : Z;
  value : jsstring;
}.

(** The mutable part of the loop of [getSegmentRanges]. *)
Record scan_state := mkScan {
  ranges : list range;
  searchFrom : nat;
}.

Definition scan_init : scan_state := mkScan [] 0.

(** One iteration of the [for] loop of [getSegmentRanges]. *)
Definition scan_step (formatted : jsstring) (st : scan_state) (segVal : jsstring)
  : scan_state :=
  match indexOf formatted segVal (searchFrom st) with
  | None =>
      mkScan (ranges st ++
                [mkRange (Z.of_nat (searchFrom st)) (Z.of_nat (searchFrom st)) segVal])
             (searchFrom st)
  | Some start =>
      let end_ := (start + length segVal)%nat in
      mkScan (ranges st ++ [mkRange (Z.of_nat start) (Z.of_nat end_) segVal]) end_
  end.

Definition scan (formatted : jsstring) (segmentValues : list jsstring)
  : scan_state :=
  fold_left (scan_step formatted) segmentValues scan_init.

(** [getSegmentRanges(value, parse, format)]. *)
Definition getSegmentRanges (value : jsstring)
    (parse : jsstring -> list jsstring) (format : list slot -> jsstring)
  : list range :=
  let segmentValues := parse value in
  let formatted := format (Some <$> segmentValues) in
  ranges (scan formatted segmentValues).

(** ** Cursor mapping *)

(** The first loop of [getCursorSegment]: the first range that contains
    the cursor, both ends included. *)
Fixpoint exact_hit (cursorPos : Z) (segmentRanges : list range) (i : nat)
  : option nat :=
  match segmentRanges with
  | [] => None
  | r :: rest =>
      if (start r <=? cursorPos) && (cursorPos <=? end_ r) then Some i
      else exact_hit cursorPos rest (S i)
  end.

(** The second loop of [getCursorSegment]: the first gap between two
    neighbours that strictly contains the cursor, and the nearer of the
    two. *)
Fixpoint nearest_in_gap (cursorPos : Z) (segmentRanges : list range) (i : nat)
  : option nat :=
  match segmentRanges with
  | rl :: ((rr :: _) as rest) =>
      if (end_ rl <? cursorPos) && (cursorPos <? start rr) then
        let distLeft := cursorPos - end_ rl in
        let distRight := start rr - cursorPos in
        Some (if distLeft <=? distRight then i else S i)
      else nearest_in_gap cursorPos rest (S i)
  | _ => None
  end.

(** [getCursorSegment(cursorPos, segmentRanges)]. *)
Definition getCursorSegment (cursorPos : Z) (segmentRanges : list range) : nat :=
  match segmentRanges with
  | [] => 0%nat
  | first :: _ =>
      match exact_hit cursorPos segmentRanges 0 with
      | Some i => i
      | None =>
          if cursorPos <? start first then 0%nat
          else
            match last segmentRanges with
            | Some lst =>
                if end_ lst <? cursorPos then (length segmentRanges - 1)%nat
                else
                  match nearest_in_gap cursorPos segmentRanges 0 with
                  | Some i => i
                  | None => 0%nat
                  end
            | None => 0%nat
            end
      end
  end.

(** [arr.some((x, i) => f(x, i))] and [arr.every(...)], with the index of
    the first element given as [i]. *)
Fixpoint array_some {A} (f : A -> nat -> bool) (arr : list A) (i : nat) : bool :=
  match arr with
  | [] => false
  | x :: rest => f x i || array_some f rest (S i)
  end.

Fixpoint array_every {A} (f : A -> nat -> bool) (arr : list A) (i : nat) : bool :=
  match arr with
  | [] => true
  | x :: rest => f x i && array_every f rest (S i)
  end.

(** [arr.indexOf(v)] on an array of strings, for a value that may be
    [undefined]; [None] is the source's [-1]. *)
Fixpoint array_indexOf_from (arr : list jsstring) (v : jsstring) (i : nat)
  : option nat :=
  match arr with
  | [] => None
  | x :: rest => if jsstring_eqb x v then Some i else array_indexOf_from rest v (S i)
  end.

Definition array_indexOf (arr : list jsstring) (v : slot) : option nat :=
  match v with
  | None => None
  | Some x => array_indexOf_from arr x 0
  end.

(** ** Numbers

    Every built-in that the source applies to a [Number], by name.  The
    controller is written against this interface, so what is proved about
    it holds for IEEE doubles as for any other reading of the built-ins.
    The built-ins are total here: [toStringRadix] stands for
    [x.toString(radix)] with a radix that is a numeric base (an integer
    from 2 to 36), outside of which the built-in raises a [RangeError];
    [toFixed] is applied to at most the number of decimals that the
    rendering of a number shows, which is within its range. *)
Class JSNumber := {
  number : Type;
  (** an integer literal, or a length *)
  of_Z : Z -> number;
  (** [parseInt(s, radix)] and [parseFloat(s)] *)
  parseInt : jsstring -> number -> number;
  parseFloat : jsstring -> number;
  isNaN : number -> bool;
  (** the truth value of a number, as [x || 0] tests it *)
  truthy : number -> bool;
  num_add : number -> number -> number;
  num_mul : number -> number -> number;
  (** [a > b], [a < b], [a >= b] and [a === b] *)
  num_gt : number -> number -> bool;
  num_lt : number -> number -> bool;
  num_ge : number -> number -> bool;
  num_eq : number -> number -> bool;
  (** [Math.floor] and [Math.round] *)
  floor : number -> number;
  round : number -> number;
  (** [String(x)], [x.toString(radix)] and [x.toFixed(digits)] *)
  toString : number -> jsstring;
  toStringRadix : number -> number -> jsstring;
  toFixed : number -> nat -> jsstring;
}.

(** ** Segment descriptors *)

(** One element of [options.segments].  A field that the descriptor does
    not set is [None].  [pattern] is the [test] method of the descriptor's
    regular expression; [onClick] names the descriptor's callback. *)
Record segment `{JSNumber} := mkSegment {
  seg_value : option jsstring;
  seg_placeholder : option jsstring;
  seg_min : option number;
  seg_max : option number;
  seg_step : option number;
  seg_radix : option number;
  seg_pattern : option (jsstring -> bool);
  seg_maxLength : option number;
  seg_type : option jsstring;
  seg_options : option (list jsstring);
  seg_onClick : option nat;
  seg_selectable : bool;
}.

Arguments mkSegment {_} _ _ _ _ _ _ _ _ _ _ _ _.

(** The second argument of the constructor. *)
Record options `{JSNumber} := mkOptions {
  segments : list segment;
  format : list slot -> jsstring;
  parse : jsstring -> list jsstring;
  invalidMessage : option jsstring;
  actionActiveClass : option jsstring;
}.

Arguments mkOptions {_} _ _ _ _ _.

(** A [keydown] event, as far as the handler reads it. *)
Record keyboard_event := mkKey {
  key : jsstring;
  ctrlKey : bool;
  metaKey : bool;
  shiftKey : bool;
}.

(** [x ?? d]. *)
Definition nullish {A} (x : option A) (d : A) : A :=
  match x with Some a => a | None => d end.

(** [String(x)] for a number that may be [undefined]. *)
Definition String_ `{JSNumber} (x : option number) : jsstring :=
  match x with
  | Some n => toString n
  | None => str "undefined"
  end.

(** [(String(step).split('.')[1] || '').length]: the number of decimal
    places that the rendering of [step] shows. *)
Definition decimalPlaces (rendered : jsstring) : nat :=
  match split 46%N rendered !! 1%nat with
  | Some fraction => length fraction
  | None => 0%nat
  end.

(** [s.placeholder ?? String(s.value ?? s.min ?? 0)]. *)
Definition placeholderOf `{JSNumber} (s : segment) : jsstring :=
  match seg_placeholder s with
  | Some p => p
  | None =>
      match seg_value s with
      | Some v => v
      | None => toString (nullish (seg_min s) (of_Z 0))
      end
  end.

(** [String(v)] for a slot. *)
Definition slot_to_string (v : slot) : jsstring :=
  match v with
  | Some x => x
  | None => str "undefined"
  end.

(** ** The host element *)

(** The [<input>] element, as far as the controller reads and writes it:
    [value], [placeholder], the message last given to [setCustomValidity],
    the span last given to [setSelectionRange], the class list, and the
    events dispatched on the element (oldest first). *)
Record HTMLInputElement := mkInput {
  input_value : jsstring;
  input_placeholder : jsstring;
  input_customValidity : jsstring;
  input_selection : option (Z * Z);
  input_classList : list jsstring;
  input_events : list jsstring;
}.

Definition set_value (v : jsstring) (i : HTMLInputElement) : HTMLInputElement :=
  mkInput v (input_placeholder i) (input_customValidity i) (input_selection i)
          (input_classList i) (input_events i).

Definition set_placeholder (p : jsstring) (i : HTMLInputElement) : HTMLInputElement :=
  mkInput (input_value i) p (input_customValidity i) (input_selection i)
          (input_classList i) (input_events i).

Definition setCustomValidity (m : jsstring) (i : HTMLInputElement) : HTMLInputElement :=
  mkInput (input_value i) (input_placeholder i) m (input_selection i)
          (input_classList i) (input_events i).

Definition setSelectionRange (a b : Z) (i : HTMLInputElement) : HTMLInputElement :=
  mkInput (input_value i) (input_placeholder i) (input_customValidity i) (Some (a, b))
          (input_classList i) (input_events i).

Definition dispatchEvent (type : jsstring) (i : HTMLInputElement) : HTMLInputElement :=
  mkInput (input_value i) (input_placeholder i) (input_customValidity i)
          (input_selection i) (input_classList i) (input_events i ++ [type]).

Definition classList_add (c : jsstring) (i : HTMLInputElement) : HTMLInputElement :=
  mkInput (input_value i) (input_placeholder i) (input_customValidity i)
          (input_selection i)
          (if bool_decide (c ∈ input_classList i) then input_classList i
           else input_classList i ++ [c])
          (input_events i).

Definition classList_remove (c : jsstring) (i : HTMLInputElement) : HTMLInputElement :=
  mkInput (input_value i) (input_placeholder i) (input_customValidity i)
          (input_selection i)
          (filter (fun x => x <> c) (input_classList i))
          (input_events i).

(** [highlightSegment(input, segmentIndex, segmentRanges)]. *)
Definition highlightSegment (input : HTMLInputElement) (segmentIndex : Z)
    (segmentRanges : list range) : HTMLInputElement :=
  match array_get segmentRanges segmentIndex with
  | Some seg => setSelectionRange (start seg) (end_ seg) input
  | None => input
  end.

(** ** The controller of [src/segmented-input.js] *)

Module SegmentedInput.

(** A callback handed to [setTimeout(..., 0)]. *)
Inductive timer :=
  | FocusActive
  | Highlight (index : nat) (segmentRanges : list range).

(** An attached instance: the element, the two private fields that change
    after construction, and the callbacks waiting for the next turn of the
    event loop. *)
Record state := mkState {
  input : HTMLInputElement;
  _activeSegment : nat;
  _segmentBuffer : jsstring;
  timers : list timer;
}.

Definition with_input (f : HTMLInputElement -> HTMLInputElement) (s : state) : state :=
  mkState (f (input s)) (_activeSegment s) (_segmentBuffer s) (timers s).

Definition set_activeSegment (i : nat) (s : state) : state :=
  mkState (input s) i (_segmentBuffer s) (timers s).

Definition set_segmentBuffer (b : jsstring) (s : state) : state :=
  mkState (input s) (_activeSegment s) b (timers s).

Definition setTimeout (t : timer) (s : state) : state :=
  mkState (input s) (_activeSegment s) (_segmentBuffer s) (timers s ++ [t]).

(** The exported function of the same name as the method below. *)
#[local] Abbreviation resolveRanges := getSegmentRanges (only parsing).

Section Controller.
Context `{JSNumber} (opts : options).

Definition _invalidMessage : jsstring :=
  nullish (invalidMessage opts) (str "Please fill in all fields.").

Definition _placeholderValues : list jsstring :=
  map placeholderOf (segments opts).

Definition _formattedPlaceholder : jsstring :=
  format opts (Some <$> _placeholderValues).

(** The values array that the methods read afresh from the text. *)
Definition parsedValues (s : state) : list slot :=
  Some <$> parse opts (input_value (input s)).

(** [if (!this.input.value) this.input.value = this._formattedPlaceholder]. *)
Definition showPlaceholder (s : state) : state :=
  match input_value (input s) with
  | [] => with_input (set_value _formattedPlaceholder) s
  | _ => s
  end.

Definition getSegmentRanges (s : state) : list range :=
  resolveRanges (input_value (input s)) (parse opts) (format opts).

Definition _isDecimalSegment (seg : segment) : bool :=
  includes 46%N (toString (nullish (seg_step seg) (of_Z 1))).

Definition _updateValidity (s : state) : state :=
  match input_value (input s) with
  | [] => with_input (setCustomValidity []) s
  | _ =>
      let values := parsedValues s in
      let hasPlaceholder :=
        array_some (fun p i => bool_decide (slot_get values (Z.of_nat i) = Some p))
                   _placeholderValues 0 in
      with_input (setCustomValidity (if hasPlaceholder then _invalidMessage else [])) s
  end.

Definition _isPlaceholderState (s : state) : bool :=
  match input_value (input s) with
  | [] => true
  | _ =>
      let values := parsedValues s in
      array_every (fun p i => bool_decide (slot_get values (Z.of_nat i) = Some p))
                  _placeholderValues 0
  end.

Definition _dispatch (type : jsstring) (s : state) : state :=
  with_input (dispatchEvent type) s.

Definition focusSegment (index : Z) (s : state) : state :=
  let clamped := Z.max 0 (Z.min index (Z.of_nat (length (segments opts)) - 1)) in
  let s := set_activeSegment (Z.to_nat clamped) s in
  let s := set_segmentBuffer [] s in
  with_input (fun i => highlightSegment i clamped (getSegmentRanges s)) s.

Definition getSegmentValue (index : Z) (s : state) : slot :=
  array_get (parse opts (input_value (input s))) index.

Definition setSegmentValue (index : Z) (newValue : jsstring) (s : state) : state :=
  let values := parsedValues s in
  let values := array_setZ index (Some newValue) values in
  let s := with_input (set_value (format opts values)) s in
  let s := focusSegment index s in
  let s := _dispatch (str "input") s in
  let s := _dispatch (str "change") s in
  _updateValidity s.

Definition _adjustSegment (index : nat) (direction : Z) (s : state) : state :=
  match segments opts !! index with
  | None => s
  | Some seg =>
      let s := showPlaceholder s in
      let radix := nullish (seg_radix seg) (of_Z 10) in
      let values := parsedValues s in
      let step := nullish (seg_step seg) (of_Z 1) in
      let current :=
        if num_eq radix (of_Z 10)
        then parseFloat (slot_to_string (slot_get values (Z.of_nat index)))
        else parseInt (slot_to_string (slot_get values (Z.of_nat index))) radix in
      let current :=
        if isNaN current then
          let fallback := nullish (seg_value seg) (toString (of_Z 0)) in
          let parsed :=
            if num_eq radix (of_Z 10) then parseFloat fallback
            else parseInt fallback radix in
          if truthy parsed then parsed else of_Z 0
        else current in
      let next := num_add current (num_mul (of_Z direction) step) in
      let next :=
        match seg_max seg with
        | Some max => if num_gt next max then max else next
        | None => next
        end in
      let next :=
        match seg_min seg with
        | Some min => if num_lt next min then min else next
        | None => next
        end in
      let rendered :=
        if negb (num_eq radix (of_Z 10))
        then toUpperCase (toStringRadix (round next) radix)
        else
          let decimals := decimalPlaces (toString step) in
          if (0 <? decimals)%nat then toFixed next decimals
          else toString (round next) in
      let values := array_set index (Some rendered) values in
      let s := with_input (set_value (format opts values)) s in
      let s := focusSegment (Z.of_nat index) s in
      let s := _dispatch (str "input") s in
      let s := _dispatch (str "change") s in
      _updateValidity s
  end.

Definition increment (s : state) : state := _adjustSegment (_activeSegment s) 1 s.

Definition decrement (s : state) : state := _adjustSegment (_activeSegment s) (-1) s.

Definition _advanceSegment (s : state) : state :=
  if Z.of_nat (_activeSegment s) <? Z.of_nat (length (segments opts)) - 1
  then focusSegment (Z.of_nat (_activeSegment s) + 1) s
  else
    let s := set_segmentBuffer [] s in
    with_input
      (fun i => highlightSegment i (Z.of_nat (_activeSegment s)) (getSegmentRanges s)) s.

Definition _shouldAutoAdvance (seg : segment) (buffer : jsstring) (radix : number)
  : bool :=
  match seg_maxLength seg with
  | Some maxLength => num_ge (of_Z (Z.of_nat (length buffer))) maxLength
  | None =>
      match seg_max seg with
      | None => false
      | Some max =>
          if _isDecimalSegment seg then
            let decimals := decimalPlaces (String_ (seg_step seg)) in
            let maxLen := length (toFixed max decimals) in
            (maxLen <=? length buffer)%nat
          else
            let maxLen := length (toStringRadix (floor max) radix) in
            if (maxLen <=? length buffer)%nat then true
            else
              let val := parseInt buffer radix in
              num_gt (num_mul val radix) max
      end
  end.

Definition _handleSegmentInput (key : jsstring) (s : state) : state :=
  match segments opts !! _activeSegment s with
  | None => s
  | Some seg =>
      let s := showPlaceholder s in
      if match seg_pattern seg with
         | Some test => negb (test key)
         | None => false
         end
      then s
      else
        let radix := nullish (seg_radix seg) (of_Z 10) in
        let newBuffer := _segmentBuffer s ++ key in
        if match seg_max seg with
           | Some max =>
               negb (_isDecimalSegment seg) && num_gt (parseInt newBuffer radix) max
           | None => false
           end
        then _advanceSegment s
        else
          let s := set_segmentBuffer newBuffer s in
          let values := parsedValues s in
          let values := array_set (_activeSegment s) (Some (_segmentBuffer s)) values in
          let s := with_input (set_value (format opts values)) s in
          let s := _dispatch (str "input") s in
          let s := _updateValidity s in
          let s :=
            with_input
              (fun i => highlightSegment i (Z.of_nat (_activeSegment s)) (getSegmentRanges s))
              s in
          if _shouldAutoAdvance seg (_segmentBuffer s) radix then _advanceSegment s
          else s
  end.

Definition _onFocusIn (s : state) : state :=
  let s :=
    match input_value (input s) with
    | [] => _updateValidity (with_input (set_value _formattedPlaceholder) s)
    | _ => s
    end in
  setTimeout FocusActive s.

Definition _onBlurOut (s : state) : state :=
  let s :=
    if _isPlaceholderState s then
      let s := with_input (set_value []) s in
      let s := set_activeSegment 0 s in
      set_segmentBuffer [] s
    else s in
  _updateValidity s.

(** [selectionStart] is what the element reports as the cursor offset. *)
Definition _onClickOrFocus (selectionStart : Z) (s : state) : state :=
  let pos := selectionStart in
  let segmentRanges := getSegmentRanges s in
  let index := getCursorSegment pos segmentRanges in
  let s := set_activeSegment index s in
  let s := set_segmentBuffer [] s in
  setTimeout (Highlight index segmentRanges) s.

(** Running a callback queued by [setTimeout]. *)
Definition run_timer (t : timer) (s : state) : state :=
  match t with
  | FocusActive => focusSegment (Z.of_nat (_activeSegment s)) s
  | Highlight index segmentRanges =>
      with_input (fun i => highlightSegment i (Z.of_nat index) segmentRanges) s
  end.

(** The handler returns the new state and whether it called
    [event.preventDefault()]. *)
Definition _onKeydown (event : keyboard_event) (s : state) : bool * state :=
  if (length (key event) =? 1)%nat && negb (ctrlKey event) && negb (metaKey event)
  then (true, _handleSegmentInput (key event) s)
  else if jsstring_eqb (key event) (str "Backspace") then
    let placeholder := _placeholderValues !! _activeSegment s in
    let s := set_segmentBuffer [] s in
    let values := parsedValues s in
    let values := array_set (_activeSegment s) placeholder values in
    let s := with_input (set_value (format opts values)) s in
    let s := _dispatch (str "input") s in
    let s := _updateValidity s in
    (true,
     with_input
       (fun i => highlightSegment i (Z.of_nat (_activeSegment s)) (getSegmentRanges s)) s)
  else if jsstring_eqb (key event) (str "ArrowLeft") then
    (true, focusSegment (Z.of_nat (_activeSegment s) - 1) s)
  else if jsstring_eqb (key event) (str "ArrowRight") then
    (true, focusSegment (Z.of_nat (_activeSegment s) + 1) s)
  else if jsstring_eqb (key event) (str "ArrowUp") then (true, increment s)
  else if jsstring_eqb (key event) (str "ArrowDown") then (true, decrement s)
  else if jsstring_eqb (key event) (str "Tab") then
    if shiftKey event then
      if (0 <? _activeSegment s)%nat
      then (true, focusSegment (Z.of_nat (_activeSegment s) - 1) s)
      else (false, s)
    else
      if Z.of_nat (_activeSegment s) <? Z.of_nat (length (segments opts)) - 1
      then (true, focusSegment (Z.of_nat (_activeSegment s) + 1) s)
      else (false, s)
  else (false, s).

(** [new SegmentedInput(input, options)] on an [<input>] element and a
    well-typed [options]: the two [TypeError]s of the constructor are
    excluded by the types. *)
Definition new (input : HTMLInputElement) : state :=
  let input :=
    match input_placeholder input with
    | [] => set_placeholder _formattedPlaceholder input
    | _ => input
    end in
  _updateValidity (mkState input 0 [] []).

(** What happens to an attached instance: one of the four listeners that
    the constructor registers is called, a public method is called, or
    the oldest callback queued by [setTimeout] comes due. *)
Inductive event :=
  | on_click (selectionStart : Z)
  | on_focus
  | on_blur
  | on_keydown (e : keyboard_event)
  | call_focusSegment (index : Z)
  | call_setSegmentValue (index : Z) (newValue : jsstring)
  | call_increment
  | call_decrement
  | timer_due.

(** The oldest queued callback runs and leaves the queue. *)
Definition next_timer (s : state) : state :=
  match timers s with
  | [] => s
  | t :: rest =>
      run_timer t (mkState (input s) (_activeSegment s) (_segmentBuffer s) rest)
  end.

Definition handle (e : event) (s : state) : state :=
  match e with
  | on_click selectionStart => _onClickOrFocus selectionStart s
  | on_focus => _onFocusIn s
  | on_blur => _onBlurOut s
  | on_keydown e => (_onKeydown e s).2
  | call_focusSegment index => focusSegment index s
  | call_setSegmentValue index newValue => setSegmentValue index newValue s
  | call_increment => increment s
  | call_decrement => decrement s
  | timer_due => next_timer s
  end.

(** The instance after the events [es], oldest first. *)
Definition run (es : list event) (s : state) : state :=
  fold_left (fun s e => handle e s) es s.

End Controller.
End SegmentedInput.

(** ** The revision of the controller with action and enumerated segments

    The class of the same name in the later snapshot of the source: private
    [#fields], zero-width guards around action segments, [options]
    (enumerated) segments and the three [segment...] notifications. *)

Module GuardedInput.

(** A [CustomEvent] emitted on the instance, with the part of its detail
    that is not a function of the descriptors. *)
Inductive custom_event :=
  | segmentblur (index : nat)
  | segmentfocus (index : nat)
  | segmentchange (index : nat) (value : slot).

Record state := mkState {
  input : HTMLInputElement;
  activeSegment : nat;
  segmentBuffer : jsstring;
  placeholderJustSet : bool;
  emitted : list custom_event;
}.

Definition with_input (f : HTMLInputElement -> HTMLInputElement) (s : state) : state :=
  mkState (f (input s)) (activeSegment s) (segmentBuffer s) (placeholderJustSet s)
          (emitted s).

Definition set_activeSegment (i : nat) (s : state) : state :=
  mkState (input s) i (segmentBuffer s) (placeholderJustSet s) (emitted s).

Definition set_segmentBuffer (b : jsstring) (s : state) : state :=
  mkState (input s) (activeSegment s) b (placeholderJustSet s) (emitted s).

Definition emit (e : custom_event) (s : state) : state :=
  mkState (input s) (activeSegment s) (segmentBuffer s) (placeholderJustSet s)
          (emitted s ++ [e]).

#[local] Abbreviation resolveRanges := getSegmentRanges (only parsing).

(** The mutable part of the first loop of [#formatGuarded]. *)
Record guard_scan := mkGuardScan {
  actionRanges : list (nat * nat);
  guardFrom : nat;
}.

Section Controller.
Context `{JSNumber} (opts : options).

Definition invalidMessage_ : jsstring :=
  nullish (invalidMessage opts) (str "Please fill in all fields.").

Definition actionClass : jsstring :=
  nullish (actionActiveClass opts) (str "si-action-active").

Definition placeholderValues : list jsstring :=
  map placeholderOf (segments opts).

(** [#isActionSegment(seg)], for a descriptor that may be [undefined]. *)
Definition isActionSegment (seg : option segment) : bool :=
  match seg with
  | None => false
  | Some seg =>
      bool_decide (seg_type seg = Some (str "action")) || bool_decide (is_Some (seg_onClick seg))
  end.

Definition stripZWS (s : jsstring) : jsstring :=
  filter (fun c => c <> ZWS) s.

(** One iteration of the first loop of [#formatGuarded]. *)
Definition guard_step (raw : jsstring) (st : guard_scan) (iv : nat * slot)
  : guard_scan :=
  let val := slot_to_string iv.2 in
  match indexOf raw val (guardFrom st) with
  | Some start =>
      mkGuardScan
        (if isActionSegment (segments opts !! iv.1)
         then actionRanges st ++ [(start, (start + length val)%nat)]
         else actionRanges st)
        (start + length val)%nat
  | None => st
  end.

(** One iteration of the second loop of [#formatGuarded], which visits
    the ranges from the last to the first. *)
Definition guard_wrap (r : nat * nat) (result : jsstring) : jsstring :=
  take r.1 result ++ [ZWS] ++ take (r.2 - r.1) (drop r.1 result) ++ [ZWS]
    ++ drop r.2 result.

Definition formatGuarded (values : list slot) : jsstring :=
  let raw := format opts values in
  if negb (existsb (fun s => isActionSegment (Some s)) (segments opts)) then raw
  else
    let st := fold_left (guard_step raw) (imap (fun i v => (i, v)) values)
                        (mkGuardScan [] 0) in
    fold_left (fun result r => guard_wrap r result) (rev (actionRanges st)) raw.

Definition formattedPlaceholder : jsstring :=
  formatGuarded (Some <$> placeholderValues).

(** [#currentValues()]. *)
Definition currentValues (s : state) : list slot :=
  Some <$> parse opts (stripZWS (input_value (input s))).

(** [if (!this.input.value) this.input.value = this.#formattedPlaceholder]. *)
Definition showPlaceholder (s : state) : state :=
  match input_value (input s) with
  | [] => with_input (set_value formattedPlaceholder) s
  | _ => s
  end.

Definition getSegmentRanges (s : state) : list range :=
  resolveRanges (input_value (input s))
                (fun v => parse opts (stripZWS v))
                (fun v => formatGuarded v).

(** The loop shared by [#findEditable] and [#findNavigable]: [stop] is the
    test that ends the scan.  The callers pass [+1] or [-1] as [direction],
    so a scan visits each index at most once and [fuel] equal to the
    number of descriptors is never used up inside the array. *)
Fixpoint find_loop (stop : segment -> bool) (fuel : nat) (i direction : Z)
  : option nat :=
  match fuel with
  | O => None
  | S fuel' =>
      match array_get (segments opts) i with
      | None => None
      | Some seg =>
          if stop seg then Some (Z.to_nat i)
          else find_loop stop fuel' (i + direction) direction
      end
  end.

Definition findEditable (fromIndex direction : Z) : option nat :=
  find_loop (fun seg => negb (isActionSegment (Some seg)))
            (length (segments opts)) fromIndex direction.

Definition findNavigable (fromIndex direction : Z) : option nat :=
  find_loop (fun seg => negb (isActionSegment (Some seg)) || seg_selectable seg)
            (length (segments opts)) fromIndex direction.

Definition updateValidity (s : state) : state :=
  match input_value (input s) with
  | [] => with_input (setCustomValidity []) s
  | _ =>
      let values := currentValues s in
      let hasPlaceholder :=
        array_some
          (fun p i =>
             negb (isActionSegment (segments opts !! i))
             && bool_decide (slot_get values (Z.of_nat i) = Some p))
          placeholderValues 0 in
      with_input (setCustomValidity (if hasPlaceholder then invalidMessage_ else [])) s
  end.

Definition isPlaceholderState (s : state) : bool :=
  match input_value (input s) with
  | [] => true
  | _ =>
      let values := currentValues s in
      array_every
        (fun p i =>
           if isActionSegment (segments opts !! i) then true
           else bool_decide (slot_get values (Z.of_nat i) = Some p))
        placeholderValues 0
  end.

Definition dispatch (type : jsstring) (s : state) : state :=
  with_input (dispatchEvent type) s.

Definition focusSegment (index : Z) (s : state) : state :=
  let clamped := Z.to_nat (Z.max 0 (Z.min index (Z.of_nat (length (segments opts)) - 1))) in
  let seg := segments opts !! clamped in
  let target :=
    if isActionSegment seg && negb (from_option seg_selectable false seg) then
      let fwd := findEditable (Z.of_nat clamped + 1) 1 in
      let bwd := findEditable (Z.of_nat clamped - 1) (-1) in
      match fwd, bwd with
      | Some f, _ => Some f
      | None, Some b => Some b
      | None, None => None
      end
    else Some clamped in
  match target with
  | None => s
  | Some clamped =>
      let s :=
        if bool_decide (clamped <> activeSegment s)
        then emit (segmentblur (activeSegment s)) s
        else s in
      let s := set_activeSegment clamped s in
      let s := set_segmentBuffer [] s in
      let targetSeg := segments opts !! clamped in
      let s :=
        if isActionSegment targetSeg && from_option seg_selectable false targetSeg
        then with_input (classList_add actionClass) s
        else with_input (classList_remove actionClass) s in
      let s :=
        with_input (fun i => highlightSegment i (Z.of_nat clamped) (getSegmentRanges s)) s in
      emit (segmentfocus clamped) s
  end.

Definition getSegmentValue (index : Z) (s : state) : slot :=
  slot_get (currentValues s) index.

Definition adjustSegment (index : nat) (direction : Z) (s : state) : state :=
  match segments opts !! index with
  | None => s
  | Some seg =>
      if isActionSegment (Some seg) then s
      else if bool_decide (seg_type seg = Some (str "text")) then s
      else
        match seg_options seg with
        | Some options =>
            let s := showPlaceholder s in
            let values := currentValues s in
            let idx := array_indexOf options (slot_get values (Z.of_nat index)) in
            let picked :=
              match length options with
              | O => None
              | _ =>
                  let newIdx :=
                    Z.rem (Z.of_nat (from_option id 0%nat idx) + direction
                           + Z.of_nat (length options))
                          (Z.of_nat (length options)) in
                  array_get options newIdx
              end in
            let values := array_set index picked values in
            let s := with_input (set_value (formatGuarded values)) s in
            let s := focusSegment (Z.of_nat index) s in
            let s := dispatch (str "input") s in
            let s := dispatch (str "change") s in
            let s := updateValidity s in
            emit (segmentchange index picked) s
        | None =>
            let s := showPlaceholder s in
            let radix := nullish (seg_radix seg) (of_Z 10) in
            let values := currentValues s in
            let step := nullish (seg_step seg) (of_Z 1) in
            let current :=
              if num_eq radix (of_Z 10)
              then parseFloat (slot_to_string (slot_get values (Z.of_nat index)))
              else parseInt (slot_to_string (slot_get values (Z.of_nat index))) radix in
            let current :=
              if isNaN current then
                let fallback := nullish (seg_value seg) (toString (of_Z 0)) in
                let parsed :=
                  if num_eq radix (of_Z 10) then parseFloat fallback
                  else parseInt fallback radix in
                if truthy parsed then parsed else of_Z 0
              else current in
            let next := num_add current (num_mul (of_Z direction) step) in
            let next :=
              match seg_max seg with
              | Some max => if num_gt next max then max else next
              | None => next
              end in
            let next :=
              match seg_min seg with
              | Some min => if num_lt next min then min else next
              | None => next
              end in
            let rendered :=
              if negb (num_eq radix (of_Z 10))
              then toUpperCase (toStringRadix (round next) radix)
              else
                let decimals := decimalPlaces (toString step) in
                if (0 <? decimals)%nat then toFixed next decimals
                else toString (round next) in
            let values := array_set index (Some rendered) values in
            let s := with_input (set_value (formatGuarded values)) s in
            let s := focusSegment (Z.of_nat index) s in
            let s := dispatch (str "input") s in
            let s := dispatch (str "change") s in
            let s := updateValidity s in
            emit (segmentchange index (Some rendered)) s
        end
  end.

Definition increment (s : state) : state := adjustSegment (activeSegment s) 1 s.

Definition decrement (s : state) : state := adjustSegment (activeSegment s) (-1) s.

Definition onBlurOut (s : state) : state :=
  let s := with_input (classList_remove actionClass) s in
  let s :=
    if (0 <? length (segments opts))%nat
    then emit (segmentblur (activeSegment s)) s
    else s in
  let s :=
    if isPlaceholderState s then
      let s := with_input (set_value []) s in
      let s := set_activeSegment 0 s in
      set_segmentBuffer [] s
    else s in
  updateValidity s.

(** [while (from > 0 && result.codePointAt(from - 1) === 0x200B) from--].
    The guard is not a surrogate, so the code point read at a position is
    the guard exactly when the code unit there is. *)
Fixpoint guard_start (result : jsstring) (from : nat) : nat :=
  match from with
  | O => O
  | S before =>
      if bool_decide (result !! before = Some ZWS) then guard_start result before
      else from
  end.

(** [while (to < result.length && result.codePointAt(to) === 0x200B) to++],
    on the text from [to] on. *)
Fixpoint guard_end (rest : jsstring) (to : nat) : nat :=
  match rest with
  | [] => to
  | c :: rest' => if bool_decide (c = ZWS) then guard_end rest' (S to) else to
  end.

(** One iteration of the loop of the [value] getter. *)
Definition value_step (result : jsstring) (ir : nat * range) : jsstring :=
  if isActionSegment (segments opts !! ir.1) then
    let from := guard_start result (Z.to_nat (start ir.2)) in
    let to := guard_end (drop (Z.to_nat (end_ ir.2)) result) (Z.to_nat (end_ ir.2)) in
    take from result ++ drop to result
  else result.

(** [get value ()]; the loop visits the ranges from the last to the
    first. *)
Definition get_value (s : state) : jsstring :=
  if bool_decide (input_value (input s) = []) || isPlaceholderState s then []
  else
    let ranges := getSegmentRanges s in
    trimEnd (fold_left value_step (rev (imap (fun i r => (i, r)) ranges))
                       (input_value (input s))).

End Controller.
End GuardedInput.

(** ** A concrete reading of the numbers: IEEE 754 doubles

    [Dec m e] is the decimal numeral [m * 10^-e], [Inf] an infinity and
    [NaN] not a number.  A numeral stands for the binary64 value nearest
    to it, a tie going to the even significand, which is how the language
    reads a numeric literal: every built-in below takes its operands
    through [to_double] and rounds what it computes the same way.  A
    binary64 value is itself a decimal numeral, so [to_double] returns
    one, with no trailing zero in its fraction.

    The two zeros are not told apart: nothing in the interface can see
    the sign of a zero ([String(-0)] is ["0"], [-0 === 0], and [toFixed]
    prints a sign for numbers below zero only). *)
Module Decimal.

Inductive decimal :=
  | NaN
  | Inf (negative : bool)
  | Dec (m : Z) (e : nat).

(** Drop the trailing zeros of the fraction. *)
Fixpoint normalize (m : Z) (e : nat) : decimal :=
  match e with
  | O => Dec m 0
  | S e' => if m mod 10 =? 0 then normalize (m / 10) e' else Dec m e
  end.

(** The integer nearest to [n / d], a tie going to the even one, for
    [0 <= n] and [0 < d]. *)
Definition round_div (n d : Z) : Z :=
  let q := n / d in
  match 2 * (n mod d) ?= d with
  | Lt => q
  | Gt => q + 1
  | Eq => if Z.even q then q else q + 1
  end.

(** The integer part of the binary logarithm of [n / d], for positive [n]
    and [d]. *)
Definition log2_ratio (n d : Z) : Z :=
  let l := Z.log2 n - Z.log2 d in
  if n * 2 ^ Z.max 0 (- l) <? d * 2 ^ Z.max 0 l then l - 1 else l.

(** The binary64 value nearest to [n / d], for positive [n] and [d]:
    [Some (k, q)] is [k * 2^q] with a significand [k] of at most 53 bits
    and [q] no less than the exponent of the subnormals; [None] is the
    overflow to infinity. *)
Definition nearest (n d : Z) : option (Z * Z) :=
  let q := Z.max (log2_ratio n d - 52) (-1074) in
  let k := round_div (n * 2 ^ Z.max 0 (- q)) (d * 2 ^ Z.max 0 q) in
  if 2 ^ 1024 <=? k * 2 ^ Z.max 0 q then None else Some (k, q).

Definition to_double (x : decimal) : decimal :=
  match x with
  | Dec m e =>
      if m =? 0 then Dec 0 0
      else
        match nearest (Z.abs m) (10 ^ Z.of_nat e) with
        | None => Inf (m <? 0)
        | Some (k, q) =>
            if 0 <=? q then Dec (Z.sgn m * k * 2 ^ q) 0
            else normalize (Z.sgn m * k * 5 ^ (- q)) (Z.to_nat (- q))
        end
  | _ => x
  end.

Definition compare (a b : decimal) : option comparison :=
  match to_double a, to_double b with
  | NaN, _ => None
  | _, NaN => None
  | Inf s1, Inf s2 => Some (if s1 then if s2 then Eq else Lt else if s2 then Gt else Eq)
  | Inf s, Dec _ _ => Some (if s then Lt else Gt)
  | Dec _ _, Inf s => Some (if s then Gt else Lt)
  | Dec m1 e1, Dec m2 e2 =>
      Some (m1 * 10 ^ Z.of_nat e2 ?= m2 * 10 ^ Z.of_nat e1)
  end.

Definition gt (a b : decimal) : bool :=
  match compare a b with Some Gt => true | _ => false end.

Definition lt (a b : decimal) : bool :=
  match compare a b with Some Lt => true | _ => false end.

Definition ge (a b : decimal) : bool :=
  match compare a b with Some Gt | Some Eq => true | _ => false end.

Definition eq (a b : decimal) : bool :=
  match compare a b with Some Eq => true | _ => false end.

Definition add (a b : decimal) : decimal :=
  match to_double a, to_double b with
  | NaN, _ => NaN
  | _, NaN => NaN
  | Inf s1, Inf s2 => if Bool.eqb s1 s2 then Inf s1 else NaN
  | Inf s, Dec _ _ => Inf s
  | Dec _ _, Inf s => Inf s
  | Dec m1 e1, Dec m2 e2 =>
      to_double (Dec (m1 * 10 ^ Z.of_nat e2 + m2 * 10 ^ Z.of_nat e1) (e1 + e2))
  end.

Definition mul (a b : decimal) : decimal :=
  match to_double a, to_double b with
  | NaN, _ => NaN
  | _, NaN => NaN
  | Inf s1, Inf s2 => Inf (xorb s1 s2)
  | Inf s, Dec m _ => if m =? 0 then NaN else Inf (xorb s (m <? 0))
  | Dec m _, Inf s => if m =? 0 then NaN else Inf (xorb s (m <? 0))
  | Dec m1 e1, Dec m2 e2 => to_double (Dec (m1 * m2) (e1 + e2))
  end.

Definition floor (a : decimal) : decimal :=
  match to_double a with
  | Dec m e => Dec (m / 10 ^ Z.of_nat e) 0
  | other => other
  end.

(** [Math.round]: the nearest integer, a tie going up. *)
Definition round (a : decimal) : decimal :=
  match to_double a with
  | Dec m e => Dec ((2 * m + 10 ^ Z.of_nat e) / (2 * 10 ^ Z.of_nat e)) 0
  | other => other
  end.

Definition isNaN (a : decimal) : bool :=
  match a with NaN => true | _ => false end.

Definition truthy (a : decimal) : bool :=
  match to_double a with
  | NaN => false
  | Inf _ => true
  | Dec m _ => negb (m =? 0)
  end.

(** The digit [d] of a radix up to 36, lower case. *)
Definition digit_unit (d : Z) : code_unit :=
  Z.to_N (if d <? 10 then 48 + d else 87 + d).

(** The digits of a natural number [n] in [radix], most significant
    first; [fuel] bounds the number of digits. *)
Fixpoint digits (fuel : nat) (radix n : Z) (acc : jsstring) : jsstring :=
  match fuel with
  | O => acc
  | S fuel' =>
      let acc' := digit_unit (n mod radix) :: acc in
      if n / radix =? 0 then acc' else digits fuel' radix (n / radix) acc'
  end.

Definition render_nat (radix n : Z) : jsstring :=
  digits (S (Z.to_nat (Z.log2 n))) radix n [].

Definition render_int (radix n : Z) : jsstring :=
  if n <? 0 then 45%N :: render_nat radix (- n) else render_nat radix n.

(** The digits of [String(x)]: the fewest significant digits that read
    back as the same binary64 value, and among those the nearest to it (a
    tie going to the even digit string).  [m] and [e] are the value, [len]
    the number of digits of [m], [n] the number of digits tried; the
    result is the digit string as a number and the power of ten, counted
    in units of [10^-e], that it is to be scaled by.  Seventeen digits
    always suffice. *)
Fixpoint shortest (fuel : nat) (n : nat) (m : Z) (e len : nat) : Z * nat :=
  match fuel with
  | O => (m, 0%nat)
  | S fuel' =>
      if (len <=? n)%nat then (m, 0%nat)
      else
        let cut := (len - n)%nat in
        let unit := 10 ^ Z.of_nat cut in
        let lo := m / unit in
        let hi := lo + 1 in
        let reads_back s :=
          match to_double (Dec (s * unit) e) with
          | Dec m' e' => (m' =? m) && (e' =? e)%nat
          | _ => false
          end in
        match reads_back lo, reads_back hi with
        | true, true =>
            match m - lo * unit ?= hi * unit - m with
            | Lt => (lo, cut)
            | Gt => (hi, cut)
            | Eq => (if Z.even lo then lo else hi, cut)
            end
        | true, false => (lo, cut)
        | false, true => (hi, cut)
        | false, false => shortest fuel' (S n) m e len
        end
  end.

(** Drop the zeros at the end of a digit string. *)
Fixpoint strip_zeros (ds : jsstring) : jsstring :=
  match ds with
  | [] => []
  | c :: rest =>
      match strip_zeros rest with
      | [] => if (c =? 48)%N then [] else [c]
      | kept => c :: kept
      end
  end.

(** The notation of [String(x)] for the digits [ds] of a positive number
    [0.ds * 10^k]: positional from [1e-6] up to (not including) [1e21],
    with an exponent outside. *)
Definition notation (ds : jsstring) (k : Z) : jsstring :=
  let n := Z.of_nat (length ds) in
  if (n <=? k) && (k <=? 21) then ds ++ replicate (Z.to_nat (k - n)) 48%N
  else if (0 <? k) && (k <=? 21) then
    take (Z.to_nat k) ds ++ [46%N] ++ drop (Z.to_nat k) ds
  else if (-6 <? k) && (k <=? 0) then
    [48%N; 46%N] ++ replicate (Z.to_nat (- k)) 48%N ++ ds
  else
    (match ds with
     | [d] => [d]
     | _ => take 1 ds ++ [46%N] ++ drop 1 ds
     end)
    ++ [101%N] ++ [if k - 1 <? 0 then 45%N else 43%N]
    ++ render_nat 10 (Z.abs (k - 1)).

(** [String(x)]. *)
Definition toString (x : decimal) : jsstring :=
  match to_double x with
  | NaN => str "NaN"
  | Inf negative => if negative then str "-Infinity" else str "Infinity"
  | Dec m e =>
      if m =? 0 then str "0"
      else
        let a := Z.abs m in
        let len := length (render_nat 10 a) in
        let '(s, cut) := shortest 17 1 a e len in
        let ds := render_nat 10 s in
        let k := Z.of_nat (length ds) + Z.of_nat cut - Z.of_nat e in
        (if m <? 0 then [45%N] else []) ++ notation (strip_zeros ds) k
  end.

(** [x.toString(radix)] for a radix from 2 to 36 and a number with no
    fraction, which is what [Math.floor] and [Math.round] return.  The
    digits of a fraction in a radix other than ten are left to the
    implementation by the language and are not produced here.  For any
    other radix the built-in raises a [RangeError]; the interface has no
    place for it, and the instance answers with the name of the error. *)
Definition toStringRadix (x radix : decimal) : jsstring :=
  let r :=
    match to_double radix with
    | Dec r re => Z.quot r (10 ^ Z.of_nat re)
    | _ => 0
    end in
  if (r <? 2) || (36 <? r) then str "RangeError"
  else if r =? 10 then toString x
  else
    match to_double x with
    | NaN => str "NaN"
    | Inf negative => if negative then str "-Infinity" else str "Infinity"
    | Dec m e => render_int r (Z.quot m (10 ^ Z.of_nat e))
    end.

(** [x.toFixed(d)]: below [1e21], the multiple of [10^-d] nearest to the
    value of [x], a tie going away from zero, with exactly [d]
    decimals. *)
Definition toFixed (x : decimal) (d : nat) : jsstring :=
  match to_double x with
  | Dec m e =>
      let a := Z.abs m in
      if 10 ^ 21 * 10 ^ Z.of_nat e <=? a then toString x
      else
        let n := (2 * a * 10 ^ Z.of_nat d + 10 ^ Z.of_nat e) / (2 * 10 ^ Z.of_nat e) in
        let scale := 10 ^ Z.of_nat d in
        (if m <? 0 then [45%N] else [])
          ++ render_nat 10 (n / scale)
          ++ match d with
             | O => []
             | _ => 46%N :: padStart d 48%N (render_nat 10 (n mod scale))
             end
  | other => toString other
  end.

(** The white space that [parseInt] and [parseFloat] skip. *)
Definition is_whitespace (c : code_unit) : bool := is_white_space c.

Fixpoint trim_start (s : jsstring) : jsstring :=
  match s with
  | c :: s' => if is_whitespace c then trim_start s' else s
  | [] => []
  end.

(** The value of a digit or letter as a digit of a radix up to 36. *)
Definition digit_value (c : code_unit) : option Z :=
  let c := Z.of_N c in
  if (48 <=? c) && (c <=? 57) then Some (c - 48)
  else if (97 <=? c) && (c <=? 122) then Some (c - 87)
  else if (65 <=? c) && (c <=? 90) then Some (c - 55)
  else None.

(** The longest prefix of [s] made of digits of [radix]: its value and
    its length, with what follows it. *)
Fixpoint read_digits (radix : Z) (s : jsstring) (acc : Z) (n : nat)
  : Z * nat * jsstring :=
  match s with
  | c :: s' =>
      match digit_value c with
      | Some d => if d <? radix then read_digits radix s' (acc * radix + d) (S n)
                  else (acc, n, s)
      | None => (acc, n, s)
      end
  | [] => (acc, n, s)
  end.

Definition read_sign (s : jsstring) : Z * jsstring :=
  match s with
  | 45%N :: s' => (-1, s')
  | 43%N :: s' => (1, s')
  | _ => (1, s)
  end.

(** [ToInt32(x)]. *)
Definition to_int32 (x : decimal) : Z :=
  match to_double x with
  | Dec m e =>
      let t := Z.quot m (10 ^ Z.of_nat e) mod 2 ^ 32 in
      if t <? 2 ^ 31 then t else t - 2 ^ 32
  | _ => 0
  end.

(** [parseInt(s, radix)]. *)
Definition parseInt (s : jsstring) (radix : decimal) : decimal :=
  let '(sign, s) := read_sign (trim_start s) in
  let r := to_int32 radix in
  if negb (r =? 0) && ((r <? 2) || (36 <? r)) then NaN
  else
    let stripPrefix := (r =? 0) || (r =? 16) in
    let r := if r =? 0 then 10 else r in
    let '(r, s) :=
      match s with
      | 48%N :: x :: s' =>
          if stripPrefix && ((x =? 120) || (x =? 88))%N then (16, s') else (r, s)
      | _ => (r, s)
      end in
    let '(v, n, _) := read_digits r s 0 0 in
    match n with
    | O => NaN
    | _ => Dec (sign * v) 0
    end.

(** [parseFloat(s)]: sign, then [Infinity] or the digits, fraction and
    exponent of the longest decimal literal that starts [s]. *)
Definition parseFloat (s : jsstring) : decimal :=
  let '(sign, s) := read_sign (trim_start s) in
  if starts_with (str "Infinity") s then Inf (sign <? 0)
  else
    let '(ip, n1, s) := read_digits 10 s 0 0 in
    let '(fp, n2, s) :=
      match s with
      | 46%N :: s' => read_digits 10 s' 0 0
      | _ => (0, 0%nat, s)
      end in
    match (n1 + n2)%nat with
    | O => NaN
    | _ =>
        let m := sign * (ip * 10 ^ Z.of_nat n2 + fp) in
        let '(esign, ex, n3) :=
          match s with
          | x :: s' =>
              if ((x =? 101) || (x =? 69))%N then
                let '(esign, s'') := read_sign s' in
                let '(ex, n3, _) := read_digits 10 s'' 0 0 in
                (esign, ex, n3)
              else (1, 0, 0%nat)
          | [] => (1, 0, 0%nat)
          end in
        match n3 with
        | O => normalize m n2
        | _ =>
            if esign <? 0 then normalize m (n2 + Z.to_nat ex)
            else normalize (m * 10 ^ ex) n2
        end
    end.

#[export] Instance decimal_number : JSNumber := {
  number := decimal;
  of_Z z := Dec z 0;
  parseInt := parseInt;
  parseFloat := parseFloat;
  isNaN := isNaN;
  truthy := truthy;
  num_add := add;
  num_mul := mul;
  num_gt := gt;
  num_lt := lt;
  num_ge := ge;
  num_eq := eq;
  floor := floor;
  round := round;
  toString := toString;
  toStringRadix := toStringRadix;
  toFixed := toFixed;
}.

End Decimal.

(** ** Configurations used to run the model

    The [ipv4] and [duration] presets and the alpha channel of the [rgba]
    preset of [src/presets.js], and a small calculator field with an
    enumerated segment and an action segment. *)

Module Presets.
Import Decimal.

(** The descriptor [{ value, placeholder, min, max, step, pattern, maxLength }]
    of a numeric segment. *)
Definition numeric (value placeholder : string) (min max : option Z) (step : decimal)
    (pattern : option (jsstring -> bool)) (maxLength : option Z) : segment :=
  mkSegment (Some (str value)) (Some (str placeholder))
            ((fun z => Dec z 0) <$> min) ((fun z => Dec z 0) <$> max) (Some step) None
            pattern ((fun z => Dec z 0) <$> maxLength) None None None false.

(** [/\d/.test(key)]: some unit of [key] is a decimal digit. *)
Definition digit_pattern (key : jsstring) : bool :=
  existsb (fun c => (48 <=? c) && (c <=? 57))%N key.

(** [values.join(sep)]: [undefined] joins as the empty string. *)
Definition join_values (sep : jsstring) (values : list slot) : jsstring :=
  join sep (map (fun v => nullish v []) values).

(** [while (parts.length < n) parts.push(d); return parts.slice(0, n)]. *)
Definition pad_parts (n : nat) (d : jsstring) (parts : list jsstring) : list jsstring :=
  take n (parts ++ replicate (n - length parts) d).

Definition ipv4 : options :=
  mkOptions
    (replicate 4 (numeric "0" "--" (Some 0) (Some 255) (Dec 1 0) (Some digit_pattern) None))
    (fun values => join_values (str ".") values)
    (fun s => pad_parts 4 (str "0") (split 46%N s))
    None None.

Definition duration : options :=
  mkOptions
    [ numeric "00" "hh" (Some 0) None (Dec 1 0) (Some digit_pattern) (Some 3);
      numeric "00" "mm" (Some 0) (Some 59) (Dec 1 0) (Some digit_pattern) None;
      numeric "00" "ss" (Some 0) (Some 59) (Dec 1 0) (Some digit_pattern) None ]
    (fun values =>
       join (str ":") (map (fun v => padStart 2 48%N (slot_to_string v)) values))
    (fun s => map (padStart 2 48%N) (pad_parts 3 (str "00") (split 58%N s)))
    None None.

(** The alpha channel of the [rgba] preset: a decimal segment. *)
Definition alpha : segment :=
  numeric "1" "a" (Some 0) (Some 1) (Dec 1 1) None None.

(** Segments of a small calculator field, [left operator right =]: an
    operand, an enumerated operator (given with its [type], if any, and
    its options) and an action segment that shows [=]. *)
Definition operand : segment :=
  numeric "0" "_" (Some 0) (Some 99) (Dec 1 0) (Some digit_pattern) None.

Definition enumerated (type : option string) (choices : list string) : segment :=
  mkSegment None (Some (str "?")) None None None None None None (str <$> type)
            (Some (map str choices)) None false.

Definition button : segment :=
  mkSegment (Some (str "=")) None None None None None None None None None
            (Some 0%nat) false.

(** The field made of the given segments, written with one space between
    the segment values. *)
Definition spaced (descriptors : list segment) : options :=
  mkOptions descriptors
    (fun values => join_values (str " ") values)
    (fun s => pad_parts (length descriptors) (str "0") (split 32%N s))
    None None.

Definition expression (choices : list string) : options :=
  spaced [operand; enumerated None choices; operand].

(** An element that holds [text], and a controller of
    [src/segmented-input.js] attached to it with the given active segment
    and keystroke buffer. *)
Definition element (text : string) : HTMLInputElement :=
  mkInput (str text) [] [] None [] [].

Definition editing (text : string) (active : nat) (buffer : string)
  : SegmentedInput.state :=
  SegmentedInput.mkState (element text) active (str buffer) [].

(** The same for the revision with action and enumerated segments. *)
Definition guarded (text : string) (active : nat) : GuardedInput.state :=
  GuardedInput.mkState (element text) active [] false [].

(** [/[0-9a-fA-F]/.test(key)]: some unit of [key] is a hexadecimal
    digit. *)
Definition hex_pattern (key : jsstring) : bool :=
  existsb (fun c => ((48 <=? c) && (c <=? 57)) || ((97 <=? c) && (c <=? 102))
                    || ((65 <=? c) && (c <=? 70)))%N key.

(** The [ipv6] preset.  Its [format] calls [padStart] on each value, which
    raises a [TypeError] on [undefined]: [None] is that error. *)
Definition ipv6_segments : list segment :=
  replicate 8
    (mkSegment (Some (str "0000")) (Some (str "----")) (Some (Dec 0 0))
               (Some (Dec 65535 0)) (Some (Dec 1 0)) (Some (Dec 16 0))
               (Some hex_pattern) None None None None false).

Definition ipv6_format (values : list slot) : option jsstring :=
  join (str ":") <$> mapM (fun v : slot => padStart 4 48%N <$> v) values.

Definition ipv6_parse (s : jsstring) : list jsstring :=
  map (padStart 4 48%N) (pad_parts 8 (str "0000") (split 58%N s)).

(** The [uuid] preset. *)
Definition group (value placeholder : string) (maxLength : Z) : segment :=
  mkSegment (Some (str value)) (Some (str placeholder)) None None None None
            (Some hex_pattern) (Some (Dec maxLength 0)) None None None false.

Definition uuid_defaults : list jsstring :=
  [str "00000000"; str "0000"; str "0000"; str "0000"; str "000000000000"].

(** [(parts[i] ?? d) || d]: the part, unless it is missing or empty. *)
Definition part_or (parts : list jsstring) (i : nat) (d : jsstring) : jsstring :=
  match parts !! i with
  | Some (c :: p) => c :: p
  | _ => d
  end.

Definition uuid : options :=
  mkOptions
    [ group "00000000" "xxxxxxxx" 8; group "0000" "xxxx" 4; group "0000" "xxxx" 4;
      group "0000" "xxxx" 4; group "000000000000" "xxxxxxxxxxxx" 12 ]
    (fun values => join_values (str "-") values)
    (fun s => imap (part_or (split 45%N s)) uuid_defaults)
    None None.

End Presets.

(** ** Vocabulary of the statements *)

(** [pat] occurs in [s] at position [k]. *)
Definition occurs_at (s pat : jsstring) (k : nat) : Prop :=
  take (length pat) (drop k s) = pat.

(** The loop variable [searchFrom] of [getSegmentRanges] when iteration
    [i] begins. *)
Definition cursor_before (formatted : jsstring) (segmentValues : list jsstring)
    (i : nat) : nat :=
  searchFrom (scan formatted (take i segmentValues)).

(** The cursor lies within the range, both ends included. *)
Definition contains (r : range) (cursorPos : Z) : Prop :=
  start r <= cursorPos <= end_ r.

(** Ranges in ascending order: no range ends before it starts, and each
    range ends no later than the next one starts. *)
Fixpoint ascending (rs : list range) : Prop :=
  match rs with
  | [] => True
  | r :: rest =>
      start r <= end_ r
      /\ match rest with
         | [] => True
         | r' :: _ => end_ r <= start r'
         end
      /\ ascending rest
  end.

(** Where the values [vs] are written in a text that joins them with a
    one-unit separator, the first of them at offset [from]. *)
Fixpoint spans (from : nat) (vs : list jsstring) : list range :=
  match vs with
  | [] => []
  | v :: rest =>
      mkRange (Z.of_nat from) (Z.of_nat (from + length v)) v
        :: spans (from + length v + 1) rest
  end.

(** The values [vs] survive the controller's write and read: the guarded
    text they format to is not empty, and stripping the guards and parsing
    it gives [vs] back. *)
Definition survives `{JSNumber} (opts : options) (vs : list slot) : Prop :=
  GuardedInput.formatGuarded opts vs <> []
  /\ Some <$> parse opts (GuardedInput.stripZWS (GuardedInput.formatGuarded opts vs)) = vs.

(** What the loop of [getSegmentRanges] keeps true of its variables: the
    cursor stays within the text, the ranges pushed so far are in
    ascending order, and the last of them ends at or before the cursor. *)
Definition scan_inv (formatted : jsstring) (st : scan_state) : Prop :=
  (searchFrom st <= length formatted)%nat
  /\ ascending (ranges st)
  /\ forall r, last (ranges st) = Some r -> end_ r <= Z.of_nat (searchFrom st).

(** * Properties *)

(** ** The range resolver *)

Lemma starts_with_occurs pat s :
  starts_with pat s = true <-> take (length pat) s = pat.
Proof.
  revert s. induction pat as [|p pat IH]; intros [|c s]; simpl; try done.
  rewrite andb_true_iff, N.eqb_eq, IH. split.
  - intros [-> ->]. done.
  - intros [= -> ?]. done.
Qed.

Lemma find_from_Some pat s pos k :
  find_from pat s pos = Some k ->
  (pos <= k)%nat /\ (k - pos + length pat <= length s)%nat
  /\ occurs_at s pat (k - pos)
  /\ forall j, (pos <= j < k)%nat -> ~ occurs_at s pat (j - pos).
Proof.
  revert pos. induction s as [|c s IH]; intros pos; simpl.
  - destruct (starts_with pat []) eqn:E; [|done].
    intros [= <-]. apply starts_with_occurs in E.
    rewrite Nat.sub_diag. unfold occurs_at. simpl.
    destruct pat; [|done]. simpl. repeat split; try lia; done.
  - destruct (starts_with pat (c :: s)) eqn:E.
    + intros [= <-]. apply starts_with_occurs in E.
      rewrite Nat.sub_diag. unfold occurs_at. simpl.
      repeat split; try lia; try done.
      apply (f_equal length) in E. rewrite length_take in E. simpl in E. lia.
    + intros Hk. apply IH in Hk as (Hle & Hlen & Hocc & Hmin).
      replace (k - pos)%nat with (S (k - S pos)) by lia.
      split; [lia|]. split; [simpl; lia|]. split; [exact Hocc|].
      intros j Hj. destruct (decide (j = pos)) as [->|Hne].
        -- rewrite Nat.sub_diag. unfold occurs_at. simpl.
           intros Hocc'. apply starts_with_occurs in Hocc'. congruence.
        -- replace (j - pos)%nat with (S (j - S pos)) by lia.
           apply Hmin. lia.
Qed.

Lemma find_from_None pat s pos :
  find_from pat s pos = None -> forall j, ~ occurs_at s pat j.
Proof.
  revert pos. induction s as [|c s IH]; intros pos; simpl.
  - destruct (starts_with pat []) eqn:E; [done|]. intros _ j Hocc.
    unfold occurs_at in Hocc. rewrite drop_nil in Hocc.
    apply starts_with_occurs in Hocc. congruence.
  - destruct (starts_with pat (c :: s)) eqn:E; [done|]. intros Hn [|j].
    + intros Hocc. unfold occurs_at in Hocc. simpl in Hocc.
      apply starts_with_occurs in Hocc. congruence.
    + apply (IH _ Hn j).
Qed.

Lemma occurs_at_drop s pat from j :
  occurs_at (drop from s) pat j <-> occurs_at s pat (from + j).
Proof. unfold occurs_at. by rewrite drop_drop. Qed.

(** [indexOf] returns the first occurrence at or after the start
    position, when the start position lies within the text. *)
Lemma indexOf_Some s pat from k :
  (from <= length s)%nat ->
  indexOf s pat from = Some k ->
  (from <= k)%nat /\ (k + length pat <= length s)%nat
  /\ occurs_at s pat k
  /\ forall j, (from <= j < k)%nat -> ~ occurs_at s pat j.
Proof.
  intros Hfrom. unfold indexOf. rewrite Nat.min_l by done.
  intros Hk. apply find_from_Some in Hk as (Hle & Hlen & Hocc & Hmin).
  rewrite length_drop in Hlen.
  apply occurs_at_drop in Hocc.
  replace (from + (k - from))%nat with k in Hocc by lia.
  repeat split; try lia; try done.
  intros j Hj Hoccj. apply (Hmin j Hj). apply occurs_at_drop.
  by replace (from + (j - from))%nat with j by lia.
Qed.

Lemma indexOf_None s pat from :
  (from <= length s)%nat ->
  indexOf s pat from = None ->
  forall j, (from <= j)%nat -> ~ occurs_at s pat j.
Proof.
  intros Hfrom. unfold indexOf. rewrite Nat.min_l by done.
  intros Hn j Hj Hocc. apply (find_from_None _ _ _ Hn (j - from)%nat).
  apply occurs_at_drop. by replace (from + (j - from))%nat with j by lia.
Qed.

Lemma ascending_snoc rs r :
  ascending (rs ++ [r]) <->
  ascending rs /\ start r <= end_ r
  /\ forall r', last rs = Some r' -> end_ r' <= start r.
Proof.
  induction rs as [|a rs IH].
  - simpl. split.
    + intros (Hwf & _ & _). split; [done|]. split; [done|]. by intros r' [=].
    + intros (_ & Hwf & _). done.
  - destruct rs as [|b rs].
    + simpl. split.
      * intros (Ha & Hab & Hr & _ & _). split; [done|]. split; [done|].
        by intros r' [= <-].
      * intros ((Ha & _ & _) & Hr & Hl). split; [done|]. split; [by apply Hl|].
        done.
    + change (ascending ((a :: b :: rs) ++ [r]))
        with (start a <= end_ a /\ end_ a <= start b
              /\ ascending ((b :: rs) ++ [r])).
      change (ascending (a :: b :: rs))
        with (start a <= end_ a /\ end_ a <= start b /\ ascending (b :: rs)).
      change (last (a :: b :: rs)) with (last (b :: rs)).
      rewrite IH. tauto.
Qed.

Lemma scan_snoc formatted vals v :
  scan formatted (vals ++ [v]) = scan_step formatted (scan formatted vals) v.
Proof. unfold scan. by rewrite fold_left_app. Qed.

(** Each iteration pushes exactly one range, whose value is the segment
    value it looked for. *)
Lemma scan_step_ranges formatted st v :
  exists r, ranges (scan_step formatted st v) = ranges st ++ [r] /\ value r = v.
Proof.
  unfold scan_step. destruct (indexOf _ _ _); simpl; eauto.
Qed.

Lemma scan_step_inv formatted st v :
  scan_inv formatted st -> scan_inv formatted (scan_step formatted st v).
Proof.
  intros (Hc & Hasc & Hlast). unfold scan_step.
  destruct (indexOf formatted v (searchFrom st)) as [k|] eqn:E;
    unfold scan_inv; simpl.
  - apply indexOf_Some in E as (Hk & Hlen & _); [|done].
    split; [lia|]. split.
    + apply ascending_snoc. simpl. split; [done|]. split; [lia|].
      intros r' Hr'. specialize (Hlast r' Hr'). lia.
    + intros r. rewrite last_snoc. intros [= <-]. simpl. lia.
  - split; [done|]. split.
    + apply ascending_snoc. simpl. split; [done|]. split; [lia|].
      intros r' Hr'. specialize (Hlast r' Hr'). lia.
    + intros r. rewrite last_snoc. intros [= <-]. simpl. lia.
Qed.

Lemma scan_inv_scan formatted vals : scan_inv formatted (scan formatted vals).
Proof.
  induction vals as [|v vals IH] using rev_ind.
  - repeat split; simpl; try lia. done.
  - rewrite scan_snoc. by apply scan_step_inv.
Qed.

Lemma scan_length formatted vals :
  length (ranges (scan formatted vals)) = length vals.
Proof.
  induction vals as [|v vals IH] using rev_ind; [done|].
  rewrite scan_snoc. destruct (scan_step_ranges formatted (scan formatted vals) v)
    as (r & -> & _).
  rewrite !length_app, IH. done.
Qed.

Lemma scan_take formatted vals i :
  ranges (scan formatted (take i vals)) = take i (ranges (scan formatted vals)).
Proof.
  induction vals as [|v vals IH] using rev_ind.
  - rewrite take_nil. simpl. by rewrite take_nil.
  - destruct (scan_step_ranges formatted (scan formatted vals) v) as (r & E & _).
    destruct (decide (i <= length vals)%nat) as [Hi|Hi].
    + rewrite take_app_le by done.
      rewrite scan_snoc, E.
      rewrite take_app_le by (rewrite scan_length; done). done.
    + rewrite take_ge by (rewrite length_app; simpl; lia).
      rewrite scan_snoc, E.
      rewrite take_ge by (rewrite length_app, scan_length; simpl; lia).
      done.
Qed.

(** The range at index [i] is the one pushed by iteration [i], which
    starts from the state reached on the first [i] segment values. *)
Lemma scan_lookup formatted vals i r :
  ranges (scan formatted vals) !! i = Some r ->
  exists v, vals !! i = Some v
    /\ ranges (scan_step formatted (scan formatted (take i vals)) v)
       = ranges (scan formatted (take i vals)) ++ [r]
    /\ scan formatted (take (S i) vals)
       = scan_step formatted (scan formatted (take i vals)) v.
Proof.
  intros Hr.
  assert (i < length vals)%nat as Hi.
  { rewrite <- (scan_length formatted). by eapply lookup_lt_Some. }
  destruct (lookup_lt_is_Some_2 vals i Hi) as [v Hv].
  exists v. split; [done|].
  assert (scan formatted (take (S i) vals)
          = scan_step formatted (scan formatted (take i vals)) v) as Hstep.
  { rewrite (take_S_r _ _ _ Hv). apply scan_snoc. }
  split; [|done].
  destruct (scan_step_ranges formatted (scan formatted (take i vals)) v)
    as (r' & E & _).
  rewrite E. f_equal. f_equal.
  assert (ranges (scan formatted (take (S i) vals)) !! i = Some r) as H1.
  { rewrite scan_take. rewrite lookup_take_lt by lia. done. }
  rewrite Hstep, E in H1.
  rewrite lookup_app_r in H1 by (rewrite scan_length, length_take; lia).
  rewrite scan_length, length_take in H1.
  replace (i - i `min` length vals)%nat with 0%nat in H1 by lia.
  simpl in H1. congruence.
Qed.

(** C1. [getSegmentRanges] returns exactly one range per element of
    [parse(text)], carrying that element as its value.  Let [c] be the
    search cursor when iteration [i] begins.  If the value occurs in
    [format(parse(text))] at or after [c], the range starts at the first
    such occurrence and [end = start + length(value)], and the cursor
    moves to [end].  If it does not, the range is the zero-width range
    [c, c] and the cursor stays.  The ranges are in ascending order, so
    they do not overlap. *)
Theorem getSegmentRanges_one_range_per_value
    (text : jsstring) (parse : jsstring -> list jsstring)
    (format : list slot -> jsstring) :
  let segmentValues := parse text in
  let formatted := format (Some <$> segmentValues) in
  let rs := getSegmentRanges text parse format in
  length rs = length segmentValues
  /\ (forall i r, rs !! i = Some r ->
        let c := cursor_before formatted segmentValues i in
        segmentValues !! i = Some (value r)
        /\ ((exists k, (c <= k)%nat /\ occurs_at formatted (value r) k) ->
              Z.of_nat c <= start r
              /\ end_ r = start r + Z.of_nat (length (value r))
              /\ occurs_at formatted (value r) (Z.to_nat (start r))
              /\ (forall j, (c <= j)%nat -> Z.of_nat j < start r ->
                            ~ occurs_at formatted (value r) j)
              /\ cursor_before formatted segmentValues (S i) = Z.to_nat (end_ r))
        /\ ((forall k, (c <= k)%nat -> ~ occurs_at formatted (value r) k) ->
              start r = Z.of_nat c /\ end_ r = Z.of_nat c
              /\ cursor_before formatted segmentValues (S i) = c))
  /\ ascending rs.
Proof.
  intros segmentValues formatted rs. unfold rs, getSegmentRanges.
  fold segmentValues. fold formatted.
  split; [apply scan_length|]. split; [|apply scan_inv_scan].
  intros i r Hr. cbv zeta.
  destruct (scan_lookup _ _ _ _ Hr) as (v & Hv & Hpush & Hnext).
  pose proof (scan_inv_scan formatted (take i segmentValues)) as (Hc & _ & _).
  unfold cursor_before. rewrite Hnext. clear Hnext.
  unfold scan_step in *.
  set (c := searchFrom (scan formatted (take i segmentValues))) in *.
  destruct (indexOf formatted v c) as [k|] eqn:E; simpl in Hpush |- *;
    apply app_inj_tail in Hpush as [_ <-]; simpl.
  - apply indexOf_Some in E as (Hk & Hlen & Hocc & Hmin); [|done].
    split; [done|]. split.
    + intros _. rewrite Nat2Z.id. repeat split; try lia; try done.
      intros j Hj1 Hj2. apply Hmin. lia.
    + intros Hno. destruct (Hno k Hk Hocc).
  - split; [done|]. split.
    + intros (k & Hk & Hocc). destruct (indexOf_None _ _ _ Hc E k Hk Hocc).
    + done.
Qed.

Lemma getSegmentRanges_one_range_per_value_witness :
  let found := getSegmentRanges (str "00:00:00")
                 (parse Presets.duration) (format Presets.duration) in
  let missing := getSegmentRanges (str "ab-cd")
                   (fun _ => [str "ab"; str "zz"; str "cd"])
                   (fun _ => str "ab-cd") in
  (exists r, found !! 1%nat = Some r
     /\ start r = 3 /\ end_ r = start r + Z.of_nat (length (value r)))
  /\ (exists r, missing !! 1%nat = Some r /\ start r = 2 /\ end_ r = 2).
Proof.
  split.
  - exists (mkRange 3 5 (str "00")). split; [reflexivity|]. split; [reflexivity|].
    destruct (getSegmentRanges_one_range_per_value (str "00:00:00")
                (parse Presets.duration) (format Presets.duration))
      as (_ & H & _).
    destruct (H 1%nat (mkRange 3 5 (str "00")) eq_refl) as (_ & Hfound & _).
    destruct Hfound as (_ & Hend & _); [|exact Hend].
    exists 3%nat. split; [vm_compute; lia|reflexivity].
  - exists (mkRange 2 2 (str "zz")). split; [reflexivity|].
    change ((start (mkRange 2 2 (str "zz")) = Z.of_nat 2)
            /\ (end_ (mkRange 2 2 (str "zz")) = Z.of_nat 2)).
    destruct (getSegmentRanges_one_range_per_value (str "ab-cd")
                (fun _ => [str "ab"; str "zz"; str "cd"]) (fun _ => str "ab-cd"))
      as (_ & H & _).
    destruct (H 1%nat (mkRange 2 2 (str "zz")) eq_refl) as (_ & _ & Hmissing).
    destruct Hmissing as (Hstart & Hend & _); [|exact (conj Hstart Hend)].
    intros k _ Hocc.
    do 6 (destruct k as [|k]; [discriminate Hocc|]). discriminate Hocc.
Defined.

(** ** The cursor mapper *)

Lemma exact_hit_bound cursorPos rs i k :
  exact_hit cursorPos rs i = Some k -> (i <= k < i + length rs)%nat.
Proof.
  revert i. induction rs as [|r rs IH]; intros i; simpl; [done|].
  destruct (_ && _).
  - intros [= <-]. lia.
  - intros Hk. apply IH in Hk. lia.
Qed.

Lemma nearest_in_gap_bound cursorPos rs i k :
  nearest_in_gap cursorPos rs i = Some k -> (i <= k < i + length rs)%nat.
Proof.
  revert i. induction rs as [|rl rs IH]; intros i; [done|].
  destruct rs as [|rr rs]; [done|].
  cbn [nearest_in_gap]. destruct (_ && _).
  - intros [= <-]. simpl. destruct (_ <=? _); lia.
  - intros Hk. apply IH in Hk. simpl in *. lia.
Qed.

(** C2. For a non-empty list of [n] ranges and any integer cursor offset,
    negative or past the end of the text alike, [getCursorSegment] returns
    an index between [0] and [n - 1]; for the empty list it returns [0]. *)
Theorem getCursorSegment_index_in_range (cursorPos : Z) (rs : list range) :
  (rs = [] -> getCursorSegment cursorPos rs = 0%nat)
  /\ (rs <> [] ->
      0 <= Z.of_nat (getCursorSegment cursorPos rs) <= Z.of_nat (length rs) - 1).
Proof.
  split; [by intros ->|]. intros Hne.
  destruct rs as [|first rest]; [done|]. clear Hne.
  unfold getCursorSegment.
  destruct (exact_hit cursorPos (first :: rest) 0) as [k|] eqn:Ehit.
  { apply exact_hit_bound in Ehit. lia. }
  destruct (cursorPos <? start first); [simpl; lia|].
  destruct (last (first :: rest)) as [lst|]; [|simpl; lia].
  destruct (end_ lst <? cursorPos); [simpl; lia|].
  destruct (nearest_in_gap cursorPos (first :: rest) 0) as [k|] eqn:Egap.
  { apply nearest_in_gap_bound in Egap. lia. }
  simpl. lia.
Qed.

Lemma getCursorSegment_index_in_range_witness :
  getCursorSegment (-5) [] = 0%nat
  /\ 0 <= Z.of_nat (getCursorSegment 13 [mkRange 0 2 []; mkRange 3 5 []; mkRange 6 8 []])
       <= 3 - 1.
Proof.
  split.
  - by apply (getCursorSegment_index_in_range (-5) []).
  - by apply (getCursorSegment_index_in_range 13
                [mkRange 0 2 []; mkRange 3 5 []; mkRange 6 8 []]).
Defined.

(** In an ascending list an earlier range lies entirely before a later
    one. *)
Lemma ascending_lookup rs i j a b :
  ascending rs -> rs !! i = Some a -> rs !! j = Some b -> (i <= j)%nat ->
  start a <= end_ a /\ start a <= start b /\ end_ a <= end_ b
  /\ ((i < j)%nat -> end_ a <= start b).
Proof.
  revert i j a b. induction rs as [|r rs IH]; intros i j a b Hasc Ha Hb Hij; [done|].
  destruct Hasc as (Hwf & Hnext & Hrest).
  destruct i as [|i]; simpl in Ha.
  - injection Ha as ->. destruct j as [|j]; simpl in Hb.
    + injection Hb as ->. lia.
    + destruct rs as [|r' rs]; [done|].
      destruct (IH 0%nat j r' b Hrest eq_refl Hb ltac:(lia)) as (? & ? & ? & _).
      lia.
  - destruct j as [|j]; [lia|]. simpl in Hb.
    destruct (IH i j a b Hrest Ha Hb ltac:(lia)) as (? & ? & ? & Hlt).
    split; [lia|]. split; [lia|]. split; [lia|]. intros ?. apply Hlt. lia.
Qed.

Lemma exact_hit_None cursorPos rs i :
  exact_hit cursorPos rs i = None <->
  forall j r, rs !! j = Some r -> ~ contains r cursorPos.
Proof.
  revert i. induction rs as [|r rs IH]; intros i; simpl; [done|].
  unfold contains in *.
  destruct (_ && _) eqn:E.
  - split; [done|]. intros Hno. destruct (Hno 0%nat r eq_refl). lia.
  - rewrite IH. split.
    + intros Hno [|j] r' Hr'; simpl in Hr'; [|by eapply Hno].
      injection Hr' as <-. lia.
    + intros Hno j r' Hr'. by apply (Hno (S j)).
Qed.

(** The first loop returns the first range that contains the cursor. *)
Lemma exact_hit_Some cursorPos rs i k :
  exact_hit cursorPos rs i = Some k ->
  (i <= k)%nat
  /\ (exists r, rs !! (k - i)%nat = Some r /\ contains r cursorPos)
  /\ forall j r, (j < k - i)%nat -> rs !! j = Some r -> ~ contains r cursorPos.
Proof.
  revert i. induction rs as [|r rs IH]; intros i; simpl; [done|].
  unfold contains in *.
  destruct (_ && _) eqn:E.
  - intros [= <-]. rewrite Nat.sub_diag. split; [lia|]. split.
    + exists r. split; [done|]. lia.
    + intros j r' Hj. lia.
  - intros Hk. apply IH in Hk as (Hle & (r' & Hr' & Hin) & Hfirst).
    replace (k - i)%nat with (S (k - S i)) by lia.
    split; [lia|]. split; [by exists r'|].
    intros [|j] r'' Hj Hr''; simpl in Hr''.
    + injection Hr'' as <-. lia.
    + apply (Hfirst j); [lia|done].
Qed.

Lemma nearest_in_gap_cons cursorPos a b rs k :
  nearest_in_gap cursorPos (a :: b :: rs) k
  = if (end_ a <? cursorPos) && (cursorPos <? start b)
    then Some (if cursorPos - end_ a <=? start b - cursorPos then k else S k)
    else nearest_in_gap cursorPos (b :: rs) (S k).
Proof. reflexivity. Qed.

(** The second loop returns the nearer neighbour of the first gap that
    strictly contains the cursor, the left one on a tie. *)
Lemma nearest_in_gap_first cursorPos rs k i rl rr :
  rs !! i = Some rl -> rs !! S i = Some rr ->
  end_ rl < cursorPos < start rr ->
  (forall j a b, (j < i)%nat -> rs !! j = Some a -> rs !! S j = Some b ->
                 ~ (end_ a < cursorPos < start b)) ->
  nearest_in_gap cursorPos rs k
  = Some (if cursorPos - end_ rl <=? start rr - cursorPos
          then (k + i)%nat else (k + S i)%nat).
Proof.
  revert k i. induction rs as [|a rs IH]; intros k i Hl Hr Hgap Hfirst; [done|].
  destruct rs as [|b rs]; [by destruct i|].
  rewrite nearest_in_gap_cons.
  destruct i as [|i]; simpl in Hl, Hr.
  - injection Hl as ->. injection Hr as ->.
    replace ((end_ rl <? cursorPos) && (cursorPos <? start rr)) with true by lia.
    by rewrite Nat.add_0_r, Nat.add_1_r.
  - replace ((end_ a <? cursorPos) && (cursorPos <? start b)) with false.
    2:{ specialize (Hfirst 0%nat a b ltac:(lia) eq_refl eq_refl). lia. }
    rewrite (IH (S k) i Hl Hr Hgap).
    + by rewrite !Nat.add_succ_r.
    + intros j a' b' Hj Ha' Hb'. apply (Hfirst (S j) a' b'); [lia|done|done].
Qed.

Lemma getCursorSegment_nonempty cursorPos rs first :
  rs !! 0%nat = Some first ->
  getCursorSegment cursorPos rs
  = match exact_hit cursorPos rs 0 with
    | Some i => i
    | None =>
        if cursorPos <? start first then 0%nat
        else match last rs with
             | Some lst =>
                 if end_ lst <? cursorPos then (length rs - 1)%nat
                 else match nearest_in_gap cursorPos rs 0 with
                      | Some i => i
                      | None => 0%nat
                      end
             | None => 0%nat
             end
    end.
Proof. destruct rs; [done|]. intros [= ->]. reflexivity. Qed.

(** C3. In a list of ranges in ascending order, a cursor strictly between
    two adjacent ranges is mapped to the nearer of the two, the distance
    being taken from the left range's end and from the right range's
    start, and to the left one when the two distances are equal.  A cursor
    equal to the start or the end of a range is contained in that range,
    and is mapped to the first range that contains it. *)
Theorem getCursorSegment_nearest_neighbour (cursorPos : Z) (rs : list range) :
  ascending rs ->
  (forall i rl rr,
      rs !! i = Some rl -> rs !! S i = Some rr ->
      end_ rl < cursorPos < start rr ->
      (cursorPos - end_ rl <= start rr - cursorPos ->
       getCursorSegment cursorPos rs = i)
      /\ (start rr - cursorPos < cursorPos - end_ rl ->
          getCursorSegment cursorPos rs = S i))
  /\ (forall i r,
        rs !! i = Some r -> cursorPos = start r \/ cursorPos = end_ r ->
        contains r cursorPos
        /\ exists k rk,
            getCursorSegment cursorPos rs = k /\ (k <= i)%nat
            /\ rs !! k = Some rk /\ contains rk cursorPos
            /\ forall j rj, (j < k)%nat -> rs !! j = Some rj ->
                            ~ contains rj cursorPos).
Proof.
  intros Hasc. split.
  - intros i rl rr Hl Hr Hgap.
    assert (getCursorSegment cursorPos rs
            = if cursorPos - end_ rl <=? start rr - cursorPos then i else S i)
      as ->; [|destruct (Z.leb_spec (cursorPos - end_ rl) (start rr - cursorPos)); lia].
    destruct (lookup_lt_is_Some_2 rs 0%nat) as [first Hfirst].
    { apply lookup_lt_Some in Hl. lia. }
    rewrite (getCursorSegment_nonempty _ _ _ Hfirst).
    assert (exact_hit cursorPos rs 0 = None) as ->.
    { apply exact_hit_None. intros j r Hj. unfold contains.
      destruct (decide (j <= i)%nat).
      - destruct (ascending_lookup rs j i r rl Hasc Hj Hl ltac:(lia)) as (_ & _ & ? & _).
        lia.
      - destruct (ascending_lookup rs (S i) j rr r Hasc Hr Hj ltac:(lia))
          as (_ & ? & _ & _).
        lia. }
    destruct (ascending_lookup rs 0%nat i first rl Hasc Hfirst Hl ltac:(lia))
      as (_ & ? & _ & _).
    destruct (ascending_lookup rs i i rl rl Hasc Hl Hl ltac:(lia)) as (? & _).
    replace (cursorPos <? start first) with false by lia.
    rewrite last_lookup.
    assert (S i < length rs)%nat as Hlen by (by eapply lookup_lt_Some).
    destruct (lookup_lt_is_Some_2 rs (Init.Nat.pred (length rs)) ltac:(lia))
      as [lst Hlst].
    rewrite Hlst.
    destruct (ascending_lookup rs (S i) (Init.Nat.pred (length rs)) rr lst
                Hasc Hr Hlst ltac:(lia)) as (? & _ & ? & _).
    replace (end_ lst <? cursorPos) with false by lia.
    rewrite (nearest_in_gap_first cursorPos rs 0 i rl rr Hl Hr Hgap); [done|].
    intros j a b Hj Ha Hb.
    destruct (ascending_lookup rs (S j) i b rl Hasc Hb Hl ltac:(lia))
      as (_ & ? & _ & _).
    lia.
  - intros i r Hi Hpos.
    destruct (ascending_lookup rs i i r r Hasc Hi Hi ltac:(lia)) as (Hwf & _).
    assert (contains r cursorPos) as Hin by (unfold contains; lia).
    split; [done|].
    destruct (lookup_lt_is_Some_2 rs 0%nat) as [first Hfirst].
    { apply lookup_lt_Some in Hi. lia. }
    rewrite (getCursorSegment_nonempty _ _ _ Hfirst).
    destruct (exact_hit cursorPos rs 0) as [k|] eqn:Ehit.
    + apply exact_hit_Some in Ehit as (_ & (rk & Hk & Hink) & Hmin).
      rewrite Nat.sub_0_r in Hk, Hmin.
      exists k, rk. repeat split; try done; try apply Hink.
      destruct (decide (k <= i)%nat); [done|].
      destruct (Hmin i r ltac:(lia) Hi Hin).
    + destruct (proj1 (exact_hit_None _ _ _) Ehit i r Hi Hin).
Qed.

Lemma getCursorSegment_nearest_neighbour_witness :
  let rs := [mkRange 0 2 []; mkRange 4 6 []; mkRange 6 8 []; mkRange 13 15 []] in
  getCursorSegment 3 rs = 0%nat
  /\ getCursorSegment 11 rs = 3%nat
  /\ getCursorSegment 6 rs = 1%nat.
Proof.
  intros rs.
  assert (ascending rs) as Hasc by (simpl; lia).
  destruct (getCursorSegment_nearest_neighbour 3 rs Hasc) as [Hgap _].
  destruct (getCursorSegment_nearest_neighbour 11 rs Hasc) as [Hgap' _].
  destruct (getCursorSegment_nearest_neighbour 6 rs Hasc) as [_ Hedge].
  split; [|split].
  - apply (Hgap 0%nat (mkRange 0 2 []) (mkRange 4 6 []) eq_refl eq_refl);
      simpl; lia.
  - apply (Hgap' 2%nat (mkRange 6 8 []) (mkRange 13 15 []) eq_refl eq_refl);
      simpl; lia.
  - destruct (Hedge 2%nat (mkRange 6 8 []) eq_refl ltac:(by left))
      as (_ & k & rk & Hk & _).
    rewrite Hk. vm_compute in Hk. congruence.
Defined.

(** ** Arrays *)

Lemma array_some_true {A} (f : A -> nat -> bool) arr i :
  array_some f arr i = true <->
  exists j x, arr !! j = Some x /\ f x (i + j)%nat = true.
Proof.
  revert i. induction arr as [|a arr IH]; intros i; simpl.
  - split; [done|]. by intros (j & x & ? & _).
  - rewrite orb_true_iff, IH. split.
    + intros [Ha|(j & x & Hj & Hf)].
      * exists 0%nat, a. by rewrite Nat.add_0_r.
      * exists (S j), x. by rewrite Nat.add_succ_r.
    + intros ([|j] & x & Hj & Hf); simpl in Hj.
      * left. injection Hj as ->. by rewrite Nat.add_0_r in Hf.
      * right. exists j, x. by rewrite Nat.add_succ_r in Hf.
Qed.

Lemma array_every_true {A} (f : A -> nat -> bool) arr i :
  array_every f arr i = true <->
  forall j x, arr !! j = Some x -> f x (i + j)%nat = true.
Proof.
  revert i. induction arr as [|a arr IH]; intros i; simpl.
  - split; [|done]. by intros _ j x.
  - rewrite andb_true_iff, IH. split.
    + intros [Ha Hall] [|j] x Hj; simpl in Hj.
      * injection Hj as <-. by rewrite Nat.add_0_r.
      * rewrite Nat.add_succ_r. by apply Hall.
    + intros Hall. split.
      * specialize (Hall 0%nat a eq_refl). by rewrite Nat.add_0_r in Hall.
      * intros j x Hj. specialize (Hall (S j) x Hj).
        by rewrite Nat.add_succ_r in Hall.
Qed.

Lemma array_get_of_nat {A} (arr : list A) (i : nat) :
  array_get arr (Z.of_nat i) = arr !! i.
Proof.
  unfold array_get. destruct (Z.ltb_spec (Z.of_nat i) 0); [lia|].
  by rewrite Nat2Z.id.
Qed.

Lemma array_get_outside {A} (arr : list A) (i : Z) :
  i < 0 \/ Z.of_nat (length arr) <= i -> array_get arr i = None.
Proof.
  intros Hi. unfold array_get. destruct (Z.ltb_spec i 0); [done|].
  apply lookup_ge_None. lia.
Qed.

Lemma slot_get_fmap_Some (arr : list jsstring) (i : Z) :
  slot_get (Some <$> arr) i = array_get arr i.
Proof.
  unfold slot_get, array_get. destruct (i <? 0); [done|].
  rewrite list_lookup_fmap. by destruct (arr !! Z.to_nat i).
Qed.

(** Reading a values array after [arr[i] = v]. *)
Lemma slot_get_array_set_eq (arr : list slot) (i : nat) (v : slot) :
  slot_get (array_set i v arr) (Z.of_nat i) = v.
Proof.
  unfold slot_get. rewrite array_get_of_nat. unfold array_set.
  destruct (decide (i < length arr)%nat).
  - by rewrite list_lookup_insert_eq.
  - rewrite lookup_app_r by lia.
    rewrite lookup_app_r by (rewrite length_replicate; lia).
    rewrite length_replicate.
    by replace (i - length arr - (i - length arr))%nat with 0%nat by lia.
Qed.

Lemma slot_get_array_set_ne (arr : list slot) (i : nat) (v : slot) (j : Z) :
  j <> Z.of_nat i -> slot_get (array_set i v arr) j = slot_get arr j.
Proof.
  intros Hne. unfold slot_get, array_get. destruct (Z.ltb_spec j 0); [done|].
  unfold array_set. destruct (decide (i < length arr)%nat).
  - rewrite list_lookup_insert_ne by lia. done.
  - destruct (decide (Z.to_nat j < length arr)%nat).
    + by rewrite lookup_app_l.
    + rewrite lookup_app_r by lia.
      rewrite (lookup_ge_None_2 arr) by lia. simpl.
      destruct (decide (Z.to_nat j - length arr < i - length arr)%nat).
      * rewrite lookup_app_l by (rewrite length_replicate; lia).
        rewrite lookup_replicate_2 by lia. done.
      * rewrite lookup_app_r by (rewrite length_replicate; lia).
        rewrite length_replicate.
        destruct (Z.to_nat j - length arr - (i - length arr))%nat eqn:E; [lia|].
        done.
Qed.

(** ** The host element *)

(** [highlightSegment] changes the selection only, and only when the
    index names a range. *)
Lemma highlightSegment_frame (i : HTMLInputElement) (segmentIndex : Z)
    (segmentRanges : list range) :
  input_value (highlightSegment i segmentIndex segmentRanges) = input_value i
  /\ input_placeholder (highlightSegment i segmentIndex segmentRanges)
     = input_placeholder i
  /\ input_customValidity (highlightSegment i segmentIndex segmentRanges)
     = input_customValidity i
  /\ input_classList (highlightSegment i segmentIndex segmentRanges)
     = input_classList i
  /\ input_events (highlightSegment i segmentIndex segmentRanges) = input_events i.
Proof. unfold highlightSegment. by destruct (array_get _ _). Qed.

Lemma highlightSegment_selection (i : HTMLInputElement) (segmentIndex : Z)
    (segmentRanges : list range) :
  input_selection (highlightSegment i segmentIndex segmentRanges)
  = match array_get segmentRanges segmentIndex with
    | Some r => Some (start r, end_ r)
    | None => input_selection i
    end.
Proof. unfold highlightSegment. by destruct (array_get _ _). Qed.

(** ** The controller of [src/segmented-input.js] *)

Module SegmentedInputFacts.
Import SegmentedInput.

Ltac unfold_setters :=
  unfold with_input, set_activeSegment, set_segmentBuffer, setTimeout,
    set_value, set_placeholder, setCustomValidity, setSelectionRange,
    dispatchEvent in *.

Section Controller.
Context `{JSNumber} (opts : options).

(** The values that the methods read from the text are those that
    [getSegmentValue] returns. *)
Lemma parsedValues_get (s : state) (i : Z) :
  slot_get (parsedValues opts s) i = getSegmentValue opts i s.
Proof. apply slot_get_fmap_Some. Qed.

(** "Some segment still shows its placeholder". *)
Lemma hasPlaceholder_true (s : state) :
  array_some
    (fun p i => bool_decide (slot_get (parsedValues opts s) (Z.of_nat i) = Some p))
    (_placeholderValues opts) 0 = true
  <-> exists i p, _placeholderValues opts !! i = Some p
                  /\ getSegmentValue opts (Z.of_nat i) s = Some p.
Proof.
  rewrite array_some_true. split.
  - intros (j & p & Hj & Hp). exists j, p. split; [done|].
    apply bool_decide_eq_true in Hp. by rewrite <- parsedValues_get.
  - intros (j & p & Hj & Hp). exists j, p. split; [done|].
    apply bool_decide_eq_true. by rewrite parsedValues_get.
Qed.

(** "Every segment still shows its placeholder". *)
Lemma allPlaceholder_true (s : state) :
  array_every
    (fun p i => bool_decide (slot_get (parsedValues opts s) (Z.of_nat i) = Some p))
    (_placeholderValues opts) 0 = true
  <-> forall i p, _placeholderValues opts !! i = Some p ->
                  getSegmentValue opts (Z.of_nat i) s = Some p.
Proof.
  rewrite array_every_true. split.
  - intros Hall j p Hj. specialize (Hall j p Hj).
    apply bool_decide_eq_true in Hall. by rewrite <- parsedValues_get.
  - intros Hall j p Hj. apply bool_decide_eq_true.
    rewrite parsedValues_get. by apply Hall.
Qed.

(** [_updateValidity] writes the custom validity message and nothing
    else. *)
Lemma updateValidity_frame (s : state) :
  exists m, _updateValidity opts s = with_input (setCustomValidity m) s.
Proof.
  unfold _updateValidity. destruct (input_value (input s)); eauto.
Qed.

Lemma updateValidity_empty (s : state) :
  input_value (input s) = [] ->
  input_customValidity (input (_updateValidity opts s)) = [].
Proof. unfold _updateValidity. by intros ->. Qed.

Lemma updateValidity_nonempty (s : state) :
  input_value (input s) <> [] ->
  ((exists i p, _placeholderValues opts !! i = Some p
                /\ getSegmentValue opts (Z.of_nat i) s = Some p) ->
   input_customValidity (input (_updateValidity opts s)) = _invalidMessage opts)
  /\ (~ (exists i p, _placeholderValues opts !! i = Some p
                     /\ getSegmentValue opts (Z.of_nat i) s = Some p) ->
      input_customValidity (input (_updateValidity opts s)) = []).
Proof.
  intros Hne. unfold _updateValidity.
  destruct (input_value (input s)) as [|c text] eqn:E; [done|].
  rewrite <- hasPlaceholder_true.
  destruct (array_some _ _ _); simpl; split; done.
Qed.

(** C10. [getSegmentValue] does not clamp its index: for an index at or
    past the number of elements that [parse] returns, and for a negative
    index, it returns [undefined], whatever the text, while [focusSegment]
    given the same index makes the clamped segment the active one. *)
Theorem getSegmentValue_not_clamped (index : Z) (s : state) :
  (index < 0 \/ Z.of_nat (length (parse opts (input_value (input s)))) <= index ->
   getSegmentValue opts index s = None)
  /\ Z.of_nat (_activeSegment (focusSegment opts index s))
     = Z.max 0 (Z.min index (Z.of_nat (length (segments opts)) - 1)).
Proof.
  split.
  - apply array_get_outside.
  - unfold focusSegment. unfold_setters. simpl. lia.
Qed.

(** Inside the array [getSegmentValue] returns the element. *)
Lemma getSegmentValue_inside (index : nat) (s : state) :
  getSegmentValue opts (Z.of_nat index) s
  = parse opts (input_value (input s)) !! index.
Proof. apply array_get_of_nat. Qed.

(** [_updateValidity] looks at the text only, so a state it has been
    applied to is in sync with its text. *)
Lemma updateValidity_sync (s t : state) :
  input_value (input t) = input_value (input s) ->
  input_customValidity (input t) = input_customValidity (input (_updateValidity opts s)) ->
  _updateValidity opts t = t.
Proof.
  intros Htext Hmsg. unfold _updateValidity, parsedValues in *.
  rewrite Htext. destruct t as [[v p m sel cl ev] a b ts]. simpl in *.
  unfold_setters. simpl in *.
  destruct (input_value (input s)); simpl in *; by rewrite Hmsg.
Qed.

(** The blur handler of [src/segmented-input.js]. *)
Lemma onBlurOut_spec (s : state) :
  let s' := _onBlurOut opts s in
  ((input_value (input s) = []
    \/ (forall i p, _placeholderValues opts !! i = Some p ->
                    getSegmentValue opts (Z.of_nat i) s = Some p)) ->
   input_value (input s') = [] /\ _activeSegment s' = 0%nat
   /\ _segmentBuffer s' = []
   /\ input_customValidity (input s') = [])
  /\ ((exists i p, _placeholderValues opts !! i = Some p
                   /\ getSegmentValue opts (Z.of_nat i) s <> Some p) ->
      input_value (input s') = input_value (input s)
      /\ (input_value (input s) <> [] ->
          _activeSegment s' = _activeSegment s
          /\ _segmentBuffer s' = _segmentBuffer s))
  /\ _updateValidity opts s' = s'.
Proof.
  intros s'. unfold s', _onBlurOut.
  assert (_isPlaceholderState opts s = true <->
          (input_value (input s) = []
           \/ (forall i p, _placeholderValues opts !! i = Some p ->
                           getSegmentValue opts (Z.of_nat i) s = Some p)))
    as Hstate.
  { unfold _isPlaceholderState.
    destruct (input_value (input s)) as [|c text] eqn:E.
    - split; [by left|done].
    - rewrite allPlaceholder_true. split; [by right|]. by intros [?|?]. }
  destruct (_isPlaceholderState opts s) eqn:E.
  - split; [|split].
    + intros _. unfold _updateValidity. unfold_setters. simpl. done.
    + intros (i & p & Hi & Hp).
      destruct (proj1 Hstate eq_refl) as [Hempty|Hall].
      * split; [by rewrite Hempty|done].
      * destruct (Hp (Hall i p Hi)).
    + unfold _updateValidity. unfold_setters. simpl. done.
  - split; [|split].
    + intros Hyes. apply Hstate in Hyes. done.
    + intros _. destruct (updateValidity_frame s) as [m ->].
      unfold_setters. simpl. done.
    + apply (updateValidity_sync s); [|done].
      destruct (updateValidity_frame s) as [m ->]. unfold_setters. simpl. done.
Qed.

(** Focusing an empty field shows the placeholder text; when that text
    parses back to the placeholder values, blurring without typing gives
    the empty field back. *)
Lemma focus_then_blur_empty (s : state) :
  input_value (input s) = [] ->
  parse opts (_formattedPlaceholder opts) = _placeholderValues opts ->
  input_value (input (_onFocusIn opts s)) = _formattedPlaceholder opts
  /\ input_value (input (_onBlurOut opts (_onFocusIn opts s))) = [].
Proof.
  intros Hempty Hrt.
  assert (input_value (input (_onFocusIn opts s)) = _formattedPlaceholder opts)
    as Hshown.
  { unfold _onFocusIn. rewrite Hempty.
    destruct (updateValidity_frame
                (with_input (set_value (_formattedPlaceholder opts)) s)) as [m ->].
    done. }
  split; [done|].
  destruct (onBlurOut_spec (_onFocusIn opts s)) as (Hclear & _).
  apply Hclear. right. intros i p Hp.
  unfold getSegmentValue. rewrite Hshown, Hrt. by rewrite array_get_of_nat.
Qed.



(** The printable keys go to [_handleSegmentInput], and the browser's own
    insertion of the character is prevented. *)
Lemma onKeydown_printable (event : keyboard_event) (s : state) :
  length (key event) = 1%nat -> ctrlKey event = false -> metaKey event = false ->
  _onKeydown opts event s = (true, _handleSegmentInput opts (key event) s).
Proof. unfold _onKeydown. by intros -> -> ->. Qed.

Lemma focusSegment_fields (index : Z) (s : state) :
  let s' := focusSegment opts index s in
  input_value (input s') = input_value (input s)
  /\ input_customValidity (input s') = input_customValidity (input s)
  /\ input_events (input s') = input_events (input s)
  /\ _segmentBuffer s' = []
  /\ _activeSegment s'
     = Z.to_nat (Z.max 0 (Z.min index (Z.of_nat (length (segments opts)) - 1))).
Proof.
  unfold focusSegment, highlightSegment. unfold_setters. simpl.
  destruct (array_get _ _); done.
Qed.

(** [_advanceSegment] moves to the next segment when there is one and
    stays on the last one otherwise; either way it empties the buffer and
    leaves text, validity and dispatched events as they are. *)
Lemma advanceSegment_fields (s : state) :
  let s' := _advanceSegment opts s in
  input_value (input s') = input_value (input s)
  /\ input_customValidity (input s') = input_customValidity (input s)
  /\ input_events (input s') = input_events (input s)
  /\ _segmentBuffer s' = []
  /\ _activeSegment s'
     = if (S (_activeSegment s) <? length (segments opts))%nat
       then S (_activeSegment s) else _activeSegment s.
Proof.
  unfold _advanceSegment.
  destruct (Z.ltb_spec (Z.of_nat (_activeSegment s))
                       (Z.of_nat (length (segments opts)) - 1)) as [Hlt|Hge].
  - destruct (focusSegment_fields (Z.of_nat (_activeSegment s) + 1) s)
      as (-> & -> & -> & -> & ->).
    destruct (Nat.ltb_spec (S (_activeSegment s)) (length (segments opts))); [|lia].
    repeat split; lia.
  - unfold highlightSegment. unfold_setters. simpl.
    destruct (Nat.ltb_spec (S (_activeSegment s)) (length (segments opts))); [lia|].
    destruct (array_get _ _); done.
Qed.


Lemma onKeydown_backspace (c m sh : bool) (s : state) :
  _onKeydown opts (mkKey (str "Backspace") c m sh) s
  = let placeholder := _placeholderValues opts !! _activeSegment s in
    let s1 := set_segmentBuffer [] s in
    let values := array_set (_activeSegment s1) placeholder (parsedValues opts s1) in
    let s2 := with_input (set_value (format opts values)) s1 in
    let s3 := _dispatch (str "input") s2 in
    let s4 := _updateValidity opts s3 in
    (true,
     with_input
       (fun i => highlightSegment i (Z.of_nat (_activeSegment s4))
                                  (getSegmentRanges opts s4)) s4).
Proof. reflexivity. Qed.

(** C7.  Backspace writes into the slot of the active segment that
    segment's placeholder string and leaves every other slot of the values
    array as it was read from the text; the text becomes the format of that
    array.  The keystroke buffer is emptied and the active segment index
    is unchanged.  One [input] event is dispatched, the custom validity is
    the one that belongs to the new text, and the selection is set to the
    range of the active segment in the new text.  When the new values
    survive the round trip through [format] and [parse], the values read
    back from the new text are the placeholder in the active segment and
    the old values in every other segment. *)
Theorem backspace_resets_active_segment (c m sh : bool) (s : state) :
  let event := mkKey (str "Backspace") c m sh in
  let active := _activeSegment s in
  let values :=
    array_set active (_placeholderValues opts !! active) (parsedValues opts s) in
  let s' := (_onKeydown opts event s).2 in
  (_onKeydown opts event s).1 = true
  /\ input_value (input s') = format opts values
  /\ (forall seg, segments opts !! active = Some seg ->
        slot_get values (Z.of_nat active) = Some (placeholderOf seg))
  /\ (forall j, j <> Z.of_nat active ->
        slot_get values j = getSegmentValue opts j s)
  /\ _segmentBuffer s' = []
  /\ _activeSegment s' = active
  /\ input_events (input s') = input_events (input s) ++ [str "input"]
  /\ _updateValidity opts s' = s'
  /\ input_selection (input s')
     = match getSegmentRanges opts s' !! active with
       | Some r => Some (start r, end_ r)
       | None => input_selection (input s)
       end
  /\ (Some <$> parse opts (format opts values) = values ->
      (forall seg, segments opts !! active = Some seg ->
         getSegmentValue opts (Z.of_nat active) s' = Some (placeholderOf seg))
      /\ (forall j, j <> Z.of_nat active ->
            getSegmentValue opts j s' = getSegmentValue opts j s)).
Proof.
  intros event active values s'.
  unfold s', event. rewrite onKeydown_backspace. cbv zeta.
  change (_activeSegment (set_segmentBuffer [] s)) with (_activeSegment s).
  change (parsedValues opts (set_segmentBuffer [] s)) with (parsedValues opts s).
  change (_activeSegment s) with active. fold values.
  set (s2 := with_input (set_value (format opts values)) (set_segmentBuffer [] s)).
  set (s3 := _dispatch (str "input") s2).
  destruct (updateValidity_frame s3) as [msg Hs4].
  assert (forall seg, segments opts !! active = Some seg ->
            slot_get values (Z.of_nat active) = Some (placeholderOf seg)) as Hslot.
  { intros seg Hseg. unfold values. rewrite slot_get_array_set_eq.
    unfold _placeholderValues. by rewrite list_lookup_fmap, Hseg. }
  assert (forall j, j <> Z.of_nat active ->
            slot_get values j = getSegmentValue opts j s) as Hother.
  { intros j Hj. unfold values. rewrite slot_get_array_set_ne by done.
    apply parsedValues_get. }
  rewrite Hs4. cbn [fst snd].
  set (s4 := with_input (setCustomValidity msg) s3) in *.
  set (s5 := with_input _ s4).
  assert (input s5 = highlightSegment (input s4) (Z.of_nat active)
                                        (getSegmentRanges opts s4)) as Hs5 by done.
  destruct (highlightSegment_frame (input s4) (Z.of_nat active)
              (getSegmentRanges opts s4)) as (Hv & _ & Hm & _ & He).
  assert (input_value (input s5) = format opts values) as Htext.
  { by rewrite Hs5, Hv. }
  assert (getSegmentRanges opts s5 = getSegmentRanges opts s4) as Hranges.
  { unfold getSegmentRanges. by rewrite Hs5, Hv. }
  split; [done|]. split; [done|]. split; [done|]. split; [done|].
  split; [done|]. split; [done|].
  split; [by rewrite Hs5, He|].
  split.
  { apply (updateValidity_sync s3).
    - by rewrite Htext.
    - by rewrite Hs4, Hs5, Hm. }
  split.
  { rewrite Hranges, Hs5, highlightSegment_selection, array_get_of_nat. done. }
  intros Hrt.
  assert (forall j, getSegmentValue opts j s5 = slot_get values j) as Hread.
  { intros j. unfold getSegmentValue. rewrite <- slot_get_fmap_Some.
    by rewrite Htext, Hrt. }
  split.
  - intros seg Hseg. rewrite Hread. by apply Hslot.
  - intros j Hj. rewrite Hread. by apply Hother.
Qed.

End Controller.

(** C4.  The code takes a segment whose fractional step is printed with
    an exponent for an integer segment.  [String(1e-7)] is ["1e-7"], in
    which [_isDecimalSegment] finds no point and [decimalPlaces] no
    decimals.  So with [max] 1 and [step] 1e-7 the first character typed,
    ["0"], already triggers the advance, because one character is as long
    as [floor(max)] printed in the radix; the rule for a decimal segment
    asks for the nine characters of [(1).toFixed(7)], ["1.0000000"]. *)
Theorem shouldAutoAdvance_exponent_step :
  let step : @number Decimal.decimal_number := Decimal.Dec 1 7 in
  let max : @number Decimal.decimal_number := Decimal.Dec 1 0 in
  let seg := Presets.numeric "0" "a" (Some 0) (Some 1) step None None in
  let buffer := str "0" in
  seg_maxLength seg = None /\ seg_max seg = Some max /\ seg_step seg = Some step
  /\ num_gt step (of_Z 0) = true /\ num_lt step (of_Z 1) = true
  /\ toString step = str "1e-7"
  /\ _isDecimalSegment seg = false
  /\ decimalPlaces (String_ (seg_step seg)) = 0%nat
  /\ toFixed max 7 = str "1.0000000"
  /\ (length buffer < length (toFixed max 7))%nat
  /\ _shouldAutoAdvance seg buffer (Decimal.Dec 10 0) = true.
Proof.
  intros step max seg buffer.
  repeat split; try reflexivity. vm_compute. lia.
Qed.

Lemma getSegmentValue_not_clamped_witness :
  getSegmentValue Presets.ipv4 7 (Presets.editing "1.2.3.4" 0 "") = None
  /\ getSegmentValue Presets.ipv4 (-1) (Presets.editing "1.2.3.4" 0 "") = None.
Proof.
  split.
  - apply (getSegmentValue_not_clamped Presets.ipv4 7 (Presets.editing "1.2.3.4" 0 "")).
    right. vm_compute. discriminate.
  - apply (getSegmentValue_not_clamped Presets.ipv4 (-1) (Presets.editing "1.2.3.4" 0 "")).
    left. lia.
Defined.

Lemma backspace_resets_active_segment_witness :
  let s := Presets.editing "12:34:56" 1 "3" in
  let s' := (_onKeydown Presets.duration (mkKey (str "Backspace") false false false) s).2 in
  getSegmentValue Presets.duration 1 s' = Some (str "mm")
  /\ getSegmentValue Presets.duration 0 s' = Some (str "12")
  /\ getSegmentValue Presets.duration 2 s' = Some (str "56").
Proof.
  intros s s'.
  destruct (backspace_resets_active_segment Presets.duration false false false s)
    as (_ & _ & _ & _ & _ & _ & _ & _ & _ & Hrt).
  destruct (Hrt eq_refl) as (Hactive & Hothers).
  unfold s'. split; [|split].
  - apply (Hactive (Presets.numeric "00" "mm" (Some 0) (Some 59) (Decimal.Dec 1 0)
                                      (Some Presets.digit_pattern) None) eq_refl).
  - rewrite (Hothers 0 ltac:(discriminate)). reflexivity.
  - rewrite (Hothers 2 ltac:(discriminate)). reflexivity.
Defined.



End SegmentedInputFacts.

(** ** The revision with action and enumerated segments *)

Lemma array_indexOf_from_Some (arr : list jsstring) (v : jsstring) (i k : nat) :
  array_indexOf_from arr v i = Some k ->
  (i <= k)%nat /\ arr !! (k - i)%nat = Some v
  /\ forall j, (j < k - i)%nat -> arr !! j <> Some v.
Proof.
  revert i. induction arr as [|x arr IH]; intros i; simpl; [done|].
  unfold jsstring_eqb. case_bool_decide as Hx.
  - intros [= <-]. rewrite Nat.sub_diag. subst x. split; [lia|]. split; [done|].
    intros j Hj. lia.
  - intros Hk. apply IH in Hk as (Hle & Hv & Hfirst).
    replace (k - i)%nat with (S (k - S i)) by lia.
    split; [lia|]. split; [done|].
    intros [|j] Hj; simpl; [congruence|]. apply Hfirst. lia.
Qed.

Lemma array_indexOf_from_None (arr : list jsstring) (v : jsstring) (i : nat) :
  array_indexOf_from arr v i = None -> v ∉ arr.
Proof.
  revert i. induction arr as [|x arr IH]; intros i; simpl.
  - intros _. apply not_elem_of_nil.
  - unfold jsstring_eqb. case_bool_decide as Hx; [done|].
    intros Hn. apply not_elem_of_cons. split; [congruence|]. by eapply IH.
Qed.

(** In a list without repetition [indexOf] finds each element where it
    stands. *)
Lemma array_indexOf_NoDup (arr : list jsstring) (v : jsstring) (i : nat) :
  NoDup arr -> arr !! i = Some v -> array_indexOf arr (Some v) = Some i.
Proof.
  intros Hnd Hi. simpl.
  destruct (array_indexOf_from arr v 0) as [k|] eqn:E.
  - apply array_indexOf_from_Some in E as (_ & Hk & _).
    rewrite Nat.sub_0_r in Hk. f_equal. by eapply NoDup_lookup.
  - apply array_indexOf_from_None in E. destruct E.
    by eapply list_elem_of_lookup_2.
Qed.

Lemma array_indexOf_bound (arr : list jsstring) (v : slot) :
  arr <> [] -> (from_option id 0%nat (array_indexOf arr v) < length arr)%nat.
Proof.
  intros Hne. destruct v as [x|]; simpl.
  - destruct (array_indexOf_from arr x 0) as [k|] eqn:E; simpl.
    + apply array_indexOf_from_Some in E as (_ & Hk & _).
      rewrite Nat.sub_0_r in Hk. by eapply lookup_lt_Some.
    + destruct arr; [done|]. simpl. lia.
  - destruct arr; [done|]. simpl. lia.
Qed.

Module GuardedInputFacts.
Import GuardedInput.

Ltac unfold_guarded_setters :=
  unfold with_input, set_activeSegment, set_segmentBuffer, emit,
    set_value, set_placeholder, setCustomValidity, setSelectionRange,
    dispatchEvent, classList_add, classList_remove in *.

Section Controller.
Context `{JSNumber} (opts : options).

(** "Some segment that is not an action segment still shows its
    placeholder". *)
Lemma guarded_hasPlaceholder_true (s : state) :
  array_some
    (fun p i =>
       negb (isActionSegment (segments opts !! i))
       && bool_decide (slot_get (currentValues opts s) (Z.of_nat i) = Some p))
    (placeholderValues opts) 0 = true
  <-> exists i p, placeholderValues opts !! i = Some p
                  /\ isActionSegment (segments opts !! i) = false
                  /\ getSegmentValue opts (Z.of_nat i) s = Some p.
Proof.
  rewrite array_some_true. unfold getSegmentValue. split.
  - intros (j & p & Hj & Hp). exists j, p. split; [done|].
    apply andb_true_iff in Hp as [Ha Hp]. apply bool_decide_eq_true in Hp.
    split; [by apply negb_true_iff|done].
  - intros (j & p & Hj & Ha & Hp). exists j, p. split; [done|].
    simpl. rewrite Ha. simpl. by apply bool_decide_eq_true.
Qed.

Lemma guarded_updateValidity_frame (s : state) :
  exists m, updateValidity opts s = with_input (setCustomValidity m) s.
Proof.
  unfold updateValidity. destruct (input_value (input s)); eauto.
Qed.

Lemma guarded_updateValidity_empty (s : state) :
  input_value (input s) = [] ->
  input_customValidity (input (updateValidity opts s)) = [].
Proof. unfold updateValidity. by intros ->. Qed.

Lemma guarded_updateValidity_nonempty (s : state) :
  input_value (input s) <> [] ->
  ((exists i p, placeholderValues opts !! i = Some p
                /\ isActionSegment (segments opts !! i) = false
                /\ getSegmentValue opts (Z.of_nat i) s = Some p) ->
   input_customValidity (input (updateValidity opts s)) = invalidMessage_ opts)
  /\ (~ (exists i p, placeholderValues opts !! i = Some p
                     /\ isActionSegment (segments opts !! i) = false
                     /\ getSegmentValue opts (Z.of_nat i) s = Some p) ->
      input_customValidity (input (updateValidity opts s)) = []).
Proof.
  intros Hne. unfold updateValidity.
  destruct (input_value (input s)) as [|c text] eqn:E; [done|].
  rewrite <- guarded_hasPlaceholder_true.
  destruct (array_some _ _ _); simpl; split; done.
Qed.

(** Focusing a segment that is not an action segment makes it the active
    one and empties the buffer; text and validity stay. *)
Lemma focusSegment_editable (index : nat) (seg : segment) (s : state) :
  segments opts !! index = Some seg ->
  isActionSegment (Some seg) = false ->
  let s' := focusSegment opts (Z.of_nat index) s in
  input_value (input s') = input_value (input s)
  /\ input_customValidity (input s') = input_customValidity (input s)
  /\ input_events (input s') = input_events (input s)
  /\ activeSegment s' = index /\ segmentBuffer s' = [].
Proof.
  intros Hseg Haction s'. unfold s', focusSegment.
  assert (index < length (segments opts))%nat as Hlt by (by eapply lookup_lt_Some).
  replace (Z.to_nat (Z.max 0 (Z.min (Z.of_nat index)
                                    (Z.of_nat (length (segments opts)) - 1))))
    with index by lia.
  rewrite Hseg, Haction. cbn [andb]. cbv beta iota zeta.
  rewrite Hseg, Haction. cbn [andb].
  unfold highlightSegment.
  destruct (array_get _ _); destruct (bool_decide (index <> activeSegment s));
    unfold_guarded_setters; simpl; done.
Qed.

(** The enumerated branch of [#adjustSegment]: the option that follows,
    or precedes, the position that [indexOf] reports for the current
    value (position 0 when it reports none) is written into the slot of
    the segment, the text is reformatted and the segment is focused. *)
Lemma adjustSegment_options (index : nat) (direction : Z) (s : state)
    (seg : segment) (choices : list jsstring) :
  segments opts !! index = Some seg ->
  isActionSegment (Some seg) = false ->
  seg_type seg <> Some (str "text") ->
  seg_options seg = Some choices ->
  choices <> [] ->
  direction = 1 \/ direction = -1 ->
  let s0 := showPlaceholder opts s in
  let k := length choices in
  let pos := from_option id 0%nat
               (array_indexOf choices (getSegmentValue opts (Z.of_nat index) s0)) in
  let picked := choices !! Z.to_nat ((Z.of_nat pos + direction + Z.of_nat k)
                                     `mod` Z.of_nat k) in
  let s' := adjustSegment opts index direction s in
  input_value (input s')
  = formatGuarded opts (array_set index picked (currentValues opts s0))
  /\ activeSegment s' = index /\ segmentBuffer s' = [].
Proof.
  intros Hseg Haction Htext Hoptions Hne Hdir s0 k pos picked s'.
  unfold s', adjustSegment. rewrite Hseg, Haction.
  rewrite bool_decide_eq_false_2 by done. rewrite Hoptions.
  fold s0. fold (getSegmentValue opts (Z.of_nat index) s0). fold pos.
  assert (0 < k)%nat as Hk by (unfold k; destruct choices; [done|simpl; lia]).
  assert (pos < k)%nat as Hpos by (by apply array_indexOf_bound).
  assert (forall (A : Type) (a b : A),
            match length choices with O => a | S _ => b end = b) as Hmatch.
  { intros A a b. fold k. by destruct k; [lia|]. }
  rewrite Hmatch. fold k.
  assert (array_get choices
            (Z.rem (Z.of_nat pos + direction + Z.of_nat k) (Z.of_nat k)) = picked)
    as ->.
  { rewrite Z.rem_mod_nonneg by lia. unfold array_get, picked.
    destruct (Z.ltb_spec ((Z.of_nat pos + direction + Z.of_nat k) `mod` Z.of_nat k) 0);
      [|done].
    pose proof (Z.mod_pos_bound (Z.of_nat pos + direction + Z.of_nat k)
                                (Z.of_nat k) ltac:(lia)). lia. }
  set (s1 := with_input _ s0).
  destruct (focusSegment_editable index seg s1 Hseg Haction)
    as (Hv & Hm & He & Ha & Hb).
  set (s2 := focusSegment opts (Z.of_nat index) s1) in *.
  destruct (guarded_updateValidity_frame (dispatch (str "change") (dispatch (str "input") s2)))
    as [m ->].
  unfold_guarded_setters. simpl. rewrite Hv, Ha, Hb. done.
Qed.

Lemma mod_succ_pred (i k : nat) :
  (i < k)%nat -> (((i + 1) mod k + k - 1) mod k = i)%nat.
Proof.
  intros Hi. destruct (decide (i + 1 = k)%nat) as [<-|Hne].
  - rewrite Nat.Div0.mod_same. simpl.
    replace (i + 1 - 1)%nat with i by lia. apply Nat.mod_small. lia.
  - rewrite (Nat.mod_small (i + 1)) by lia.
    replace (i + 1 + k - 1)%nat with (i + 1 * k)%nat by lia.
    rewrite Nat.Div0.mod_add. apply Nat.mod_small. lia.
Qed.

Lemma next_index (pos k : nat) :
  (0 < k)%nat ->
  Z.to_nat ((Z.of_nat pos + 1 + Z.of_nat k) `mod` Z.of_nat k) = ((pos + 1) mod k)%nat.
Proof.
  intros Hk.
  replace (Z.of_nat pos + 1 + Z.of_nat k) with (Z.of_nat (pos + 1) + 1 * Z.of_nat k)
    by lia.
  rewrite Z.mod_add by lia. rewrite <- Nat2Z.inj_mod. apply Nat2Z.id.
Qed.

Lemma prev_index (pos k : nat) :
  (0 < k)%nat -> (pos < k)%nat ->
  Z.to_nat ((Z.of_nat pos + -1 + Z.of_nat k) `mod` Z.of_nat k)
  = ((pos + k - 1) mod k)%nat.
Proof.
  intros Hk Hpos.
  replace (Z.of_nat pos + -1 + Z.of_nat k) with (Z.of_nat (pos + k - 1)) by lia.
  rewrite <- Nat2Z.inj_mod. apply Nat2Z.id.
Qed.

(** Values that survive the write are read back from the text. *)
Lemma survives_read_back (t : state) (vs : list slot) :
  input_value (input t) = formatGuarded opts vs ->
  survives opts vs ->
  showPlaceholder opts t = t /\ currentValues opts t = vs.
Proof.
  intros Htext [Hne Hrt]. split.
  - unfold showPlaceholder. rewrite Htext.
    by destruct (formatGuarded opts vs).
  - unfold currentValues. by rewrite Htext.
Qed.

(** C9, as the code has it.  Take a segment that is neither an action
    segment nor a text segment and that lists [k] pairwise distinct
    options, and let its current value (read from the text, or from the
    placeholder text when the field is empty) be the option at position
    [i].  Then increment writes the option at position [(i+1) mod k] into
    the segment's slot and decrement the option at position
    [(i-1+k) mod k], and both reformat the text.  When the written values
    survive the round trip through format and parse, the segment reads
    back as that option, and increment followed by decrement reads back
    as the original option.  A current value that is not in the list
    counts as position 0. *)
Theorem options_cycle (s : state) (seg : segment) (choices : list jsstring) :
  let index := activeSegment s in
  segments opts !! index = Some seg ->
  isActionSegment (Some seg) = false ->
  seg_type seg <> Some (str "text") ->
  seg_options seg = Some choices ->
  NoDup choices ->
  let s0 := showPlaceholder opts s in
  let k := length choices in
  let values := currentValues opts s0 in
  (forall i current,
      choices !! i = Some current ->
      getSegmentValue opts (Z.of_nat index) s0 = Some current ->
      let next := choices !! ((i + 1) mod k)%nat in
      let prev := choices !! ((i + k - 1) mod k)%nat in
      is_Some next /\ is_Some prev
      /\ input_value (input (increment opts s))
         = formatGuarded opts (array_set index next values)
      /\ input_value (input (decrement opts s))
         = formatGuarded opts (array_set index prev values)
      /\ (survives opts (array_set index next values) ->
          getSegmentValue opts (Z.of_nat index) (increment opts s) = next
          /\ (survives opts (array_set index (Some current)
                                       (array_set index next values)) ->
              getSegmentValue opts (Z.of_nat index)
                              (decrement opts (increment opts s))
              = Some current))
      /\ (survives opts (array_set index prev values) ->
          getSegmentValue opts (Z.of_nat index) (decrement opts s) = prev))
  /\ (choices <> [] ->
      (forall x, getSegmentValue opts (Z.of_nat index) s0 = Some x -> x ∉ choices) ->
      input_value (input (increment opts s))
      = formatGuarded opts (array_set index (choices !! (1 mod k)%nat) values)
      /\ input_value (input (decrement opts s))
         = formatGuarded opts (array_set index (choices !! ((k - 1) mod k)%nat) values)).
Proof.
  intros index Hseg Haction Htext Hoptions Hnd s0 k values. split.
  - intros i current Hi Hcur next prev.
    assert (i < k)%nat as Hik by (by eapply lookup_lt_Some).
    assert (choices <> []) as Hne.
    { intros Hnil. unfold k in Hik. rewrite Hnil in Hik. simpl in Hik. lia. }
    assert (from_option id 0%nat
              (array_indexOf choices (getSegmentValue opts (Z.of_nat index) s0)) = i)
      as Hpos.
    { rewrite Hcur. by rewrite (array_indexOf_NoDup choices current i). }
    destruct (adjustSegment_options index 1 s seg choices
                Hseg Haction Htext Hoptions Hne ltac:(by left)) as (Hup & Hupa & _).
    destruct (adjustSegment_options index (-1) s seg choices
                Hseg Haction Htext Hoptions Hne ltac:(by right)) as (Hdown & _ & _).
    fold s0 in Hup, Hdown. rewrite Hpos in Hup, Hdown.
    rewrite next_index in Hup by lia. rewrite prev_index in Hdown by lia.
    fold k values next in Hup. fold k values prev in Hdown.
    change (adjustSegment opts index 1 s) with (increment opts s) in Hup, Hupa.
    change (adjustSegment opts index (-1) s) with (decrement opts s) in Hdown.
    assert (is_Some next) as Hnext.
    { apply lookup_lt_is_Some_2. apply Nat.mod_upper_bound. lia. }
    assert (is_Some prev) as Hprev.
    { apply lookup_lt_is_Some_2. apply Nat.mod_upper_bound. lia. }
    split; [done|]. split; [done|]. split; [done|]. split; [done|]. split.
    + intros Hsurv.
      destruct (survives_read_back _ _ Hup Hsurv) as (Hshow & Hvals).
      assert (getSegmentValue opts (Z.of_nat index) (increment opts s) = next)
        as Hread.
      { unfold getSegmentValue. rewrite Hvals. apply slot_get_array_set_eq. }
      split; [done|]. intros Hsurv'.
      destruct Hnext as [o Ho].
      assert (from_option id 0%nat
                (array_indexOf choices
                   (getSegmentValue opts (Z.of_nat index)
                      (showPlaceholder opts (increment opts s))))
              = ((i + 1) mod k)%nat) as Hpos'.
      { rewrite Hshow, Hread. fold next in Ho. rewrite Ho.
        by rewrite (array_indexOf_NoDup choices o ((i + 1) mod k)%nat). }
      assert (segments opts !! activeSegment (increment opts s) = Some seg)
        as Hseg' by (by rewrite Hupa).
      destruct (adjustSegment_options (activeSegment (increment opts s)) (-1)
                  (increment opts s) seg choices
                  Hseg' Haction Htext Hoptions Hne ltac:(by right))
        as (Hback & _ & _).
      change (adjustSegment opts (activeSegment (increment opts s)) (-1)
                             (increment opts s))
        with (decrement opts (increment opts s)) in Hback.
      rewrite Hupa in Hback. rewrite Hpos' in Hback.
      rewrite prev_index in Hback by (try apply Nat.mod_upper_bound; lia).
      rewrite mod_succ_pred in Hback by done.
      rewrite Hshow, Hvals, Hi in Hback.
      destruct (survives_read_back _ _ Hback Hsurv') as (_ & Hvals').
      unfold getSegmentValue. rewrite Hvals'. apply slot_get_array_set_eq.
    + intros Hsurv.
      destruct (survives_read_back _ _ Hdown Hsurv) as (_ & Hvals).
      unfold getSegmentValue. rewrite Hvals. apply slot_get_array_set_eq.
  - intros Hne Hnot.
    assert (0 < k)%nat as Hk by (unfold k; destruct choices; [done|simpl; lia]).
    assert (from_option id 0%nat
              (array_indexOf choices (getSegmentValue opts (Z.of_nat index) s0))
            = 0%nat) as Hpos.
    { destruct (getSegmentValue opts (Z.of_nat index) s0) as [x|] eqn:Ex; [|done].
      simpl. destruct (array_indexOf_from choices x 0) as [j|] eqn:Ej; [|done].
      apply array_indexOf_from_Some in Ej as (_ & Hj & _).
      destruct (Hnot x eq_refl). by eapply list_elem_of_lookup_2. }
    destruct (adjustSegment_options index 1 s seg choices
                Hseg Haction Htext Hoptions Hne ltac:(by left)) as (Hup & _ & _).
    destruct (adjustSegment_options index (-1) s seg choices
                Hseg Haction Htext Hoptions Hne ltac:(by right)) as (Hdown & _ & _).
    fold s0 in Hup, Hdown. rewrite Hpos in Hup, Hdown.
    rewrite next_index in Hup by lia. rewrite prev_index in Hdown by lia.
    split; [exact Hup|exact Hdown].
Qed.

Lemma guarded_updateValidity_sync (s t : state) :
  input_value (input t) = input_value (input s) ->
  input_customValidity (input t)
  = input_customValidity (input (updateValidity opts s)) ->
  updateValidity opts t = t.
Proof.
  intros Htext Hmsg. unfold updateValidity, currentValues in *.
  rewrite Htext. destruct t as [[v p m sel cl ev] a b j em]. simpl in *.
  unfold_guarded_setters. simpl in *.
  destruct (input_value (input s)); simpl in *; by rewrite Hmsg.
Qed.

(** "Every segment that is not an action segment still shows its
    placeholder". *)
Lemma guarded_allPlaceholder_true (s : state) :
  array_every
    (fun p i =>
       if isActionSegment (segments opts !! i) then true
       else bool_decide (slot_get (currentValues opts s) (Z.of_nat i) = Some p))
    (placeholderValues opts) 0 = true
  <-> forall i p, placeholderValues opts !! i = Some p ->
                  isActionSegment (segments opts !! i) = false ->
                  getSegmentValue opts (Z.of_nat i) s = Some p.
Proof.
  rewrite array_every_true. unfold getSegmentValue. split.
  - intros Hall j p Hj Ha. specialize (Hall j p Hj). simpl in Hall.
    rewrite Ha in Hall. by apply bool_decide_eq_true in Hall.
  - intros Hall j p Hj. simpl.
    destruct (isActionSegment (segments opts !! j)) eqn:Ha; [done|].
    apply bool_decide_eq_true. by apply Hall.
Qed.

(** The blur handler of the revision with action segments. *)
Lemma guarded_onBlurOut_spec (s : state) :
  let s' := onBlurOut opts s in
  ((input_value (input s) = []
    \/ (forall i p, placeholderValues opts !! i = Some p ->
                    isActionSegment (segments opts !! i) = false ->
                    getSegmentValue opts (Z.of_nat i) s = Some p)) ->
   input_value (input s') = [] /\ activeSegment s' = 0%nat
   /\ segmentBuffer s' = []
   /\ input_customValidity (input s') = [])
  /\ ((exists i p, placeholderValues opts !! i = Some p
                   /\ isActionSegment (segments opts !! i) = false
                   /\ getSegmentValue opts (Z.of_nat i) s <> Some p) ->
      input_value (input s') = input_value (input s)
      /\ (input_value (input s) <> [] ->
          activeSegment s' = activeSegment s
          /\ segmentBuffer s' = segmentBuffer s))
  /\ updateValidity opts s' = s'.
Proof.
  intros s'. unfold s', onBlurOut.
  set (s1 := if (0 <? length (segments opts))%nat
             then emit (segmentblur (activeSegment (with_input _ s))) (with_input _ s)
             else with_input _ s).
  assert (input_value (input s1) = input_value (input s)
          /\ activeSegment s1 = activeSegment s
          /\ segmentBuffer s1 = segmentBuffer s) as (Hv1 & Ha1 & Hb1).
  { unfold s1. by destruct (0 <? length (segments opts))%nat. }
  assert (currentValues opts s1 = currentValues opts s) as Hvals.
  { unfold currentValues. by rewrite Hv1. }
  assert (isPlaceholderState opts s1 = true <->
          (input_value (input s) = []
           \/ (forall i p, placeholderValues opts !! i = Some p ->
                           isActionSegment (segments opts !! i) = false ->
                           getSegmentValue opts (Z.of_nat i) s = Some p)))
    as Hstate.
  { unfold isPlaceholderState. rewrite Hv1, Hvals.
    destruct (input_value (input s)) as [|c text] eqn:E.
    - split; [by left|done].
    - rewrite guarded_allPlaceholder_true. split; [by right|]. by intros [?|?]. }
  destruct (isPlaceholderState opts s1) eqn:E.
  - split; [|split].
    + intros _. unfold updateValidity. unfold_guarded_setters. simpl. done.
    + intros (i & p & Hi & Ha & Hp).
      destruct (proj1 Hstate eq_refl) as [Hempty|Hall].
      * split; [by rewrite Hempty|done].
      * destruct (Hp (Hall i p Hi Ha)).
    + unfold updateValidity. unfold_guarded_setters. simpl. done.
  - split; [|split].
    + intros Hyes. apply Hstate in Hyes. done.
    + intros _. destruct (guarded_updateValidity_frame s1) as [m ->].
      rewrite <- Hv1, <- Ha1, <- Hb1. done.
    + apply (guarded_updateValidity_sync s1); [|done].
      by destruct (guarded_updateValidity_frame s1) as [m ->].
Qed.

End Controller.

Lemma options_cycle_witness :
  let opts := Presets.expression ["+"; "-"; "*"; "/"]%string in
  getSegmentValue opts 1 (decrement opts (Presets.guarded "1 + 2" 1)) = Some (str "/")
  /\ getSegmentValue opts 1 (increment opts (Presets.guarded "1 / 2" 1)) = Some (str "+")
  /\ getSegmentValue opts 1 (decrement opts (increment opts (Presets.guarded "1 / 2" 1)))
     = Some (str "/")
  /\ input_value (input (increment opts (Presets.guarded "1 ? 2" 1))) = str "1 - 2".
Proof.
  intros opts.
  pose (operator := Presets.enumerated None ["+"; "-"; "*"; "/"]%string).
  assert (NoDup (map str ["+"; "-"; "*"; "/"]%string)) as Hnd.
  { apply (bool_decide_unpack _). by vm_compute. }
  destruct (options_cycle opts (Presets.guarded "1 + 2" 1) operator
              (map str ["+"; "-"; "*"; "/"]%string)
              eq_refl eq_refl ltac:(discriminate) eq_refl Hnd) as (Hplus & _).
  destruct (Hplus 0%nat (str "+") eq_refl eq_refl) as (_ & _ & _ & _ & _ & Hdown).
  destruct (options_cycle opts (Presets.guarded "1 / 2" 1) operator
              (map str ["+"; "-"; "*"; "/"]%string)
              eq_refl eq_refl ltac:(discriminate) eq_refl Hnd) as (Hslash & _).
  destruct (Hslash 3%nat (str "/") eq_refl eq_refl) as (_ & _ & _ & _ & Hup & _).
  destruct Hup as (Hup & Hback); [split; [by vm_compute|reflexivity]|].
  destruct (options_cycle opts (Presets.guarded "1 ? 2" 1) operator
              (map str ["+"; "-"; "*"; "/"]%string)
              eq_refl eq_refl ltac:(discriminate) eq_refl Hnd) as (_ & Hnone).
  destruct Hnone as (Hfirst & _); [discriminate| |].
  { intros x [= <-]. apply (bool_decide_unpack _). by vm_compute. }
  split; [|split; [|split]].
  - apply Hdown. split; [by vm_compute|reflexivity].
  - exact Hup.
  - apply Hback. split; [by vm_compute|reflexivity].
  - exact Hfirst.
Defined.

(** With a repeated option the position of the current value is the
    first one that holds it: from [a] at position 2 of [a, b, a],
    increment goes to [b], not to the option at position 0.  And a
    segment of type [text] is left alone even when it lists options. *)
Lemma options_cycle_repeated_or_text :
  (let opts := Presets.expression ["a"; "b"; "a"]%string in
   let s := Presets.guarded "1 a 2" 1 in
   map str ["a"; "b"; "a"]%string !! 2%nat = getSegmentValue opts 1 s
   /\ getSegmentValue opts 1 (increment opts s) = Some (str "b")
   /\ getSegmentValue opts 1 (increment opts s)
      <> map str ["a"; "b"; "a"]%string !! ((2 + 1) mod 3)%nat)
  /\ (let opts := Presets.spaced [Presets.operand;
                                  Presets.enumerated (Some "text"%string) ["+"; "-"]%string;
                                  Presets.operand] in
      let s := Presets.guarded "1 + 2" 1 in
      getSegmentValue opts 1 s = Some (str "+")
      /\ increment opts s = s
      /\ getSegmentValue opts 1 (increment opts s) <> Some (str "-")).
Proof.
  split.
  - split; [reflexivity|]. split; [reflexivity|]. by vm_compute.
  - split; [reflexivity|]. split; [reflexivity|]. by vm_compute.
Qed.

End GuardedInputFacts.

(** ** Validity *)

(** C6. With a non-empty text, the custom validity message becomes the
    configured invalid message if some segment's current parsed value
    equals its placeholder value, and is cleared otherwise; with an empty
    text it is always cleared.  In [src/segmented-input.js] every segment
    counts; in the revision with action segments only the segments that
    are not action segments count. *)
Theorem updateValidity_placeholder_occupancy `{JSNumber} (opts : options) :
  (forall s : SegmentedInput.state,
      let text := input_value (SegmentedInput.input s) in
      let message :=
        input_customValidity
          (SegmentedInput.input (SegmentedInput._updateValidity opts s)) in
      let incomplete :=
        exists i p, SegmentedInput._placeholderValues opts !! i = Some p
                    /\ SegmentedInput.getSegmentValue opts (Z.of_nat i) s = Some p in
      (text = [] -> message = [])
      /\ (text <> [] ->
          (incomplete -> message = SegmentedInput._invalidMessage opts)
          /\ (~ incomplete -> message = [])))
  /\ (forall s : GuardedInput.state,
        let text := input_value (GuardedInput.input s) in
        let message :=
          input_customValidity
            (GuardedInput.input (GuardedInput.updateValidity opts s)) in
        let incomplete :=
          exists i p, GuardedInput.placeholderValues opts !! i = Some p
                      /\ GuardedInput.isActionSegment (segments opts !! i) = false
                      /\ GuardedInput.getSegmentValue opts (Z.of_nat i) s = Some p in
        (text = [] -> message = [])
        /\ (text <> [] ->
            (incomplete -> message = GuardedInput.invalidMessage_ opts)
            /\ (~ incomplete -> message = []))).
Proof.
  split; intros s text message incomplete; split.
  - apply SegmentedInputFacts.updateValidity_empty.
  - apply SegmentedInputFacts.updateValidity_nonempty.
  - apply GuardedInputFacts.guarded_updateValidity_empty.
  - apply GuardedInputFacts.guarded_updateValidity_nonempty.
Qed.

Lemma updateValidity_placeholder_occupancy_witness :
  let message s :=
    input_customValidity
      (SegmentedInput.input (SegmentedInput._updateValidity Presets.ipv4 s)) in
  let calculator :=
    Presets.spaced [Presets.operand; Presets.enumerated None ["+"; "-"]%string;
                    Presets.operand; Presets.button] in
  let guarded_message s :=
    input_customValidity
      (GuardedInput.input (GuardedInput.updateValidity calculator s)) in
  message (Presets.editing "" 0 "") = []
  /\ message (Presets.editing "--.--.--.--" 0 "") = str "Please fill in all fields."
  /\ message (Presets.editing "192.168.0.1" 0 "") = []
  /\ message (Presets.editing "192.168.--.1" 2 "") = str "Please fill in all fields."
  /\ guarded_message (Presets.guarded "1 + 2 =" 0) = []
  /\ guarded_message (Presets.guarded "1 ? 2 =" 0) = str "Please fill in all fields.".
Proof.
  intros message calculator guarded_message.
  destruct (updateValidity_placeholder_occupancy Presets.ipv4) as (Hplain & _).
  destruct (updateValidity_placeholder_occupancy calculator) as (_ & Hguarded).
  split; [|split; [|split; [|split; [|split]]]].
  - destruct (Hplain (Presets.editing "" 0 "")) as (Hempty & _).
    exact (Hempty eq_refl).
  - destruct (Hplain (Presets.editing "--.--.--.--" 0 "")) as (_ & Hfull).
    destruct (Hfull ltac:(discriminate)) as (Hyes & _).
    apply Hyes. exists 0%nat, (str "--"). split; reflexivity.
  - destruct (Hplain (Presets.editing "192.168.0.1" 0 "")) as (_ & Hfull).
    destruct (Hfull ltac:(discriminate)) as (_ & Hno).
    apply Hno.
    intros ([|[|[|[|i]]]] & p & Hp & Hv); vm_compute in Hp, Hv; congruence.
  - destruct (Hplain (Presets.editing "192.168.--.1" 2 "")) as (_ & Hfull).
    destruct (Hfull ltac:(discriminate)) as (Hyes & _).
    apply Hyes. exists 2%nat, (str "--"). split; reflexivity.
  - destruct (Hguarded (Presets.guarded "1 + 2 =" 0)) as (_ & Hfull).
    destruct (Hfull ltac:(discriminate)) as (_ & Hno).
    apply Hno.
    intros ([|[|[|[|i]]]] & p & Hp & Ha & Hv); vm_compute in Hp, Ha, Hv; congruence.
  - destruct (Hguarded (Presets.guarded "1 ? 2 =" 0)) as (_ & Hfull).
    destruct (Hfull ltac:(discriminate)) as (Hyes & _).
    apply Hyes. exists 1%nat, (str "?"). split; [reflexivity|split; reflexivity].
Defined.

(** ** Blur *)

(** C8. At blur time: when the text is already empty, or every segment
    that is not an action segment has a current value equal to its
    placeholder, the text is cleared to the empty string, the active
    segment index is reset to 0 and the keystroke buffer is emptied; when
    some such segment holds a value other than its placeholder, the text
    is left unchanged (and, unless the text is empty, so are the active
    segment and the buffer).  In both cases the custom validity is
    recomputed: it is the one that belongs to the resulting text.  In
    [src/segmented-input.js] no segment is an action segment. *)
Theorem onBlurOut_clears_placeholder_state `{JSNumber} (opts : options) :
  (forall s : SegmentedInput.state,
      let s' := SegmentedInput._onBlurOut opts s in
      let text t := input_value (SegmentedInput.input t) in
      let shows_placeholder i p :=
        SegmentedInput.getSegmentValue opts (Z.of_nat i) s = Some p in
      ((text s = []
        \/ (forall i p, SegmentedInput._placeholderValues opts !! i = Some p ->
                        shows_placeholder i p)) ->
       text s' = [] /\ SegmentedInput._activeSegment s' = 0%nat
       /\ SegmentedInput._segmentBuffer s' = []
       /\ input_customValidity (SegmentedInput.input s') = [])
      /\ ((exists i p, SegmentedInput._placeholderValues opts !! i = Some p
                       /\ ~ shows_placeholder i p) ->
          text s' = text s
          /\ (text s <> [] ->
              SegmentedInput._activeSegment s' = SegmentedInput._activeSegment s
              /\ SegmentedInput._segmentBuffer s' = SegmentedInput._segmentBuffer s))
      /\ SegmentedInput._updateValidity opts s' = s')
  /\ (forall s : GuardedInput.state,
        let s' := GuardedInput.onBlurOut opts s in
        let text t := input_value (GuardedInput.input t) in
        let shows_placeholder i p :=
          GuardedInput.getSegmentValue opts (Z.of_nat i) s = Some p in
        ((text s = []
          \/ (forall i p, GuardedInput.placeholderValues opts !! i = Some p ->
                          GuardedInput.isActionSegment (segments opts !! i) = false ->
                          shows_placeholder i p)) ->
         text s' = [] /\ GuardedInput.activeSegment s' = 0%nat
         /\ GuardedInput.segmentBuffer s' = []
         /\ input_customValidity (GuardedInput.input s') = [])
        /\ ((exists i p, GuardedInput.placeholderValues opts !! i = Some p
                         /\ GuardedInput.isActionSegment (segments opts !! i) = false
                         /\ ~ shows_placeholder i p) ->
            text s' = text s
            /\ (text s <> [] ->
                GuardedInput.activeSegment s' = GuardedInput.activeSegment s
                /\ GuardedInput.segmentBuffer s' = GuardedInput.segmentBuffer s))
        /\ GuardedInput.updateValidity opts s' = s').
Proof.
  split; intros s.
  - apply SegmentedInputFacts.onBlurOut_spec.
  - apply GuardedInputFacts.guarded_onBlurOut_spec.
Qed.

Lemma onBlurOut_clears_placeholder_state_witness :
  let text s := input_value (SegmentedInput.input s) in
  let calculator :=
    Presets.spaced [Presets.operand; Presets.enumerated None ["+"; "-"]%string;
                    Presets.operand; Presets.button] in
  text (SegmentedInput._onBlurOut Presets.duration (Presets.editing "hh:mm:ss" 1 "")) = []
  /\ text (SegmentedInput._onBlurOut Presets.duration (Presets.editing "hh:30:10" 1 "3"))
     = str "hh:30:10"
  /\ input_value (GuardedInput.input
                    (GuardedInput.onBlurOut calculator (Presets.guarded "_ ? _ =" 2)))
     = [].
Proof.
  intros text calculator.
  destruct (onBlurOut_clears_placeholder_state Presets.duration) as (Hplain & _).
  destruct (onBlurOut_clears_placeholder_state calculator) as (_ & Hguarded).
  split; [|split].
  - destruct (Hplain (Presets.editing "hh:mm:ss" 1 "")) as (Hclear & _).
    apply Hclear. right.
    intros [|[|[|i]]] p Hp; vm_compute in Hp |- *; congruence.
  - destruct (Hplain (Presets.editing "hh:30:10" 1 "3")) as (_ & Hkeep & _).
    apply Hkeep.
    exists 1%nat, (str "mm"). split; [reflexivity|]. vm_compute. discriminate.
  - destruct (Hguarded (Presets.guarded "_ ? _ =" 2)) as (Hclear & _).
    apply Hclear. right.
    intros [|[|[|[|i]]]] p Hp Ha; vm_compute in Hp, Ha |- *; congruence.
Defined.

(** * Further properties *)

(** ** Ranges and cursor together *)

Lemma scan_step_bounds formatted st v :
  (searchFrom st <= length formatted)%nat ->
  Forall (fun r => 0 <= start r /\ end_ r <= Z.of_nat (length formatted)) (ranges st) ->
  (searchFrom (scan_step formatted st v) <= length formatted)%nat
  /\ Forall (fun r => 0 <= start r /\ end_ r <= Z.of_nat (length formatted))
            (ranges (scan_step formatted st v)).
Proof.
  intros Hc Hall. unfold scan_step.
  destruct (indexOf formatted v (searchFrom st)) as [k|] eqn:E; simpl.
  - apply indexOf_Some in E as (Hk & Hlen & _); [|done].
    split; [lia|]. apply Forall_app. split; [done|].
    apply Forall_singleton. simpl. lia.
  - split; [done|]. apply Forall_app. split; [done|].
    apply Forall_singleton. simpl. lia.
Qed.

Lemma scan_bounds formatted vals :
  (searchFrom (scan formatted vals) <= length formatted)%nat
  /\ Forall (fun r => 0 <= start r /\ end_ r <= Z.of_nat (length formatted))
            (ranges (scan formatted vals)).
Proof.
  induction vals as [|v vals IH] using rev_ind.
  - split; [simpl; lia|]. apply Forall_nil_2.
  - rewrite scan_snoc. destruct IH as [Hc Hall]. by apply scan_step_bounds.
Qed.

(** X1. Every range that [getSegmentRanges] returns lies within the
    normalised text [format(parse(text))]: [0 <= start <= end <= length],
    whatever [parse] and [format] are, so the selection asked of the
    element is always a span of that text. *)
Theorem getSegmentRanges_within_text
    (text : jsstring) (parse : jsstring -> list jsstring)
    (format : list slot -> jsstring) (i : nat) (r : range) :
  getSegmentRanges text parse format !! i = Some r ->
  0 <= start r <= end_ r
  /\ end_ r <= Z.of_nat (length (format (Some <$> parse text))).
Proof.
  unfold getSegmentRanges. intros Hr.
  destruct (scan_bounds (format (Some <$> parse text)) (parse text)) as (_ & Hall).
  destruct (scan_inv_scan (format (Some <$> parse text)) (parse text))
    as (_ & Hasc & _).
  destruct (ascending_lookup _ i i r r Hasc Hr Hr ltac:(lia)) as (Hwf & _).
  pose proof (proj1 (Forall_lookup _ _) Hall i r Hr) as [? ?]. lia.
Qed.

Lemma getSegmentRanges_within_text_witness :
  0 <= 3 <= 5 /\ 5 <= Z.of_nat (length (str "00:00:00")).
Proof.
  apply (getSegmentRanges_within_text (str "0:0:0")
           (parse Presets.duration) (format Presets.duration)
           1%nat (mkRange 3 5 (str "00"))).
  reflexivity.
Defined.

(** A cursor strictly after the start of a range of an ascending list,
    and not after its end, is in no earlier range. *)
Lemma interior_first_match cursorPos rs i r :
  ascending rs -> rs !! i = Some r -> start r < cursorPos <= end_ r ->
  getCursorSegment cursorPos rs = i.
Proof.
  intros Hasc Hi Hpos.
  destruct (lookup_lt_is_Some_2 rs 0%nat) as [first Hfirst].
  { apply lookup_lt_Some in Hi. lia. }
  rewrite (getCursorSegment_nonempty _ _ _ Hfirst).
  destruct (exact_hit cursorPos rs 0) as [k|] eqn:Ehit.
  - apply exact_hit_Some in Ehit as (_ & (rk & Hk & Hink) & Hmin).
    rewrite Nat.sub_0_r in Hk, Hmin. unfold contains in *.
    destruct (Nat.lt_trichotomy k i) as [Hlt|[->|Hgt]]; [|done|].
    + destruct (ascending_lookup rs k i rk r Hasc Hk Hi ltac:(lia))
        as (_ & _ & _ & Hle).
      specialize (Hle Hlt). lia.
    + destruct (Hmin i r Hgt Hi). lia.
  - destruct (proj1 (exact_hit_None _ _ _) Ehit i r Hi). unfold contains. lia.
Qed.

(** X2. The cursor mapper inverts the range resolver: for every text,
    [parse] and [format], a cursor placed after the first character
    position of the range that [getSegmentRanges] gives segment [i], up
    to and including its end, is mapped back to [i] by
    [getCursorSegment]. *)
Theorem getCursorSegment_of_getSegmentRanges
    (text : jsstring) (parse : jsstring -> list jsstring)
    (format : list slot -> jsstring) (cursorPos : Z) (i : nat) (r : range) :
  getSegmentRanges text parse format !! i = Some r ->
  start r < cursorPos <= end_ r ->
  getCursorSegment cursorPos (getSegmentRanges text parse format) = i.
Proof.
  intros Hr Hpos. apply (interior_first_match _ _ _ r); [|done|done].
  unfold getSegmentRanges. apply scan_inv_scan.
Qed.

Lemma getCursorSegment_of_getSegmentRanges_witness :
  getCursorSegment 4
    (getSegmentRanges (str "00:00:00") (parse Presets.duration) (format Presets.duration))
  = 1%nat.
Proof.
  apply (getCursorSegment_of_getSegmentRanges (str "00:00:00")
           (parse Presets.duration) (format Presets.duration)
           4 1%nat (mkRange 3 5 (str "00"))).
  - reflexivity.
  - simpl. lia.
Defined.

(** The second loop finds nothing only when no two neighbours have the
    cursor strictly between them. *)
Lemma nearest_in_gap_None cursorPos rs k :
  nearest_in_gap cursorPos rs k = None ->
  forall i rl rr, rs !! i = Some rl -> rs !! S i = Some rr ->
                  ~ (end_ rl < cursorPos < start rr).
Proof.
  revert k. induction rs as [|a rs IH]; intros k Hn i rl rr Hl Hr; [done|].
  destruct rs as [|b rs]; [by destruct i|].
  rewrite nearest_in_gap_cons in Hn.
  destruct ((end_ a <? cursorPos) && (cursorPos <? start b)) eqn:E; [done|].
  destruct i as [|i]; simpl in Hl, Hr.
  - injection Hl as <-. injection Hr as <-. lia.
  - by apply (IH (S k) Hn i rl rr).
Qed.

(** When it finds something, that is the nearer neighbour of the first
    such pair. *)
Lemma nearest_in_gap_Some cursorPos rs k m :
  nearest_in_gap cursorPos rs k = Some m ->
  exists i rl rr,
    rs !! i = Some rl /\ rs !! S i = Some rr
    /\ end_ rl < cursorPos < start rr
    /\ m = (if cursorPos - end_ rl <=? start rr - cursorPos
            then (k + i)%nat else (k + S i)%nat).
Proof.
  revert k. induction rs as [|a rs IH]; intros k Hm; [done|].
  destruct rs as [|b rs]; [done|].
  rewrite nearest_in_gap_cons in Hm.
  destruct ((end_ a <? cursorPos) && (cursorPos <? start b)) eqn:E.
  - injection Hm as <-. exists 0%nat, a, b.
    split; [done|]. split; [done|]. split; [lia|].
    by rewrite Nat.add_0_r, Nat.add_1_r.
  - apply IH in Hm as (i & rl & rr & Hl & Hr & Hgap & ->).
    exists (S i), rl, rr. split; [done|]. split; [done|]. split; [done|].
    by rewrite !Nat.add_succ_r.
Qed.

(** In an ascending list, a cursor that is in no range, not before the
    first range and not after the last one, is strictly between two
    neighbours. *)
Lemma gap_exists cursorPos rs first lst :
  ascending rs -> rs !! 0%nat = Some first -> last rs = Some lst ->
  (forall j r, rs !! j = Some r -> ~ contains r cursorPos) ->
  start first <= cursorPos -> cursorPos <= end_ lst ->
  exists i rl rr, rs !! i = Some rl /\ rs !! S i = Some rr
                  /\ end_ rl < cursorPos < start rr.
Proof.
  revert first. induction rs as [|a rs IH]; intros first Hasc Hfirst Hlast Hno Hlo Hhi;
    [done|].
  simpl in Hfirst. injection Hfirst as <-.
  assert (end_ a < cursorPos) as Ha.
  { specialize (Hno 0%nat a eq_refl). unfold contains in Hno. lia. }
  destruct rs as [|b rs].
  - simpl in Hlast. injection Hlast as <-. lia.
  - destruct Hasc as (_ & _ & Hrest).
    destruct (Z.lt_ge_cases cursorPos (start b)) as [Hlt|Hge].
    + exists 0%nat, a, b. split; [done|]. split; [done|]. lia.
    + destruct (IH b Hrest eq_refl Hlast) as (i & rl & rr & Hl & Hr & Hgap);
        [|done|done|].
      * intros j r Hj. by apply (Hno (S j)).
      * exists (S i), rl, rr. done.
Qed.

(** What [getCursorSegment] returns on an ascending list, case by case. *)
Lemma getCursorSegment_classify cursorPos rs first lst :
  ascending rs -> rs !! 0%nat = Some first -> last rs = Some lst ->
  let k := getCursorSegment cursorPos rs in
  (exists r, rs !! k = Some r /\ contains r cursorPos
             /\ forall j rj, (j < k)%nat -> rs !! j = Some rj ->
                             ~ contains rj cursorPos)
  \/ (k = 0%nat /\ cursorPos < start first)
  \/ (k = (length rs - 1)%nat /\ end_ lst < cursorPos)
  \/ (exists i rl rr,
        rs !! i = Some rl /\ rs !! S i = Some rr
        /\ end_ rl < cursorPos < start rr
        /\ k = if cursorPos - end_ rl <=? start rr - cursorPos then i else S i).
Proof.
  intros Hasc Hfirst Hlast k. unfold k.
  rewrite (getCursorSegment_nonempty _ _ _ Hfirst).
  destruct (exact_hit cursorPos rs 0) as [m|] eqn:Ehit.
  { apply exact_hit_Some in Ehit as (_ & (r & Hr & Hin) & Hmin).
    rewrite Nat.sub_0_r in Hr, Hmin. left. by exists r. }
  right. destruct (Z.ltb_spec cursorPos (start first)); [by left|].
  right. rewrite Hlast. destruct (Z.ltb_spec (end_ lst) cursorPos); [by left|].
  right.
  destruct (gap_exists cursorPos rs first lst Hasc Hfirst Hlast
              (proj1 (exact_hit_None _ _ _) Ehit) ltac:(lia) ltac:(lia))
    as (i & rl & rr & Hl & Hr & Hgap).
  destruct (nearest_in_gap cursorPos rs 0) as [m|] eqn:Egap.
  - apply nearest_in_gap_Some in Egap as (i' & rl' & rr' & Hl' & Hr' & Hgap' & ->).
    exists i', rl', rr'. done.
  - destruct (nearest_in_gap_None _ _ _ Egap i rl rr Hl Hr Hgap).
Qed.

(** Every range before the one that [getCursorSegment] returns ends
    before the cursor. *)
Lemma getCursorSegment_left_of_cursor cursorPos rs j rj :
  ascending rs ->
  (j < getCursorSegment cursorPos rs)%nat -> rs !! j = Some rj ->
  end_ rj < cursorPos.
Proof.
  intros Hasc Hj Hrj.
  destruct (lookup_lt_is_Some_2 rs 0%nat) as [first Hfirst].
  { apply lookup_lt_Some in Hrj. lia. }
  assert (0 < length rs)%nat as Hlen by (by eapply lookup_lt_Some).
  destruct (lookup_lt_is_Some_2 rs (Init.Nat.pred (length rs)) ltac:(lia))
    as [lst Hlst].
  assert (last rs = Some lst) as Hlast by (by rewrite last_lookup).
  destruct (getCursorSegment_classify cursorPos rs first lst Hasc Hfirst Hlast)
    as [(r & Hr & Hin & Hmin)|[(Hk & _)|[(Hk & Hafter)|(i & rl & rr & Hl & Hr & Hgap & Hk)]]].
  - destruct (ascending_lookup rs j _ rj r Hasc Hrj Hr ltac:(lia))
      as (Hwf & _ & _ & Hle).
    specialize (Hle Hj). specialize (Hmin j rj Hj Hrj).
    unfold contains in Hin, Hmin. lia.
  - lia.
  - destruct (ascending_lookup rs j (Init.Nat.pred (length rs)) rj lst
                Hasc Hrj Hlst ltac:(lia)) as (_ & _ & ? & _).
    lia.
  - destruct (ascending_lookup rs j i rj rl Hasc Hrj Hl
                ltac:(destruct (_ <=? _); lia)) as (_ & _ & ? & _).
    lia.
Qed.

Lemma getCursorSegment_lt_length cursorPos rs :
  rs <> [] -> (getCursorSegment cursorPos rs < length rs)%nat.
Proof.
  intros Hne. destruct rs as [|first rest]; [done|]. clear Hne.
  unfold getCursorSegment.
  destruct (exact_hit cursorPos (first :: rest) 0) as [k|] eqn:Ehit.
  { apply exact_hit_bound in Ehit. lia. }
  destruct (cursorPos <? start first); [simpl; lia|].
  destruct (last (first :: rest)) as [lst|]; [|simpl; lia].
  destruct (end_ lst <? cursorPos); [simpl; lia|].
  destruct (nearest_in_gap cursorPos (first :: rest) 0) as [k|] eqn:Egap.
  { apply nearest_in_gap_bound in Egap. lia. }
  simpl. lia.
Qed.

Lemma ascending_first_last (rs : list range) (i : nat) (r : range) :
  rs !! i = Some r ->
  exists first lst, rs !! 0%nat = Some first /\ last rs = Some lst
                    /\ rs !! Init.Nat.pred (length rs) = Some lst.
Proof.
  intros Hi. assert (0 < length rs)%nat as Hlen.
  { apply lookup_lt_Some in Hi. lia. }
  destruct (lookup_lt_is_Some_2 rs 0%nat Hlen) as [first Hfirst].
  destruct (lookup_lt_is_Some_2 rs (Init.Nat.pred (length rs)) ltac:(lia))
    as [lst Hlst].
  exists first, lst. by rewrite last_lookup.
Qed.

(** The gap rule, for any gap of an ascending list. *)
Lemma gap_nearest cursorPos rs i rl rr :
  ascending rs -> rs !! i = Some rl -> rs !! S i = Some rr ->
  end_ rl < cursorPos < start rr ->
  getCursorSegment cursorPos rs
  = if cursorPos - end_ rl <=? start rr - cursorPos then i else S i.
Proof.
  intros Hasc Hl Hr Hgap.
  destruct (ascending_first_last rs i rl Hl) as (first & lst & Hfirst & Hlast & Hlst).
  assert (S i < length rs)%nat as Hlen by (by eapply lookup_lt_Some).
  destruct (getCursorSegment_classify cursorPos rs first lst Hasc Hfirst Hlast)
    as [(r & Hk & Hin & _)|[(_ & Hbefore)|[(_ & Hafter)|(i' & rl' & rr' & Hl' & Hr' & Hgap' & Hk)]]].
  - unfold contains in Hin.
    destruct (decide (getCursorSegment cursorPos rs <= i)%nat).
    + destruct (ascending_lookup rs _ i r rl Hasc Hk Hl ltac:(lia)) as (_ & _ & ? & _).
      lia.
    + destruct (ascending_lookup rs (S i) _ rr r Hasc Hr Hk ltac:(lia))
        as (_ & ? & _ & _).
      lia.
  - destruct (ascending_lookup rs 0%nat i first rl Hasc Hfirst Hl ltac:(lia))
      as (? & _ & ? & _).
    lia.
  - destruct (ascending_lookup rs (S i) _ rr lst Hasc Hr Hlst ltac:(lia))
      as (? & _ & ? & _).
    lia.
  - destruct (Nat.lt_trichotomy i' i) as [Hlt|[->|Hgt]].
    + destruct (ascending_lookup rs (S i') i rr' rl Hasc Hr' Hl ltac:(lia))
        as (? & _ & ? & _).
      lia.
    + rewrite Hl in Hl'. rewrite Hr in Hr'.
      injection Hl' as <-. injection Hr' as <-. done.
    + destruct (ascending_lookup rs (S i) i' rr rl' Hasc Hr Hl' ltac:(lia))
        as (? & _ & ? & _).
      lia.
Qed.

(** X3. On ranges in ascending order the cursor mapper is monotone: of
    two cursor offsets, the one further right is never mapped to an
    earlier segment. *)
Theorem getCursorSegment_monotone (rs : list range) (pos1 pos2 : Z) :
  ascending rs -> pos1 <= pos2 ->
  (getCursorSegment pos1 rs <= getCursorSegment pos2 rs)%nat.
Proof.
  intros Hasc Hle.
  destruct (decide (getCursorSegment pos1 rs <= getCursorSegment pos2 rs)%nat)
    as [|Hgt]; [done|].
  exfalso. apply Nat.nle_gt in Hgt.
  destruct rs as [|r0 rest] eqn:Ers; [simpl in Hgt; lia|]. rewrite <- Ers in *.
  assert (rs <> []) as Hne by (by rewrite Ers).
  pose proof (getCursorSegment_lt_length pos1 rs Hne) as Hk1.
  destruct (lookup_lt_is_Some_2 rs (getCursorSegment pos2 rs) ltac:(lia))
    as [r2 Hr2].
  pose proof (getCursorSegment_left_of_cursor pos1 rs _ r2 Hasc Hgt Hr2) as Hleft.
  destruct (ascending_first_last rs _ r2 Hr2) as (first & lst & Hfirst & Hlast & Hlst).
  destruct (ascending_lookup rs _ _ r2 r2 Hasc Hr2 Hr2 ltac:(lia)) as (Hwf2 & _).
  destruct (getCursorSegment_classify pos2 rs first lst Hasc Hfirst Hlast)
    as [(r & Hk & Hin & _)|[(Hk & Hbefore)|[(Hk & _)|(i & rl & rr & Hl & Hr & Hgap & Hk)]]].
  - rewrite Hr2 in Hk. injection Hk as <-. unfold contains in Hin. lia.
  - rewrite Hk in Hr2. rewrite Hfirst in Hr2. injection Hr2 as <-. lia.
  - lia.
  - destruct (Z.leb_spec (pos2 - end_ rl) (start rr - pos2)) as [Hnear|Hfar].
    + rewrite Hk in Hr2. rewrite Hl in Hr2. injection Hr2 as <-.
      pose proof (gap_nearest pos1 rs i rl rr Hasc Hl Hr ltac:(lia)) as Hk1'.
      destruct (Z.leb_spec (pos1 - end_ rl) (start rr - pos1)); lia.
    + rewrite Hk in Hr2. rewrite Hr in Hr2. injection Hr2 as <-. lia.
Qed.

Lemma getCursorSegment_monotone_witness :
  let rs := [mkRange 0 2 []; mkRange 4 6 []; mkRange 6 8 []; mkRange 13 15 []] in
  (getCursorSegment 3 rs <= getCursorSegment 11 rs)%nat.
Proof.
  intros rs. apply getCursorSegment_monotone; [simpl; lia|lia].
Defined.

(** X4. On ranges in ascending order, a cursor before the first range is
    mapped to segment 0 and a cursor after the last range to the last
    segment. *)
Theorem getCursorSegment_outside (rs : list range) (cursorPos : Z)
    (first lst : range) :
  ascending rs -> rs !! 0%nat = Some first -> last rs = Some lst ->
  (cursorPos < start first -> getCursorSegment cursorPos rs = 0%nat)
  /\ (end_ lst < cursorPos ->
      getCursorSegment cursorPos rs = (length rs - 1)%nat).
Proof.
  intros Hasc Hfirst Hlast.
  assert (rs !! Init.Nat.pred (length rs) = Some lst) as Hlst
    by (by rewrite <- last_lookup).
  assert (forall j r, rs !! j = Some r -> start first <= start r /\ end_ r <= end_ lst)
    as Hbetween.
  { intros j r Hj.
    destruct (ascending_lookup rs 0%nat j first r Hasc Hfirst Hj ltac:(lia))
      as (_ & ? & _).
    assert (j < length rs)%nat by (by eapply lookup_lt_Some).
    destruct (ascending_lookup rs j _ r lst Hasc Hj Hlst ltac:(lia))
      as (_ & _ & ? & _).
    done. }
  rewrite (getCursorSegment_nonempty _ _ _ Hfirst). rewrite Hlast.
  split; intros Hpos.
  - assert (exact_hit cursorPos rs 0 = None) as ->.
    { apply exact_hit_None. intros j r Hj. unfold contains.
      destruct (Hbetween j r Hj). lia. }
    by destruct (Z.ltb_spec cursorPos (start first)); [|lia].
  - assert (exact_hit cursorPos rs 0 = None) as ->.
    { apply exact_hit_None. intros j r Hj. unfold contains.
      destruct (Hbetween j r Hj). lia. }
    destruct (Hbetween 0%nat first Hfirst).
    destruct (ascending_lookup rs 0%nat 0%nat first first Hasc Hfirst Hfirst ltac:(lia))
      as (? & _).
    destruct (Z.ltb_spec cursorPos (start first)); [lia|].
    by destruct (Z.ltb_spec (end_ lst) cursorPos); [|lia].
Qed.

Lemma getCursorSegment_outside_witness :
  let rs := [mkRange 2 4 []; mkRange 5 7 []; mkRange 8 10 []] in
  getCursorSegment (-5) rs = 0%nat /\ getCursorSegment 15 rs = 2%nat.
Proof.
  intros rs.
  destruct (getCursorSegment_outside rs (-5) (mkRange 2 4 []) (mkRange 8 10 [])
              ltac:(simpl; lia) eq_refl eq_refl) as (Hbefore & _).
  destruct (getCursorSegment_outside rs 15 (mkRange 2 4 []) (mkRange 8 10 [])
              ltac:(simpl; lia) eq_refl eq_refl) as (_ & Hafter).
  split; [apply Hbefore; simpl; lia|apply Hafter; simpl; lia].
Defined.

(** ** Texts that join their values with a separator *)

(** A decidable statement about closed terms, by evaluation. *)
Ltac by_computation := apply (bool_decide_unpack _); vm_compute; exact I.

Lemma split_length (c : N) (s : list N) : (0 < length (split c s))%nat.
Proof.
  induction s as [|x s IH]; simpl; [lia|].
  destruct (x =? c)%N; [simpl; lia|].
  destruct (split c s); simpl; lia.
Qed.

(** No piece of [s.split(c)] contains the separator. *)
Lemma split_free (c : N) (s : list N) : Forall (fun p => c ∉ p) (split c s).
Proof.
  induction s as [|x s IH]; simpl.
  - constructor; [apply not_elem_of_nil|constructor].
  - destruct (N.eqb_spec x c) as [->|Hne].
    + constructor; [apply not_elem_of_nil|done].
    + destruct (split c s) as [|piece pieces].
      * constructor; [|constructor].
        apply not_elem_of_cons. split; [done|apply not_elem_of_nil].
      * inversion IH as [|? ? Hpiece Hpieces]; subst.
        constructor; [|done]. apply not_elem_of_cons. by split.
Qed.

Lemma split_one (c : N) (p : list N) : c ∉ p -> split c p = [p].
Proof.
  induction p as [|x p IH]; [done|]. intros Hfree.
  apply not_elem_of_cons in Hfree as [Hne Hfree]. simpl.
  destruct (N.eqb_spec x c) as [->|_]; [done|]. by rewrite IH.
Qed.

Lemma split_app (c : N) (p rest : list N) :
  c ∉ p -> split c (p ++ c :: rest) = p :: split c rest.
Proof.
  induction p as [|x p IH]; simpl.
  - intros _. by rewrite N.eqb_refl.
  - intros Hfree. apply not_elem_of_cons in Hfree as [Hne Hfree].
    destruct (N.eqb_spec x c) as [->|_]; [done|]. by rewrite IH.
Qed.

Lemma join_cons (sep p q : list N) (rest : list (list N)) :
  join sep (p :: q :: rest) = p ++ sep ++ join sep (q :: rest).
Proof. reflexivity. Qed.

(** Splitting what was joined gives the pieces back, when there is a piece
    and no piece contains the separator. *)
Lemma split_join (c : N) (ps : list (list N)) :
  ps <> [] -> Forall (fun p => c ∉ p) ps -> split c (join [c] ps) = ps.
Proof.
  induction ps as [|p ps IH]; [done|]. intros _ Hfree.
  inversion Hfree as [|? ? Hp Hps]; subst.
  destruct ps as [|q rest].
  - simpl. by apply split_one.
  - rewrite join_cons.
    change ([c] ++ join [c] (q :: rest)) with (c :: join [c] (q :: rest)).
    rewrite split_app by done. by rewrite IH.
Qed.

Lemma find_from_eq (pat s : list N) (pos : nat) :
  find_from pat s pos
  = if starts_with pat s then Some pos
    else match s with
         | [] => None
         | _ :: s' => find_from pat s' (S pos)
         end.
Proof. by destruct s. Qed.

Lemma starts_with_app (pat tail : list N) : starts_with pat (pat ++ tail) = true.
Proof. apply starts_with_occurs. by rewrite take_app_length. Qed.

(** The search of [getSegmentRanges] for a value that is written right at
    the search position, or right after one separator. *)
Lemma indexOf_at (c : N) (pre gap v tail : list N) :
  gap = [] \/ gap = [c] -> v <> [] -> c ∉ v ->
  indexOf (pre ++ gap ++ v ++ tail) v (length pre)
  = Some (length pre + length gap)%nat.
Proof.
  intros Hgap Hne Hfree. unfold indexOf.
  rewrite Nat.min_l by (rewrite length_app; lia).
  rewrite drop_app_length.
  destruct Hgap as [->| ->]; simpl.
  - rewrite find_from_eq, starts_with_app. f_equal. lia.
  - destruct v as [|x v]; [done|].
    apply not_elem_of_cons in Hfree as [Hne' _].
    assert ((x =? c)%N = false) as Hx by (apply N.eqb_neq; congruence).
    cbn [starts_with]. rewrite Hx. cbn [andb].
    rewrite find_from_eq, starts_with_app. f_equal. lia.
Qed.

Lemma scan_spans (c : N) (vs : list (list N)) :
  forall (formatted pre gap : list N) (st : scan_state),
    gap = [] \/ gap = [c] ->
    Forall (fun v => v <> [] /\ c ∉ v) vs ->
    formatted = pre ++ gap ++ join [c] vs ->
    searchFrom st = length pre ->
    ranges (fold_left (scan_step formatted) vs st)
    = ranges st ++ spans (length pre + length gap) vs.
Proof.
  induction vs as [|v rest IH]; intros formatted pre gap st Hgap Hall Hfmt Hfrom.
  - simpl. by rewrite app_nil_r.
  - inversion Hall as [|? ? [Hne Hfree] Hrest]; subst.
    assert (exists tail, join [c] (v :: rest) = v ++ tail
                         /\ (rest <> [] -> tail = [c] ++ join [c] rest))
      as (tail & Htail & Hnext).
    { destruct rest as [|w rest'].
      - exists []. simpl. by rewrite app_nil_r.
      - exists ([c] ++ join [c] (w :: rest')). by rewrite join_cons. }
    cbn [fold_left]. unfold scan_step at 2. rewrite Hfrom, Htail.
    rewrite (indexOf_at c pre gap v tail Hgap Hne Hfree).
    destruct rest as [|w rest'].
    + simpl. done.
    + rewrite <- Htail.
      rewrite (IH (pre ++ gap ++ join [c] (v :: w :: rest')) (pre ++ gap ++ v) [c]).
      * cbn [ranges spans]. rewrite <- app_assoc. simpl.
        rewrite !length_app. simpl.
        by replace (length pre + (length gap + length v))%nat
          with (length pre + length gap + length v)%nat by lia.
      * by right.
      * done.
      * rewrite join_cons. by rewrite <- !app_assoc.
      * simpl. rewrite !length_app. lia.
Qed.

(** X5. When the formatted text is the parsed values joined by a one-unit
    separator, and no value is empty or contains the separator,
    [getSegmentRanges] returns for each value exactly the span where it
    is written: the first at offset 0, each next one unit after the end
    of the one before. *)
Theorem getSegmentRanges_separated (text : jsstring)
    (parse : jsstring -> list jsstring) (format : list slot -> jsstring) (c : N) :
  format (Some <$> parse text) = join [c] (parse text) ->
  Forall (fun v => v <> [] /\ c ∉ v) (parse text) ->
  getSegmentRanges text parse format = spans 0 (parse text).
Proof.
  intros Hfmt Hall. unfold getSegmentRanges. cbv zeta. rewrite Hfmt.
  unfold scan.
  by rewrite (scan_spans c (parse text) (join [c] (parse text)) [] [] scan_init
                (or_introl eq_refl) Hall eq_refl eq_refl).
Qed.

Lemma getSegmentRanges_separated_witness :
  getSegmentRanges (str "192.168.0.1") (parse Presets.ipv4) (format Presets.ipv4)
  = [ mkRange 0 3 (str "192"); mkRange 4 7 (str "168"); mkRange 8 9 (str "0");
      mkRange 10 11 (str "1") ].
Proof.
  apply (getSegmentRanges_separated (str "192.168.0.1") (parse Presets.ipv4)
           (format Presets.ipv4) 46%N).
  - reflexivity.
  - by_computation.
Defined.

(** ** The presets of [src/presets.js] *)

Module PresetsFacts.
Import Presets.

Lemma pad_parts_length (n : nat) (d : jsstring) (parts : list jsstring) :
  length (pad_parts n d parts) = n.
Proof.
  unfold pad_parts. rewrite length_take, length_app, length_replicate. lia.
Qed.

Lemma pad_parts_id (n : nat) (d : jsstring) (parts : list jsstring) :
  length parts = n -> pad_parts n d parts = parts.
Proof.
  intros <-. unfold pad_parts. rewrite Nat.sub_diag. simpl.
  rewrite app_nil_r. by rewrite take_ge.
Qed.

Lemma pad_parts_Forall (P : jsstring -> Prop) (n : nat) (d : jsstring)
    (parts : list jsstring) :
  P d -> Forall P parts -> Forall P (pad_parts n d parts).
Proof.
  intros Hd Hparts. unfold pad_parts. apply Forall_take, Forall_app.
  split; [done|]. by apply Forall_replicate.
Qed.

Lemma join_values_Some (sep : jsstring) (vs : list jsstring) :
  join_values sep (Some <$> vs) = join sep vs.
Proof.
  unfold join_values. f_equal. induction vs as [|v vs IH]; [done|].
  cbn. f_equal. exact IH.
Qed.

Lemma padStart_length (n : nat) (c : N) (s : jsstring) :
  (n <= length (padStart n c s))%nat.
Proof. unfold padStart. rewrite length_app, length_replicate. lia. Qed.

Lemma padStart_long (n : nat) (c : N) (s : jsstring) :
  (n <= length s)%nat -> padStart n c s = s.
Proof.
  intros Hlen. unfold padStart. by replace (n - length s)%nat with 0%nat by lia.
Qed.

Lemma padStart_free (n : nat) (c sep : N) (s : jsstring) :
  c <> sep -> sep ∉ s -> sep ∉ padStart n c s.
Proof.
  intros Hne Hfree. unfold padStart. apply not_elem_of_app. split; [|done].
  intros Hin. apply elem_of_replicate in Hin as [? _]. congruence.
Qed.

(** The [format] of the [duration] preset on an array of strings. *)
Lemma duration_format_Some (vs : list jsstring) :
  format duration (Some <$> vs) = join (str ":") (map (padStart 2 48%N) vs).
Proof.
  simpl. f_equal. induction vs as [|v vs IH]; [done|]. cbn. f_equal. exact IH.
Qed.

Lemma ipv6_format_Some (vs : list jsstring) :
  ipv6_format (Some <$> vs) = Some (join (str ":") (map (padStart 4 48%N) vs)).
Proof.
  unfold ipv6_format.
  assert (mapM (fun v : option (list N) => padStart 4 48%N <$> v) (Some <$> vs)
          = Some (map (padStart 4 48%N) vs)) as ->; [|done].
  induction vs as [|v vs IH]; [done|].
  cbn. cbn in IH. by rewrite IH.
Qed.

(** A separator-free array of [n] strings, formatted with padding and
    parsed again, is the array padded. *)
Lemma padded_round_trip (n width : nat) (sep : N) (d : jsstring)
    (vs : list jsstring) :
  (0 < n)%nat -> 48%N <> sep -> length vs = n -> Forall (fun v => sep ∉ v) vs ->
  map (padStart width 48%N)
      (pad_parts n d (split sep (join [sep] (map (padStart width 48%N) vs))))
  = map (padStart width 48%N) vs.
Proof.
  intros Hn Hsep Hlen Hfree.
  rewrite split_join.
  - rewrite pad_parts_id by (by rewrite length_map).
    rewrite map_map. apply map_ext. intros v.
    apply padStart_long, padStart_length.
  - destruct vs; [simpl in Hlen; lia|done].
  - apply Forall_map. eapply Forall_impl; [exact Hfree|].
    intros v Hv. by apply padStart_free.
Qed.

(** X6. The [ipv4] preset: [parse] returns four values, none with a dot in
    it, whatever the text; and four values without a dot, formatted and
    parsed again, come back unchanged. *)
Theorem ipv4_round_trip (s : jsstring) (vs : list jsstring) :
  (length (parse ipv4 s) = 4%nat /\ Forall (fun v => 46%N ∉ v) (parse ipv4 s))
  /\ (length vs = 4%nat -> Forall (fun v => 46%N ∉ v) vs ->
      parse ipv4 (format ipv4 (Some <$> vs)) = vs).
Proof.
  split; [split|].
  - apply pad_parts_length.
  - apply pad_parts_Forall; [|apply split_free].
    by_computation.
  - intros Hlen Hfree.
    change (pad_parts 4 (str "0") (split 46%N (join_values (str ".") (Some <$> vs))) = vs).
    rewrite join_values_Some.
    change (str ".") with [46%N]. rewrite split_join; [|by destruct vs|done].
    by apply pad_parts_id.
Qed.

Lemma ipv4_round_trip_witness :
  parse ipv4 (format ipv4 (Some <$> [str "192"; str "168"; str "0"; str "1"]))
  = [str "192"; str "168"; str "0"; str "1"].
Proof.
  apply (ipv4_round_trip [] [str "192"; str "168"; str "0"; str "1"]).
  - reflexivity.
  - by_computation.
Defined.

(** X7. The [duration] preset: [parse] returns three values of at least two
    units each, none with a colon in it, whatever the text; and three
    values without a colon, formatted and parsed again, come back padded
    with zeros to two units (unchanged when they have two units or
    more). *)
Theorem duration_round_trip (s : jsstring) (vs : list jsstring) :
  (length (parse duration s) = 3%nat
   /\ Forall (fun v => (2 <= length v)%nat /\ 58%N ∉ v) (parse duration s))
  /\ (length vs = 3%nat -> Forall (fun v => 58%N ∉ v) vs ->
      parse duration (format duration (Some <$> vs)) = map (padStart 2 48%N) vs).
Proof.
  split; [split|].
  - simpl. rewrite length_map. apply pad_parts_length.
  - simpl. apply Forall_map.
    eapply Forall_impl;
      [apply (pad_parts_Forall (fun v => 58%N ∉ v) 3 (str "00") (split 58%N s));
       [by_computation|apply split_free]|].
    intros v Hv. split; [apply padStart_length|by apply padStart_free].
  - intros Hlen Hfree. rewrite duration_format_Some.
    apply (padded_round_trip 3 2 58%N (str "00") vs); [lia|done|done|done].
Qed.

Lemma duration_round_trip_witness :
  parse duration (format duration (Some <$> [str "1"; str "05"; str "123"]))
  = [str "01"; str "05"; str "123"].
Proof.
  apply (duration_round_trip [] [str "1"; str "05"; str "123"]).
  - reflexivity.
  - by_computation.
Defined.

(** X8. The [ipv6] preset: [parse] returns eight values of at least four
    units each, none with a colon in it, whatever the text; [format]
    raises on an array with an [undefined] element; and eight values
    without a colon are formatted without error and parsed back padded
    with zeros to four units. *)
Theorem ipv6_round_trip (s : jsstring) (values : list slot) (vs : list jsstring) :
  (length (ipv6_parse s) = 8%nat
   /\ Forall (fun v => (4 <= length v)%nat /\ 58%N ∉ v) (ipv6_parse s))
  /\ (None ∈ values -> ipv6_format values = None)
  /\ (length vs = 8%nat -> Forall (fun v => 58%N ∉ v) vs ->
      ipv6_parse <$> ipv6_format (Some <$> vs) = Some (map (padStart 4 48%N) vs)).
Proof.
  split; [split|split].
  - unfold ipv6_parse. rewrite length_map. apply pad_parts_length.
  - unfold ipv6_parse. apply Forall_map.
    eapply Forall_impl;
      [apply (pad_parts_Forall (fun v => 58%N ∉ v) 8 (str "0000") (split 58%N s));
       [by_computation|apply split_free]|].
    intros v Hv. split; [apply padStart_length|by apply padStart_free].
  - intros Hin. unfold ipv6_format.
    assert (mapM (fun v : option (list N) => padStart 4 48%N <$> v) values = None)
      as ->; [|done].
    induction values as [|v values IH]; [by apply elem_of_nil in Hin|].
    apply elem_of_cons in Hin as [<-|Hin]; [done|].
    simpl. destruct v; simpl; [|done]. simpl in IH. by rewrite IH.
  - intros Hlen Hfree. rewrite ipv6_format_Some. simpl. f_equal.
    apply (padded_round_trip 8 4 58%N (str "0000") vs); [lia|done|done|done].
Qed.

Lemma ipv6_round_trip_witness :
  ipv6_format [Some (str "1"); None] = None
  /\ ipv6_parse <$> ipv6_format (Some <$> replicate 8 (str "a1"))
     = Some (replicate 8 (str "00a1")).
Proof.
  split.
  - apply (ipv6_round_trip [] [Some (str "1"); None] []).
    apply elem_of_cons. right. apply elem_of_cons. by left.
  - apply (ipv6_round_trip [] [] (replicate 8 (str "a1"))).
    + reflexivity.
    + by_computation.
Defined.

(** X9. The [uuid] preset: [parse] returns five values, none empty and
    none with a dash in it, whatever the text; and five such values,
    formatted and parsed again, come back unchanged. *)
Theorem uuid_round_trip (s : jsstring) (vs : list jsstring) :
  (length (parse uuid s) = 5%nat
   /\ Forall (fun v => v <> [] /\ 45%N ∉ v) (parse uuid s))
  /\ (length vs = 5%nat -> Forall (fun v => v <> [] /\ 45%N ∉ v) vs ->
      parse uuid (format uuid (Some <$> vs)) = vs).
Proof.
  split; [split|].
  - change (length (imap (part_or (split 45%N s)) uuid_defaults) = 5%nat).
    by rewrite length_imap.
  - change (Forall (fun v => v <> [] /\ 45%N ∉ v)
                   (imap (part_or (split 45%N s)) uuid_defaults)).
    apply Forall_lookup. intros i v Hv.
    rewrite list_lookup_imap in Hv.
    destruct (uuid_defaults !! i) as [d|] eqn:Hd; [|done].
    simpl in Hv. injection Hv as <-.
    assert (Forall (fun v => v <> [] /\ 45%N ∉ v) uuid_defaults) as Hdefaults.
    { by_computation. }
    unfold part_or.
    destruct (split 45%N s !! i) as [[|c p]|] eqn:Hp;
      try by eapply Forall_lookup_1 in Hdefaults.
    split; [done|].
    by eapply (Forall_lookup_1 _ _ _ _ (split_free 45%N s)) in Hp.
  - intros Hlen Hall.
    change (imap (part_or (split 45%N (join_values (str "-") (Some <$> vs))))
                 uuid_defaults = vs).
    rewrite join_values_Some. change (str "-") with [45%N].
    rewrite split_join;
      [|by destruct vs|eapply Forall_impl; [exact Hall|by intros ? [_ ?]]].
    destruct vs as [|a [|b [|c [|d [|e [|]]]]]]; try done.
    repeat match goal with
           | H : Forall _ (_ :: _) |- _ =>
               let Hhd := fresh in
               inversion H as [|? ? [Hhd _] ?]; subst; clear H
           end.
    by destruct a, b, c, d, e.
Qed.

Lemma uuid_round_trip_witness :
  parse uuid (format uuid
                (Some <$> [str "550e8400"; str "e29b"; str "41d4"; str "a716"; str "4"]))
  = [str "550e8400"; str "e29b"; str "41d4"; str "a716"; str "4"].
Proof.
  apply (uuid_round_trip []
           [str "550e8400"; str "e29b"; str "41d4"; str "a716"; str "4"]).
  - reflexivity.
  - by_computation.
Defined.

End PresetsFacts.

(** ** The controller of [src/segmented-input.js] under any sequence of events *)

Lemma getSegmentRanges_length (text : jsstring) (parse : jsstring -> list jsstring)
    (format : list slot -> jsstring) :
  length (getSegmentRanges text parse format) = length (parse text).
Proof. unfold getSegmentRanges. cbv zeta. apply scan_length. Qed.

Lemma getSegmentRanges_ascending (text : jsstring) (parse : jsstring -> list jsstring)
    (format : list slot -> jsstring) :
  ascending (getSegmentRanges text parse format).
Proof. unfold getSegmentRanges. apply scan_inv_scan. Qed.

Module SegmentedInputRuns.
Import SegmentedInput SegmentedInputFacts.

Section Controller.
Context `{JSNumber} (opts : options).

(** A state whose validity message is the one that belongs to its text
    stays so under changes that keep both. *)
Lemma synced_same (s t : state) :
  input_value (input t) = input_value (input s) ->
  input_customValidity (input t) = input_customValidity (input s) ->
  _updateValidity opts s = s -> _updateValidity opts t = t.
Proof.
  intros Hv Hm Hs. apply (updateValidity_sync opts s); [done|]. by rewrite Hs.
Qed.

Lemma updateValidity_fields (s : state) :
  let s' := _updateValidity opts s in
  input_value (input s') = input_value (input s)
  /\ input_events (input s') = input_events (input s)
  /\ input_selection (input s') = input_selection (input s)
  /\ _activeSegment s' = _activeSegment s
  /\ _segmentBuffer s' = _segmentBuffer s
  /\ timers s' = timers s
  /\ _updateValidity opts s' = s'.
Proof.
  intros s'. unfold s'. destruct (updateValidity_frame opts s) as [m Hm].
  rewrite Hm. repeat (split; [done|]). rewrite <- Hm.
  apply (updateValidity_sync opts s); by rewrite Hm.
Qed.

Lemma showPlaceholder_fields (s : state) :
  let s0 := showPlaceholder opts s in
  _activeSegment s0 = _activeSegment s
  /\ _segmentBuffer s0 = _segmentBuffer s
  /\ timers s0 = timers s
  /\ input_customValidity (input s0) = input_customValidity (input s)
  /\ input_events (input s0) = input_events (input s)
  /\ (input_value (input s) <> [] -> s0 = s).
Proof.
  intros s0. unfold s0, showPlaceholder.
  by destruct (input_value (input s)).
Qed.

(** The tail shared by [setSegmentValue] and [_adjustSegment]: the two
    events and the validity update. *)
Lemma commit_tail (t : state) :
  let s' := _updateValidity opts (_dispatch (str "change") (_dispatch (str "input") t)) in
  input_value (input s') = input_value (input t)
  /\ input_events (input s') = input_events (input t) ++ [str "input"; str "change"]
  /\ input_selection (input s') = input_selection (input t)
  /\ _activeSegment s' = _activeSegment t
  /\ _segmentBuffer s' = _segmentBuffer t
  /\ timers s' = timers t
  /\ _updateValidity opts s' = s'.
Proof.
  intros s'. unfold s'.
  destruct (updateValidity_fields (_dispatch (str "change") (_dispatch (str "input") t)))
    as (-> & -> & -> & -> & -> & -> & ->).
  unfold _dispatch. unfold_setters. simpl. by rewrite <- app_assoc.
Qed.

Lemma clamp_bound (index : Z) :
  (0 < length (segments opts))%nat ->
  (Z.to_nat (Z.max 0 (Z.min index (Z.of_nat (length (segments opts)) - 1)))
   < length (segments opts))%nat.
Proof. lia. Qed.

(** The state in which [_handleSegmentInput] leaves a character that it
    writes, before it decides whether to advance. *)
Lemma handleSegmentInput_eq (key : jsstring) (s : state) (seg : segment) :
  segments opts !! _activeSegment s = Some seg ->
  let s0 := showPlaceholder opts s in
  let radix := nullish (seg_radix seg) (of_Z 10) in
  let newBuffer := _segmentBuffer s ++ key in
  let values := array_set (_activeSegment s) (Some newBuffer) (parsedValues opts s0) in
  exists s5,
    (_handleSegmentInput opts key s
     = if match seg_pattern seg with
          | Some test => negb (test key)
          | None => false
          end
       then s0
       else if match seg_max seg with
               | Some max =>
                   negb (_isDecimalSegment seg)
                   && num_gt (parseInt newBuffer radix) max
               | None => false
               end
            then _advanceSegment opts s0
            else if _shouldAutoAdvance seg newBuffer radix
                 then _advanceSegment opts s5
                 else s5)
    /\ input_value (input s5) = format opts values
    /\ input_events (input s5) = input_events (input s) ++ [str "input"]
    /\ _activeSegment s5 = _activeSegment s
    /\ _segmentBuffer s5 = newBuffer
    /\ timers s5 = timers s
    /\ _updateValidity opts s5 = s5
    /\ input_selection (input s5)
       = match getSegmentRanges opts s5 !! _activeSegment s with
         | Some r => Some (start r, end_ r)
         | None => input_selection (input s)
         end.
Proof.
  intros Hseg s0 radix newBuffer values.
  destruct (showPlaceholder_fields s) as (Ha & Hb & Ht & Hm & He & _).
  fold s0 in Ha, Hb, Ht, Hm, He.
  set (s1 := set_segmentBuffer newBuffer s0).
  set (s2 := with_input (set_value (format opts values)) s1).
  set (s3 := _dispatch (str "input") s2).
  set (s4 := _updateValidity opts s3).
  set (s5 := with_input
               (fun i => highlightSegment i (Z.of_nat (_activeSegment s))
                                          (getSegmentRanges opts s4)) s4).
  destruct (updateValidity_fields s3) as (Hv4 & He4 & Hsel4 & Ha4 & Hb4 & Ht4 & Hsync4).
  fold s4 in Hv4, He4, Hsel4, Ha4, Hb4, Ht4, Hsync4.
  destruct (highlightSegment_frame (input s4) (Z.of_nat (_activeSegment s))
              (getSegmentRanges opts s4)) as (Hv5 & _ & Hm5 & _ & He5).
  assert (input s5 = highlightSegment (input s4) (Z.of_nat (_activeSegment s))
                                        (getSegmentRanges opts s4)) as Hs5 by done.
  assert (_segmentBuffer s5 = newBuffer) as Hb5.
  { change (_segmentBuffer s4 = newBuffer). by rewrite Hb4. }
  assert (_activeSegment s5 = _activeSegment s) as Ha5.
  { change (_activeSegment s4 = _activeSegment s). rewrite Ha4. exact Ha. }
  assert (input_value (input s5) = format opts values) as Htext.
  { by rewrite Hs5, Hv5, Hv4. }
  assert (getSegmentRanges opts s5 = getSegmentRanges opts s4) as Hranges.
  { unfold getSegmentRanges. by rewrite Hs5, Hv5. }
  exists s5. split; [|split; [done|split; [|split; [done|split; [done|split; [|split]]]]]].
  - unfold _handleSegmentInput. rewrite Hseg. cbv zeta. fold s0.
    rewrite Hb. fold radix newBuffer. fold s1.
    change (_activeSegment s1) with (_activeSegment s0). rewrite Ha.
    change (_segmentBuffer s1) with newBuffer.
    change (parsedValues opts s1) with (parsedValues opts s0).
    fold values. fold s2. fold s3. fold s4.
    change (_activeSegment s4) with (_activeSegment (_updateValidity opts s3)).
    destruct (seg_pattern seg) as [test|]; [destruct (test key)|]; simpl;
      try done.
    all: destruct (match seg_max seg with
                   | Some max => _
                   | None => false
                   end); try done.
    all: fold s4; rewrite Ha4, Hb4;
      change (_activeSegment s3) with (_activeSegment s0);
      change (_segmentBuffer s3) with newBuffer; rewrite Ha; by fold s5.
  - rewrite Hs5, He5, He4. unfold s3, s2, s1, _dispatch. unfold_setters. simpl.
    by rewrite He.
  - change (timers s4 = timers s). rewrite Ht4. exact Ht.
  - apply (synced_same s4); [by rewrite Hs5, Hv5|by rewrite Hs5, Hm5|done].
  - rewrite Hranges, Hs5, highlightSegment_selection, array_get_of_nat.
    destruct (getSegmentRanges opts s4 !! _activeSegment s); [done|].
    rewrite Hsel4. unfold s3, s2, s1, _dispatch. unfold_setters. simpl.
    unfold s0, showPlaceholder. by destruct (input_value (input s)).
Qed.

(** X10. A printable character that the pattern of the active segment
    admits and that does not push the buffered number above [max] is
    written: the keystroke buffer with the character appended replaces the
    value of the active segment, every other slot stays as it was read,
    and the text becomes the format of that array.  One [input] event is
    dispatched and the validity message is the one that belongs to the
    new text.  When [_shouldAutoAdvance] says so the buffer is emptied and
    the next segment, if there is one, becomes active; otherwise the
    buffer keeps the characters typed so far.  When the new values
    survive the round trip through [format] and [parse], the active
    segment reads back as the buffer. *)
Theorem typed_character_committed (event : keyboard_event) (s : state)
    (seg : segment) :
  length (key event) = 1%nat -> ctrlKey event = false -> metaKey event = false ->
  segments opts !! _activeSegment s = Some seg ->
  (forall test, seg_pattern seg = Some test -> test (key event) = true) ->
  (forall max, seg_max seg = Some max ->
     _isDecimalSegment seg = true
     \/ num_gt (parseInt (_segmentBuffer s ++ key event)
                         (nullish (seg_radix seg) (of_Z 10))) max = false) ->
  let s0 := showPlaceholder opts s in
  let active := _activeSegment s in
  let newBuffer := _segmentBuffer s ++ key event in
  let values := array_set active (Some newBuffer) (parsedValues opts s0) in
  let advance :=
    _shouldAutoAdvance seg newBuffer (nullish (seg_radix seg) (of_Z 10)) in
  let s' := (_onKeydown opts event s).2 in
  (_onKeydown opts event s).1 = true
  /\ input_value (input s') = format opts values
  /\ (forall j, j <> Z.of_nat active ->
        slot_get values j = getSegmentValue opts j s0)
  /\ input_events (input s') = input_events (input s) ++ [str "input"]
  /\ _updateValidity opts s' = s'
  /\ _segmentBuffer s' = (if advance then [] else newBuffer)
  /\ _activeSegment s'
     = (if advance && (S active <? length (segments opts))%nat
        then S active else active)
  /\ (Some <$> parse opts (format opts values) = values ->
      getSegmentValue opts (Z.of_nat active) s' = Some newBuffer).
Proof.
  intros Hlen Hctrl Hmeta Hseg Hpat Hfits s0 active newBuffer values advance s'.
  unfold s'. rewrite (onKeydown_printable opts _ _ Hlen Hctrl Hmeta). cbn [fst snd].
  destruct (handleSegmentInput_eq (key event) s seg Hseg)
    as (s5 & -> & Htext & Hev & Ha & Hb & _ & Hsync & _).
  fold s0 newBuffer active values in Htext, Ha, Hb |- *.
  assert (match seg_pattern seg with
          | Some test => negb (test (key event))
          | None => false
          end = false) as ->.
  { destruct (seg_pattern seg) as [test|]; [|done]. by rewrite (Hpat test). }
  assert (match seg_max seg with
          | Some max =>
              negb (_isDecimalSegment seg)
              && num_gt (parseInt newBuffer (nullish (seg_radix seg) (of_Z 10))) max
          | None => false
          end = false) as ->.
  { destruct (seg_max seg) as [max|]; [|done].
    destruct (Hfits max eq_refl) as [-> | Hle]; [done|].
    unfold newBuffer. rewrite Hle. apply andb_false_r. }
  fold advance.
  assert (forall j, j <> Z.of_nat active ->
            slot_get values j = getSegmentValue opts j s0) as Hother.
  { intros j Hj. unfold values. rewrite slot_get_array_set_ne by done.
    apply parsedValues_get. }
  split; [done|].
  destruct (advanceSegment_fields opts s5) as (Hv' & Hm' & He' & Hb' & Ha').
  assert (input_value (input (if advance then _advanceSegment opts s5 else s5))
          = format opts values) as Htext'.
  { destruct advance; [by rewrite Hv'|done]. }
  split; [done|]. split; [done|].
  split; [destruct advance; [by rewrite He'|done]|].
  split.
  { destruct advance; [|done].
    apply (synced_same s5); [by rewrite Hv'|by rewrite Hm'|done]. }
  split; [destruct advance; [by rewrite Hb'|done]|].
  split.
  { destruct advance; [|done]. rewrite Ha', Ha. simpl.
    by destruct (S active <? length (segments opts))%nat. }
  intros Hrt. unfold getSegmentValue. rewrite <- slot_get_fmap_Some.
  rewrite Htext', Hrt. unfold values. apply slot_get_array_set_eq.
Qed.

(** What an event does to the active segment, the buffer and the validity
    message. *)
Lemma focusSegment_summary (index : Z) (s : state) :
  let s' := focusSegment opts index s in
  input_value (input s') = input_value (input s)
  /\ input_customValidity (input s') = input_customValidity (input s)
  /\ _segmentBuffer s' = []
  /\ ((0 < length (segments opts))%nat ->
      (_activeSegment s' < length (segments opts))%nat).
Proof.
  intros s'. destruct (focusSegment_fields opts index s) as (Hv & Hm & _ & Hb & Ha).
  fold s' in Hv, Hm, Hb, Ha. rewrite Ha. repeat (split; [done|]).
  apply clamp_bound.
Qed.

Lemma adjustSegment_summary (index : nat) (direction : Z) (s : state) :
  let s' := _adjustSegment opts index direction s in
  s' = s
  \/ (_updateValidity opts s' = s'
      /\ _segmentBuffer s' = []
      /\ ((0 < length (segments opts))%nat ->
          (_activeSegment s' < length (segments opts))%nat)).
Proof.
  intros s'. unfold s', _adjustSegment.
  destruct (segments opts !! index) as [seg|]; [right|by left]. cbv zeta.
  match goal with
  | |- context [focusSegment opts ?i ?t] =>
      destruct (focusSegment_summary i t) as (_ & _ & Hb & Ha);
      destruct (commit_tail (focusSegment opts i t)) as (_ & _ & _ & Ha' & Hb' & _ & Hsync)
  end.
  cbv zeta in Ha, Hb, Ha', Hb', Hsync. rewrite Hsync, Ha', Hb'. done.
Qed.

Lemma setSegmentValue_summary (index : Z) (newValue : jsstring) (s : state) :
  let s' := setSegmentValue opts index newValue s in
  _updateValidity opts s' = s'
  /\ _segmentBuffer s' = []
  /\ ((0 < length (segments opts))%nat ->
      (_activeSegment s' < length (segments opts))%nat).
Proof.
  intros s'. unfold s', setSegmentValue. cbv zeta.
  match goal with
  | |- context [focusSegment opts ?i ?t] =>
      destruct (focusSegment_summary i t) as (_ & _ & Hb & Ha);
      destruct (commit_tail (focusSegment opts i t)) as (_ & _ & _ & Ha' & Hb' & _ & Hsync)
  end.
  cbv zeta in Ha, Hb, Ha', Hb', Hsync. rewrite Hsync, Ha', Hb'. done.
Qed.

Lemma advanceSegment_summary (s : state) :
  let s' := _advanceSegment opts s in
  input_value (input s') = input_value (input s)
  /\ input_customValidity (input s') = input_customValidity (input s)
  /\ _segmentBuffer s' = []
  /\ (_activeSegment s' = _activeSegment s
      \/ (_activeSegment s' < length (segments opts))%nat).
Proof.
  intros s'. destruct (advanceSegment_fields opts s) as (Hv & Hm & _ & Hb & Ha).
  fold s' in Hv, Hm, Hb, Ha. repeat (split; [done|]). rewrite Ha.
  destruct (Nat.ltb_spec (S (_activeSegment s)) (length (segments opts)));
    [by right|by left].
Qed.

Lemma onClickOrFocus_summary (selectionStart : Z) (s : state) :
  let s' := _onClickOrFocus opts selectionStart s in
  input s' = input s
  /\ _segmentBuffer s' = []
  /\ _activeSegment s' = getCursorSegment selectionStart (getSegmentRanges opts s)
  /\ timers s'
     = timers s ++ [Highlight (_activeSegment s') (getSegmentRanges opts s)]
  /\ ((0 < length (segments opts))%nat ->
      (forall text, (length (parse opts text) <= length (segments opts))%nat) ->
      (_activeSegment s' < length (segments opts))%nat).
Proof.
  intros s'. repeat (split; [done|]). intros Hn Harity.
  change (getCursorSegment selectionStart (getSegmentRanges opts s)
          < length (segments opts))%nat.
  assert (length (getSegmentRanges opts s) <= length (segments opts))%nat as Hlen.
  { unfold getSegmentRanges. rewrite getSegmentRanges_length. apply Harity. }
  destruct (getSegmentRanges opts s) as [|r rs] eqn:E; [done|].
  pose proof (getCursorSegment_lt_length selectionStart (r :: rs) ltac:(done)).
  lia.
Qed.

Lemma onBlurOut_summary (s : state) :
  let s' := _onBlurOut opts s in
  _updateValidity opts s' = s'
  /\ (_activeSegment s' = _activeSegment s /\ _segmentBuffer s' = _segmentBuffer s
      \/ _activeSegment s' = 0%nat /\ _segmentBuffer s' = []).
Proof.
  intros s'. split; [apply onBlurOut_spec|].
  unfold s', _onBlurOut.
  match goal with
  | |- context [_updateValidity opts ?t] =>
      destruct (updateValidity_fields t) as (_ & _ & _ & -> & -> & _)
  end.
  destruct (_isPlaceholderState opts s); [by right|by left].
Qed.

Lemma onFocusIn_summary (s : state) :
  let s' := _onFocusIn opts s in
  _activeSegment s' = _activeSegment s
  /\ _segmentBuffer s' = _segmentBuffer s
  /\ timers s' = timers s ++ [FocusActive]
  /\ (input_value (input s) <> [] -> input s' = input s)
  /\ (input_value (input s) = [] ->
      input_value (input s') = _formattedPlaceholder opts
      /\ _updateValidity opts s' = s').
Proof.
  intros s'. unfold s', _onFocusIn.
  destruct (input_value (input s)) as [|c text] eqn:E.
  - match goal with
    | |- context [_updateValidity opts ?t] =>
        destruct (updateValidity_fields t) as (Hv & _ & _ & Ha & Hb & Ht & Hsync)
    end.
    cbv zeta in Hv, Ha, Hb, Ht, Hsync. unfold setTimeout. simpl.
    rewrite Ha, Hb, Ht. do 4 (split; [done|]). intros _. split; [by rewrite Hv|].
    match goal with
    | |- _updateValidity opts ?t = _ =>
        apply (synced_same (_updateValidity opts
                              (with_input (set_value (_formattedPlaceholder opts)) s)) t)
    end; done.
  - do 4 (split; [done|]). done.
Qed.

(** What any event does: the active segment stays, or the buffer is
    emptied and the new active segment names a descriptor; and the
    validity message stays with an unchanged text or is computed afresh,
    unless a printable key arrives while the text is empty. *)
Lemma handle_summary (e : event) (s : state) :
  let s' := handle opts e s in
  (_activeSegment s' = _activeSegment s
   \/ (_segmentBuffer s' = []
       /\ ((0 < length (segments opts))%nat ->
           (forall text, (length (parse opts text) <= length (segments opts))%nat) ->
           (_activeSegment s' < length (segments opts))%nat)))
  /\ (input_value (input s) <> []
      \/ (forall k, e = on_keydown k ->
            (length (key k) =? 1)%nat && negb (ctrlKey k) && negb (metaKey k) = false) ->
      (input_value (input s') = input_value (input s)
       /\ input_customValidity (input s') = input_customValidity (input s))
      \/ _updateValidity opts s' = s').
Proof.
  intros s'. unfold s'. clear s'.
  destruct e as [pos| | |k|index|index newValue| | |]; cbn [handle].
  - destruct (onClickOrFocus_summary pos s) as (Hi & Hb & _ & _ & Ha).
    cbv zeta in Hi, Hb, Ha. split; [right; by split|].
    intros _. left. by rewrite Hi.
  - destruct (onFocusIn_summary s) as (Ha & _ & _ & Hfull & Hempty).
    cbv zeta in Ha, Hfull, Hempty. split; [by left|]. intros _.
    destruct (input_value (input s)) as [|c text] eqn:E.
    + right. by apply Hempty.
    + left. rewrite Hfull by done. by rewrite E.
  - destruct (onBlurOut_summary s) as (Hsync & [[Ha _]|[Ha Hb]]);
      cbv zeta in Hsync, Ha.
    + split; [by left|by right].
    + split; [|by right]. right. split; [done|]. intros Hn _. by rewrite Ha.
  - unfold _onKeydown.
    destruct ((length (key k) =? 1)%nat && negb (ctrlKey k) && negb (metaKey k))
      eqn:Eprintable.
    { cbn [snd].
      destruct (segments opts !! _activeSegment s) as [seg|] eqn:Hseg.
      2:{ unfold _handleSegmentInput. rewrite Hseg. split; [by left|by left]. }
      destruct (showPlaceholder_fields s) as (Ha0 & Hb0 & _ & Hm0 & _ & Hs0).
      cbv zeta in Ha0, Hb0, Hm0, Hs0.
      destruct (handleSegmentInput_eq (key k) s seg Hseg)
        as (s5 & -> & _ & _ & Ha5 & _ & _ & Hsync5 & _).
      destruct (advanceSegment_summary (showPlaceholder opts s))
        as (Hv1 & Hm1 & Hb1 & Ha1).
      destruct (advanceSegment_summary s5) as (Hv2 & Hm2 & Hb2 & Ha2).
      cbv zeta in Hv1, Hm1, Hb1, Ha1, Hv2, Hm2, Hb2, Ha2.
      rewrite Ha0 in Ha1. rewrite Ha5 in Ha2.
      assert (input_value (input s) <> []
              \/ (forall k0, on_keydown k = on_keydown k0 ->
                    (length (key k0) =? 1)%nat && negb (ctrlKey k0)
                    && negb (metaKey k0) = false) ->
              showPlaceholder opts s = s) as Hshown.
      { intros [Hne|Hnot]; [by apply Hs0|].
        specialize (Hnot k eq_refl). congruence. }
      destruct (match seg_pattern seg with
                | Some test => negb (test (key k))
                | None => false
                end).
      { split; [by left|]. intros Hc. left. by rewrite (Hshown Hc). }
      destruct (match seg_max seg with
                | Some max => _
                | None => false
                end).
      { split.
        - destruct Ha1 as [Ha1|Ha1]; [by left|right; by split].
        - intros Hc. left. rewrite Hv1, Hm1. by rewrite (Hshown Hc). }
      destruct (_shouldAutoAdvance seg _ _).
      - split.
        + destruct Ha2 as [Ha2|Ha2]; [by left|right; by split].
        + intros _. right. by apply (synced_same s5).
      - split; [by left|by right]. }
    cbn [andb]. clear Eprintable.
    destruct (jsstring_eqb (key k) (str "Backspace")).
    { cbn [snd]. cbv zeta.
      match goal with
      | |- context [_updateValidity opts ?t] =>
          destruct (updateValidity_fields t) as (_ & _ & _ & Ha & _ & _ & Hsync);
          set (s4 := _updateValidity opts t) in *
      end.
      match goal with
      | |- context [highlightSegment _ ?i ?rs] =>
          destruct (highlightSegment_frame (input s4) i rs) as (Hv & _ & Hm & _)
      end.
      split; [left; exact Ha|]. intros _. right.
      by apply (synced_same s4). }
    assert (forall index,
              let s' := focusSegment opts index s in
              (_activeSegment s' = _activeSegment s
               \/ (_segmentBuffer s' = []
                   /\ ((0 < length (segments opts))%nat ->
                       (forall text,
                          (length (parse opts text) <= length (segments opts))%nat) ->
                       (_activeSegment s' < length (segments opts))%nat)))
              /\ (input_value (input s) <> []
                  \/ (forall k0, on_keydown k = on_keydown k0 ->
                        (length (key k0) =? 1)%nat && negb (ctrlKey k0)
                        && negb (metaKey k0) = false) ->
                  (input_value (input s') = input_value (input s)
                   /\ input_customValidity (input s') = input_customValidity (input s))
                  \/ _updateValidity opts s' = s')) as Hfocus.
    { intros index. destruct (focusSegment_summary index s) as (Hv & Hm & Hb & Ha).
      split; [right; split; [done|by intros ? _; apply Ha]|]. intros _. by left. }
    assert (forall direction,
              let s' := _adjustSegment opts (_activeSegment s) direction s in
              (_activeSegment s' = _activeSegment s
               \/ (_segmentBuffer s' = []
                   /\ ((0 < length (segments opts))%nat ->
                       (forall text,
                          (length (parse opts text) <= length (segments opts))%nat) ->
                       (_activeSegment s' < length (segments opts))%nat)))
              /\ (input_value (input s) <> []
                  \/ (forall k0, on_keydown k = on_keydown k0 ->
                        (length (key k0) =? 1)%nat && negb (ctrlKey k0)
                        && negb (metaKey k0) = false) ->
                  (input_value (input s') = input_value (input s)
                   /\ input_customValidity (input s') = input_customValidity (input s))
                  \/ _updateValidity opts s' = s')) as Hadjust.
    { intros direction.
      destruct (adjustSegment_summary (_activeSegment s) direction s)
        as [->|(Hsync & Hb & Ha)].
      - split; [by left|]. intros _. by left.
      - split; [right; split; [done|by intros ? _; apply Ha]|]. intros _. by right. }
    destruct (jsstring_eqb (key k) (str "ArrowLeft")); [apply Hfocus|].
    destruct (jsstring_eqb (key k) (str "ArrowRight")); [apply Hfocus|].
    destruct (jsstring_eqb (key k) (str "ArrowUp")); [apply Hadjust|].
    destruct (jsstring_eqb (key k) (str "ArrowDown")); [apply Hadjust|].
    destruct (jsstring_eqb (key k) (str "Tab")).
    { destruct (shiftKey k).
      - destruct (0 <? _activeSegment s)%nat; [apply Hfocus|].
        split; [by left|]. intros _. by left.
      - destruct (Z.of_nat (_activeSegment s) <? Z.of_nat (length (segments opts)) - 1);
          [apply Hfocus|].
        split; [by left|]. intros _. by left. }
    split; [by left|]. intros _. by left.
  - destruct (focusSegment_summary index s) as (Hv & Hm & Hb & Ha).
    split; [right; split; [done|by intros ? _; apply Ha]|]. intros _. by left.
  - destruct (setSegmentValue_summary index newValue s) as (Hsync & Hb & Ha).
    split; [right; split; [done|by intros ? _; apply Ha]|]. intros _. by right.
  - unfold increment.
    destruct (adjustSegment_summary (_activeSegment s) 1 s) as [->|(Hsync & Hb & Ha)].
    + split; [by left|]. intros _. by left.
    + split; [right; split; [done|by intros ? _; apply Ha]|]. intros _. by right.
  - unfold decrement.
    destruct (adjustSegment_summary (_activeSegment s) (-1) s)
      as [->|(Hsync & Hb & Ha)].
    + split; [by left|]. intros _. by left.
    + split; [right; split; [done|by intros ? _; apply Ha]|]. intros _. by right.
  - unfold next_timer. destruct (timers s) as [|t rest].
    { split; [by left|]. intros _. by left. }
    destruct t as [|index segmentRanges]; cbn [run_timer].
    + match goal with
      | |- context [focusSegment opts ?i ?t] =>
          destruct (focusSegment_summary i t) as (Hv & Hm & Hb & Ha)
      end.
      split; [right; split; [done|by intros ? _; apply Ha]|]. intros _. by left.
    + split; [by left|]. intros _. left.
      match goal with
      | |- context [highlightSegment _ ?i ?rs] =>
          destruct (highlightSegment_frame (input s) i rs) as (Hv & _ & Hm & _)
      end.
      done.
Qed.

Lemma run_snoc (es : list event) (e : event) (s : state) :
  run opts (es ++ [e]) s = handle opts e (run opts es s).
Proof. unfold run. by rewrite fold_left_app. Qed.

(** X11. In a field that has a segment and whose [parse] never returns
    more values than there are segments, the active segment index names
    a descriptor after construction and after every sequence of clicks,
    focus and blur events, key presses, calls of the public methods and
    queued callbacks coming due. *)
Theorem activeSegment_names_a_descriptor (element : HTMLInputElement)
    (es : list event) :
  (0 < length (segments opts))%nat ->
  (forall text, (length (parse opts text) <= length (segments opts))%nat) ->
  is_Some (segments opts !! _activeSegment (run opts es (new opts element))).
Proof.
  intros Hn Harity. apply lookup_lt_is_Some.
  induction es as [|e es IH] using rev_ind.
  - unfold run, new. simpl.
    match goal with
    | |- context [_updateValidity opts ?t] =>
        by destruct (updateValidity_fields t) as (_ & _ & _ & -> & _)
    end.
  - rewrite run_snoc.
    destruct (handle_summary e (run opts es (new opts element)))
      as ([Ha|[_ Ha]] & _).
    + by rewrite Ha.
    + by apply Ha.
Qed.

(** X12. Whenever an event changes the active segment, it leaves the
    keystroke buffer empty: typed characters never carry over from one
    segment to another. *)
Theorem buffer_emptied_on_segment_change (e : event) (s : state) :
  _activeSegment (handle opts e s) <> _activeSegment s ->
  _segmentBuffer (handle opts e s) = [].
Proof.
  intros Hmoved. by destruct (handle_summary e s) as ([Ha|[Hb _]] & _).
Qed.


(** X14. [_onKeydown] calls [preventDefault] for a printable key without
    Ctrl or Meta, for Backspace and the four arrow keys, and for Tab or
    Shift+Tab when there is a next or a previous segment to go to; it
    lets every other key through and then leaves the instance as it
    was. *)
Theorem onKeydown_intercepts (k : keyboard_event) (s : state) :
  let intercepted :=
    (length (key k) =? 1)%nat && negb (ctrlKey k) && negb (metaKey k)
    || jsstring_eqb (key k) (str "Backspace")
    || jsstring_eqb (key k) (str "ArrowLeft")
    || jsstring_eqb (key k) (str "ArrowRight")
    || jsstring_eqb (key k) (str "ArrowUp")
    || jsstring_eqb (key k) (str "ArrowDown")
    || jsstring_eqb (key k) (str "Tab")
       && (if shiftKey k then (0 <? _activeSegment s)%nat
           else Z.of_nat (_activeSegment s) <? Z.of_nat (length (segments opts)) - 1) in
  (_onKeydown opts k s).1 = intercepted
  /\ (intercepted = false -> (_onKeydown opts k s).2 = s).
Proof.
  intros intercepted. unfold intercepted, _onKeydown.
  destruct ((length (key k) =? 1)%nat && negb (ctrlKey k) && negb (metaKey k));
    [done|].
  repeat match goal with
         | |- context [jsstring_eqb (key k) ?name] =>
             destruct (jsstring_eqb (key k) name); [by destruct (shiftKey k)|]
         end.
  repeat match goal with
         | |- context [jsstring_eqb (key k) ?name] =>
             destruct (jsstring_eqb (key k) name) eqn:?
         end; simpl; try done.
  all: destruct (shiftKey k); simpl.
  all: repeat match goal with
         | |- context [if ?b then _ else _] => destruct b
         end; done.
Qed.

(** X15. [setSegmentValue] writes the new value into the slot [index] of
    the values read from the text and leaves every other slot as it was;
    a negative index writes no slot at all.  The text becomes the format
    of that array, an [input] and a [change] event are dispatched, the
    validity message is the one that belongs to the new text, the buffer
    is emptied and the index clamped to the segments becomes the active
    segment.  When the new values survive the round trip through
    [format] and [parse], the segment reads back as the new value and
    the other segments as before. *)
Theorem setSegmentValue_writes_one_slot (index : Z) (newValue : jsstring)
    (s : state) :
  let values := array_setZ index (Some newValue) (parsedValues opts s) in
  let s' := setSegmentValue opts index newValue s in
  input_value (input s') = format opts values
  /\ (index < 0 -> values = parsedValues opts s)
  /\ (0 <= index -> slot_get values index = Some newValue)
  /\ (forall j, j <> index -> slot_get values j = getSegmentValue opts j s)
  /\ input_events (input s') = input_events (input s) ++ [str "input"; str "change"]
  /\ _updateValidity opts s' = s'
  /\ _segmentBuffer s' = []
  /\ Z.of_nat (_activeSegment s')
     = Z.max 0 (Z.min index (Z.of_nat (length (segments opts)) - 1))
  /\ (Some <$> parse opts (format opts values) = values ->
      (0 <= index -> getSegmentValue opts index s' = Some newValue)
      /\ (forall j, j <> index ->
            getSegmentValue opts j s' = getSegmentValue opts j s)).
Proof.
  intros values s'.
  assert (index < 0 -> values = parsedValues opts s) as Hneg.
  { intros Hlt. unfold values, array_setZ.
    by destruct (Z.ltb_spec index 0); [|lia]. }
  assert (0 <= index -> slot_get values index = Some newValue) as Hslot.
  { intros Hle. unfold values, array_setZ.
    destruct (Z.ltb_spec index 0); [lia|].
    rewrite <- (Z2Nat.id index) at 2 by done. apply slot_get_array_set_eq. }
  assert (forall j, j <> index -> slot_get values j = getSegmentValue opts j s)
    as Hother.
  { intros j Hj. rewrite <- parsedValues_get. unfold values, array_setZ.
    destruct (Z.ltb_spec index 0); [done|].
    apply slot_get_array_set_ne. lia. }
  set (s1 := with_input (set_value (format opts values)) s).
  assert (s' = _updateValidity opts
                 (_dispatch (str "change")
                    (_dispatch (str "input") (focusSegment opts index s1))))
    as Hs' by done.
  destruct (commit_tail (focusSegment opts index s1))
    as (Hv & He & _ & Ha & Hb & _ & Hsync).
  cbv zeta in Hv, He, Ha, Hb, Hsync. rewrite <- Hs' in Hv, He, Ha, Hb, Hsync.
  destruct (focusSegment_fields opts index s1) as (Hv1 & _ & He1 & Hb1 & Ha1).
  cbv zeta in Hv1, He1, Hb1, Ha1.
  assert (input_value (input s') = format opts values) as Htext.
  { by rewrite Hv, Hv1. }
  split; [done|]. split; [done|]. split; [done|]. split; [done|].
  split; [by rewrite He, He1|]. split; [done|]. split; [by rewrite Hb|].
  split; [rewrite Ha, Ha1; lia|].
  intros Hrt.
  assert (forall j, getSegmentValue opts j s' = slot_get values j) as Hread.
  { intros j. unfold getSegmentValue. rewrite <- slot_get_fmap_Some.
    by rewrite Htext, Hrt. }
  split.
  - intros Hle. rewrite Hread. by apply Hslot.
  - intros j Hj. rewrite Hread. by apply Hother.
Qed.


(** X17. A click strictly inside the text of a segment, or at its end,
    makes that segment the active one and empties the buffer; when the
    queued callback comes due, the selection is exactly the span of that
    segment.  The text is not touched. *)
Theorem click_selects_segment (s : state) (selectionStart : Z) (i : nat)
    (r : range) :
  timers s = [] ->
  getSegmentRanges opts s !! i = Some r ->
  start r < selectionStart <= end_ r ->
  let s' := run opts [on_click selectionStart; timer_due] s in
  _activeSegment s' = i
  /\ _segmentBuffer s' = []
  /\ input_selection (input s') = Some (start r, end_ r)
  /\ input_value (input s') = input_value (input s)
  /\ timers s' = [].
Proof.
  intros Htimers Hr Hpos s'.
  destruct (onClickOrFocus_summary selectionStart s) as (Hi & Hb & Ha & Ht & _).
  cbv zeta in Hi, Hb, Ha, Ht.
  assert (_activeSegment (_onClickOrFocus opts selectionStart s) = i) as Hactive.
  { rewrite Ha. apply (interior_first_match _ _ _ r); [|done|done].
    apply getSegmentRanges_ascending. }
  unfold s', run. cbn [fold_left handle]. unfold next_timer.
  rewrite Ht, Htimers, Hactive. cbn [app run_timer].
  unfold with_input. cbn [_activeSegment _segmentBuffer timers input].
  rewrite Hi, Hb.
  destruct (highlightSegment_frame (input s) (Z.of_nat i) (getSegmentRanges opts s))
    as (Hv & _).
  rewrite highlightSegment_selection, array_get_of_nat, Hr. by rewrite Hv.
Qed.

(** X18. Focusing an empty field shows the formatted placeholder text,
    whatever [parse] makes of it.  When that text parses back to the
    placeholder values, two more things hold.  After the focus the
    incomplete-value message is set, provided the text is not empty and
    there is a segment.  And leaving the field without typing gives the
    empty field back: no text, no validity message, the first segment
    active and an empty buffer. *)
Theorem focus_and_blur_without_typing (s : state) :
  input_value (input s) = [] -> timers s = [] ->
  let s1 := run opts [on_focus; timer_due] s in
  let s2 := handle opts on_blur s1 in
  input_value (input s1) = _formattedPlaceholder opts
  /\ _activeSegment s1
     = Z.to_nat (Z.max 0 (Z.min (Z.of_nat (_activeSegment s))
                                (Z.of_nat (length (segments opts)) - 1)))
  /\ timers s1 = []
  /\ (parse opts (_formattedPlaceholder opts) = _placeholderValues opts ->
      (_formattedPlaceholder opts <> [] -> segments opts <> [] ->
       input_customValidity (input s1) = _invalidMessage opts)
      /\ input_value (input s2) = []
      /\ input_customValidity (input s2) = []
      /\ _activeSegment s2 = 0%nat
      /\ _segmentBuffer s2 = []
      /\ timers s2 = []).
Proof.
  intros Hempty Htimers s1 s2.
  set (t := with_input (set_value (_formattedPlaceholder opts)) s).
  assert (s1 = focusSegment opts (Z.of_nat (_activeSegment s))
                 (mkState (input (_updateValidity opts t)) (_activeSegment s)
                          (_segmentBuffer s) [])) as Hs1.
  { unfold s1, run. cbn [fold_left handle]. unfold next_timer, _onFocusIn.
    rewrite Hempty. fold t.
    destruct (updateValidity_fields t) as (_ & _ & _ & Ha & Hb & Ht & _).
    cbv zeta in Ha, Hb, Ht. unfold setTimeout. cbn [timers].
    rewrite Ht. change (timers t) with (timers s). rewrite Htimers.
    cbn [app run_timer _activeSegment _segmentBuffer input].
    by rewrite Ha, Hb. }
  destruct (focusSegment_fields opts (Z.of_nat (_activeSegment s))
              (mkState (input (_updateValidity opts t)) (_activeSegment s)
                       (_segmentBuffer s) [])) as (Hv & Hm & _ & _ & Ha1).
  cbv zeta in Hv, Hm, Ha1. rewrite <- Hs1 in Hv, Hm, Ha1. cbn [input] in Hv, Hm.
  destruct (updateValidity_fields t) as (Hvt & _).
  cbv zeta in Hvt.
  assert (input_value (input s1) = _formattedPlaceholder opts) as Htext.
  { by rewrite Hv, Hvt. }
  assert (timers s1 = []) as Ht1.
  { rewrite Hs1. unfold focusSegment. by unfold_setters. }
  split; [done|]. split; [done|]. split; [done|]. intros Hrt.
  assert (forall u, input_value (input u) = _formattedPlaceholder opts ->
            forall i p, _placeholderValues opts !! i = Some p ->
                        getSegmentValue opts (Z.of_nat i) u = Some p) as Hall.
  { intros u Hu i p Hp. unfold getSegmentValue.
    by rewrite Hu, Hrt, array_get_of_nat. }
  split.
  { intros Hne Hsegs. rewrite Hm.
    apply (updateValidity_nonempty opts t); [done|].
    destruct (segments opts) as [|seg segs] eqn:E; [done|].
    exists 0%nat, (placeholderOf seg). split.
    - unfold _placeholderValues. by rewrite E.
    - apply (Hall t); [done|]. unfold _placeholderValues. by rewrite E. }
  destruct (onBlurOut_spec opts s1) as (Hclear & _). cbv zeta in Hclear.
  destruct (Hclear (or_intror (Hall s1 Htext))) as (Hv2 & Ha2 & Hb2 & Hm2).
  unfold s2. cbn [handle]. repeat (split; [done|]).
  unfold _onBlurOut.
  match goal with
  | |- context [_updateValidity opts ?u] =>
      destruct (updateValidity_fields u) as (_ & _ & _ & _ & _ & -> & _)
  end.
  by destruct (_isPlaceholderState opts s1).
Qed.

End Controller.

Lemma typed_character_committed_witness :
  let event := mkKey (str "5") false false false in
  let s := Presets.editing "1.2.3.4" 1 "" in
  let s' := (_onKeydown Presets.ipv4 event s).2 in
  input_value (input s') = str "1.5.3.4"
  /\ _segmentBuffer s' = str "5"
  /\ _activeSegment s' = 1%nat
  /\ getSegmentValue Presets.ipv4 1 s' = Some (str "5").
Proof.
  intros event s s'.
  pose (octet := Presets.numeric "0" "--" (Some 0) (Some 255) (Decimal.Dec 1 0)
                                 (Some Presets.digit_pattern) None).
  destruct (typed_character_committed Presets.ipv4 event s octet
              eq_refl eq_refl eq_refl eq_refl)
    as (_ & Htext & _ & _ & _ & Hbuf & Hact & Hread).
  { intros test [= <-]. reflexivity. }
  { intros max [= <-]. right. reflexivity. }
  split; [exact Htext|]. split; [exact Hbuf|]. split; [exact Hact|].
  exact (Hread eq_refl).
Defined.

Lemma activeSegment_names_a_descriptor_witness :
  is_Some
    (segments Presets.ipv4
       !! _activeSegment
            (run Presets.ipv4
                 [ on_click 5; timer_due;
                   on_keydown (mkKey (str "ArrowRight") false false false);
                   on_keydown (mkKey (str "9") false false false); on_blur ]
                 (new Presets.ipv4 (Presets.element "1.2.3.4")))).
Proof.
  apply (activeSegment_names_a_descriptor Presets.ipv4).
  - simpl. lia.
  - intros text.
    change (length (Presets.pad_parts 4 (str "0") (split 46%N text)) <= 4)%nat.
    by rewrite PresetsFacts.pad_parts_length.
Defined.

Lemma buffer_emptied_on_segment_change_witness :
  _segmentBuffer
    (handle Presets.duration (on_keydown (mkKey (str "ArrowRight") false false false))
            (Presets.editing "12:34:56" 0 "1"))
  = [].
Proof.
  apply (buffer_emptied_on_segment_change Presets.duration).
  vm_compute. discriminate.
Defined.


Lemma onKeydown_intercepts_witness :
  let s := Presets.editing "1.2.3.4" 3 "" in
  (_onKeydown Presets.ipv4 (mkKey (str "c") true false false) s).2 = s
  /\ (_onKeydown Presets.ipv4 (mkKey (str "Tab") false false false) s).2 = s.
Proof.
  intros s. split.
  - apply (proj2 (onKeydown_intercepts Presets.ipv4 (mkKey (str "c") true false false) s)).
    reflexivity.
  - apply (proj2 (onKeydown_intercepts Presets.ipv4
                    (mkKey (str "Tab") false false false) s)).
    reflexivity.
Defined.

Lemma setSegmentValue_writes_one_slot_witness :
  let s := Presets.editing "1.2.3.4" 0 "1" in
  let s' := setSegmentValue Presets.ipv4 2 (str "99") s in
  input_value (input s') = str "1.2.99.4"
  /\ getSegmentValue Presets.ipv4 2 s' = Some (str "99")
  /\ getSegmentValue Presets.ipv4 0 s' = Some (str "1")
  /\ input_value (input (setSegmentValue Presets.ipv4 (-1) (str "99") s))
     = str "1.2.3.4".
Proof.
  intros s s'.
  destruct (setSegmentValue_writes_one_slot Presets.ipv4 2 (str "99") s)
    as (Htext & _ & _ & _ & _ & _ & _ & _ & Hrt).
  destruct (Hrt eq_refl) as (Hread & Hothers).
  destruct (setSegmentValue_writes_one_slot Presets.ipv4 (-1) (str "99") s)
    as (Htext' & Hneg & _).
  unfold s'. split; [exact Htext|]. split; [apply Hread; lia|].
  split; [rewrite (Hothers 0 ltac:(discriminate)); reflexivity|].
  rewrite Htext', (Hneg ltac:(lia)). reflexivity.
Defined.


Lemma click_selects_segment_witness :
  let s := Presets.editing "12:34:56" 0 "1" in
  let s' := run Presets.duration [on_click 4; timer_due] s in
  _activeSegment s' = 1%nat /\ _segmentBuffer s' = []
  /\ input_selection (input s') = Some (3, 5).
Proof.
  intros s s'.
  destruct (click_selects_segment Presets.duration s 4 1%nat (mkRange 3 5 (str "34"))
              eq_refl eq_refl ltac:(simpl; lia))
    as (Hactive & Hbuffer & Hselection & _).
  split; [exact Hactive|]. split; [exact Hbuffer|]. exact Hselection.
Defined.

Lemma focus_and_blur_without_typing_witness :
  let s := Presets.editing "" 0 "" in
  let s1 := run Presets.duration [on_focus; timer_due] s in
  input_value (input s1) = str "hh:mm:ss"
  /\ input_customValidity (input s1) = str "Please fill in all fields."
  /\ input_value (input (handle Presets.duration on_blur s1)) = [].
Proof.
  intros s s1.
  destruct (focus_and_blur_without_typing Presets.duration s eq_refl eq_refl)
    as (Hshown & _ & _ & Hround).
  destruct (Hround eq_refl) as (Hinvalid & Hcleared & _).
  split; [exact Hshown|]. split; [|exact Hcleared].
  apply Hinvalid; discriminate.
Defined.

(** Without the round trip the message need not be set: a [parse] that
    does not return the placeholders leaves the focused field valid. *)
Lemma focus_without_round_trip :
  let opts :=
    mkOptions (segments Presets.ipv4) (format Presets.ipv4)
              (fun _ => replicate 4 (str "0")) None None in
  let s1 := run opts [on_focus; timer_due] (Presets.editing "" 0 "") in
  input_value (input s1) = str "--.--.--.--"
  /\ input_customValidity (input s1) = [].
Proof. split; reflexivity. Qed.

(** The exception in X13 is real: a key that the pattern rejects, typed
    into an empty field, shows the placeholder text without giving it
    its validity message. *)
Lemma validity_after_key_on_empty_text :
  let s := Presets.editing "" 0 "" in
  let s' := handle Presets.duration (on_keydown (mkKey (str "x") false false false)) s in
  _updateValidity Presets.duration s = s
  /\ input_value (input s') = str "hh:mm:ss"
  /\ input_customValidity (input s') = []
  /\ _updateValidity Presets.duration s' <> s'.
Proof. repeat split; try reflexivity. vm_compute. discriminate. Qed.

End SegmentedInputRuns.

(** ** The guards and the scan for an editable segment *)

Module GuardedInputGuards.
Import GuardedInput GuardedInputFacts.

Section Controller.
Context `{JSNumber} (opts : options).

Lemma stripZWS_app (a b : jsstring) : stripZWS (a ++ b) = stripZWS a ++ stripZWS b.
Proof. apply filter_app. Qed.

Lemma stripZWS_guard : stripZWS [ZWS] = [].
Proof. reflexivity. Qed.

(** Wrapping a span in guards adds the two guards and nothing else. *)
Lemma stripZWS_guard_wrap (r : nat * nat) (result : jsstring) :
  (r.1 <= r.2)%nat -> stripZWS (guard_wrap r result) = stripZWS result.
Proof.
  intros Hle. unfold guard_wrap.
  rewrite !stripZWS_app, stripZWS_guard. simpl.
  rewrite <- !stripZWS_app. f_equal.
  replace (drop r.2 result) with (drop (r.2 - r.1) (drop r.1 result)).
  - by rewrite take_drop, take_drop.
  - rewrite drop_drop. f_equal. lia.
Qed.

Lemma guard_step_spans (raw : jsstring) (st : guard_scan) (iv : nat * slot) :
  Forall (fun r => (r.1 <= r.2)%nat) (actionRanges st) ->
  Forall (fun r => (r.1 <= r.2)%nat) (actionRanges (guard_step opts raw st iv)).
Proof.
  intros Hall. unfold guard_step.
  destruct (indexOf raw (slot_to_string iv.2) (guardFrom st)) as [k|]; [|done].
  simpl. destruct (isActionSegment (segments opts !! iv.1)); [|done].
  apply Forall_app. split; [done|]. constructor; [simpl; lia|done].
Qed.

(** X19. The guards are invisible to [parse]: the text that
    [#formatGuarded] returns is the text that [format] returns with
    zero-width spaces added, so stripping them from either gives the
    same; and with no action segment among the descriptors nothing is
    added at all. *)
Theorem formatGuarded_only_adds_guards (values : list slot) :
  stripZWS (formatGuarded opts values) = stripZWS (format opts values)
  /\ (existsb (fun seg => isActionSegment (Some seg)) (segments opts) = false ->
      formatGuarded opts values = format opts values).
Proof.
  unfold formatGuarded. cbv zeta.
  destruct (existsb _ (segments opts)); cbn [negb]; [|done].
  split; [|done].
  set (raw := format opts values).
  assert (forall ivs st,
            Forall (fun r => (r.1 <= r.2)%nat) (actionRanges st) ->
            Forall (fun r => (r.1 <= r.2)%nat)
                   (actionRanges (fold_left (guard_step opts raw) ivs st))) as Hscan.
  { induction ivs as [|iv ivs IH]; intros st Hst; [done|].
    simpl. apply IH. by apply guard_step_spans. }
  specialize (Hscan (imap (fun i v => (i, v)) values) (mkGuardScan [] 0)
                    ltac:(constructor)).
  apply Forall_rev in Hscan.
  revert Hscan. generalize (rev (actionRanges
                                   (fold_left (guard_step opts raw)
                                              (imap (fun i v => (i, v)) values)
                                              (mkGuardScan [] 0)))).
  intros rs. generalize raw. clear raw.
  induction rs as [|r rs IH]; intros raw Hall; [done|].
  inversion Hall as [|? ? Hr Hrs]; subst. simpl.
  rewrite IH by done. by apply stripZWS_guard_wrap.
Qed.

(** The scan of [#findEditable] and [#findNavigable] going forward: it
    stops at the first descriptor, from [i] on, that passes the test. *)
Lemma find_loop_forward (stop : segment -> bool) (fuel : nat) (i : Z) :
  0 <= i -> Z.of_nat (length (segments opts)) - i <= Z.of_nat fuel ->
  match find_loop opts stop fuel i 1 with
  | Some k =>
      i <= Z.of_nat k
      /\ (exists seg, segments opts !! k = Some seg /\ stop seg = true)
      /\ forall j seg, i <= Z.of_nat j < Z.of_nat k ->
                       segments opts !! j = Some seg -> stop seg = false
  | None =>
      forall j seg, i <= Z.of_nat j -> segments opts !! j = Some seg -> stop seg = false
  end.
Proof.
  revert i. induction fuel as [|fuel IH]; intros i Hi Hfuel.
  - simpl. intros j seg Hj Hseg. apply lookup_lt_Some in Hseg. lia.
  - cbn [find_loop]. unfold array_get.
    destruct (Z.ltb_spec i 0); [lia|].
    destruct (segments opts !! Z.to_nat i) as [seg|] eqn:Hseg.
    + destruct (stop seg) eqn:Hstop.
      * split; [lia|]. split; [by exists seg|]. intros j ? Hj. lia.
      * specialize (IH (i + 1) ltac:(lia) ltac:(lia)).
        destruct (find_loop opts stop fuel (i + 1) 1) as [k|].
        -- destruct IH as (Hk & Hfound & Hbefore).
           split; [lia|]. split; [done|]. intros j seg' Hj Hseg'.
           destruct (decide (Z.of_nat j = i)) as [<-|Hne].
           ++ rewrite Nat2Z.id in Hseg. congruence.
           ++ apply (Hbefore j); [lia|done].
        -- intros j seg' Hj Hseg'.
           destruct (decide (Z.of_nat j = i)) as [<-|Hne].
           ++ rewrite Nat2Z.id in Hseg. congruence.
           ++ apply (IH j); [lia|done].
    + intros j seg Hj Hseg'. apply lookup_ge_None in Hseg.
      apply lookup_lt_Some in Hseg'. lia.
Qed.

(** The same going backward. *)
Lemma find_loop_backward (stop : segment -> bool) (fuel : nat) (i : Z) :
  i < Z.of_nat (length (segments opts)) -> i + 1 <= Z.of_nat fuel ->
  match find_loop opts stop fuel i (-1) with
  | Some k =>
      Z.of_nat k <= i
      /\ (exists seg, segments opts !! k = Some seg /\ stop seg = true)
      /\ forall j seg, Z.of_nat k < Z.of_nat j <= i ->
                       segments opts !! j = Some seg -> stop seg = false
  | None =>
      forall j seg, Z.of_nat j <= i -> segments opts !! j = Some seg -> stop seg = false
  end.
Proof.
  revert i. induction fuel as [|fuel IH]; intros i Hi Hfuel.
  - simpl. intros j seg Hj Hseg. lia.
  - cbn [find_loop]. unfold array_get.
    destruct (Z.ltb_spec i 0); [intros j seg Hj; lia|].
    destruct (segments opts !! Z.to_nat i) as [seg|] eqn:Hseg.
    + destruct (stop seg) eqn:Hstop.
      * split; [lia|]. split; [by exists seg|]. intros j ? Hj. lia.
      * specialize (IH (i - 1) ltac:(lia) ltac:(lia)).
        replace (i + -1) with (i - 1) by lia.
        destruct (find_loop opts stop fuel (i - 1) (-1)) as [k|].
        -- destruct IH as (Hk & Hfound & Hbefore).
           split; [lia|]. split; [done|]. intros j seg' Hj Hseg'.
           destruct (decide (Z.of_nat j = i)) as [<-|Hne].
           ++ rewrite Nat2Z.id in Hseg. congruence.
           ++ apply (Hbefore j); [lia|done].
        -- intros j seg' Hj Hseg'.
           destruct (decide (Z.of_nat j = i)) as [<-|Hne].
           ++ rewrite Nat2Z.id in Hseg. congruence.
           ++ apply (IH j); [lia|done].
    + apply lookup_ge_None in Hseg. lia.
Qed.

Lemma find_loop_outside (stop : segment -> bool) (fuel : nat) (i direction : Z) :
  i < 0 \/ Z.of_nat (length (segments opts)) <= i ->
  find_loop opts stop fuel i direction = None.
Proof.
  intros Hi. destruct fuel; [done|]. cbn [find_loop].
  by rewrite array_get_outside.
Qed.

(** X20. [#findEditable] returns the nearest segment that is not an
    action segment, going forward or backward from the given index with
    that index included, and [null] only when there is none in that
    direction; from an index outside the descriptors it returns
    [null]. *)
Theorem findEditable_nearest (fromIndex : Z) :
  let n := Z.of_nat (length (segments opts)) in
  let action j := isActionSegment (segments opts !! j) in
  (fromIndex < 0 \/ n <= fromIndex ->
   findEditable opts fromIndex 1 = None /\ findEditable opts fromIndex (-1) = None)
  /\ (0 <= fromIndex < n ->
      match findEditable opts fromIndex 1 with
      | Some k =>
          fromIndex <= Z.of_nat k < n /\ action k = false
          /\ forall j, fromIndex <= Z.of_nat j < Z.of_nat k -> action j = true
      | None => forall j, fromIndex <= Z.of_nat j < n -> action j = true
      end
      /\ match findEditable opts fromIndex (-1) with
         | Some k =>
             Z.of_nat k <= fromIndex /\ action k = false
             /\ forall j, Z.of_nat k < Z.of_nat j <= fromIndex -> action j = true
         | None => forall j, Z.of_nat j <= fromIndex -> action j = true
         end).
Proof.
  intros n action. split.
  - intros Hout. unfold findEditable. by rewrite !find_loop_outside.
  - intros Hin.
    assert (forall j, Z.of_nat j < n ->
              (forall seg, segments opts !! j = Some seg ->
                           negb (isActionSegment (Some seg)) = false) ->
              action j = true) as Haction.
    { intros j Hj Hall. unfold action.
      destruct (lookup_lt_is_Some_2 (segments opts) j ltac:(lia)) as [seg Hseg].
      rewrite Hseg. specialize (Hall seg Hseg). by destruct (isActionSegment (Some seg)). }
    split.
    + pose proof (find_loop_forward (fun seg => negb (isActionSegment (Some seg)))
                    (length (segments opts)) fromIndex ltac:(lia) ltac:(lia)) as Hspec.
      unfold findEditable.
      destruct (find_loop opts _ (length (segments opts)) fromIndex 1) as [k|].
      * destruct Hspec as (Hk & (seg & Hseg & Hstop) & Hbefore).
        pose proof (lookup_lt_Some _ _ _ Hseg).
        split; [lia|]. split.
        -- unfold action. rewrite Hseg. by destruct (isActionSegment (Some seg)).
        -- intros j Hj. apply Haction; [lia|]. intros seg' Hseg'.
           by apply (Hbefore j).
      * intros j Hj. apply Haction; [lia|]. intros seg' Hseg'.
        apply (Hspec j); [lia|done].
    + pose proof (find_loop_backward (fun seg => negb (isActionSegment (Some seg)))
                    (length (segments opts)) fromIndex ltac:(lia) ltac:(lia)) as Hspec.
      unfold findEditable.
      destruct (find_loop opts _ (length (segments opts)) fromIndex (-1)) as [k|].
      * destruct Hspec as (Hk & (seg & Hseg & Hstop) & Hbefore).
        split; [lia|]. split.
        -- unfold action. rewrite Hseg. by destruct (isActionSegment (Some seg)).
        -- intros j Hj. apply Haction; [lia|]. intros seg' Hseg'.
           by apply (Hbefore j).
      * intros j Hj. apply Haction; [lia|]. intros seg' Hseg'.
        apply (Hspec j); [lia|done].
Qed.

(** X21. [focusSegment] never rests on an action segment that is not
    selectable.  Either every descriptor is an action segment and the
    call changes nothing; or a segment that is not a non-selectable
    action segment becomes the active one, the buffer is emptied, the
    text stays, and the instance emits [segmentblur] for the segment it
    leaves, when it leaves one, followed by [segmentfocus] for the new
    one. *)
Theorem focusSegment_skips_actions (index : Z) (s : state) :
  let s' := focusSegment opts index s in
  (s' = s
   /\ forall j seg, segments opts !! j = Some seg ->
                    isActionSegment (Some seg) = true)
  \/ ((forall seg, segments opts !! activeSegment s' = Some seg ->
         isActionSegment (Some seg) = false \/ seg_selectable seg = true)
      /\ segmentBuffer s' = []
      /\ input_value (input s') = input_value (input s)
      /\ emitted s'
         = emitted s
           ++ (if bool_decide (activeSegment s' <> activeSegment s)
               then [segmentblur (activeSegment s)] else [])
           ++ [segmentfocus (activeSegment s')]).
Proof.
  intros s'. unfold s', focusSegment. cbv zeta.
  set (clamped := Z.to_nat (Z.max 0 (Z.min index (Z.of_nat (length (segments opts)) - 1)))).
  assert (forall t : nat,
            (forall seg, segments opts !! t = Some seg ->
               isActionSegment (Some seg) = false \/ seg_selectable seg = true) ->
            let u :=
              emit (segmentfocus t)
                (with_input
                   (fun i =>
                      highlightSegment i (Z.of_nat t)
                        (getSegmentRanges opts
                           (if isActionSegment (segments opts !! t)
                               && from_option seg_selectable false (segments opts !! t)
                            then with_input (classList_add (actionClass opts))
                                   (set_segmentBuffer []
                                      (set_activeSegment t
                                         (if bool_decide (t <> activeSegment s)
                                          then emit (segmentblur (activeSegment s)) s
                                          else s)))
                            else with_input (classList_remove (actionClass opts))
                                   (set_segmentBuffer []
                                      (set_activeSegment t
                                         (if bool_decide (t <> activeSegment s)
                                          then emit (segmentblur (activeSegment s)) s
                                          else s))))))
                   (if isActionSegment (segments opts !! t)
                       && from_option seg_selectable false (segments opts !! t)
                    then with_input (classList_add (actionClass opts))
                           (set_segmentBuffer []
                              (set_activeSegment t
                                 (if bool_decide (t <> activeSegment s)
                                  then emit (segmentblur (activeSegment s)) s
                                  else s)))
                    else with_input (classList_remove (actionClass opts))
                           (set_segmentBuffer []
                              (set_activeSegment t
                                 (if bool_decide (t <> activeSegment s)
                                  then emit (segmentblur (activeSegment s)) s
                                  else s))))) in
            (forall seg, segments opts !! activeSegment u = Some seg ->
               isActionSegment (Some seg) = false \/ seg_selectable seg = true)
            /\ segmentBuffer u = []
            /\ input_value (input u) = input_value (input s)
            /\ emitted u
               = emitted s
                 ++ (if bool_decide (activeSegment u <> activeSegment s)
                     then [segmentblur (activeSegment s)] else [])
                 ++ [segmentfocus (activeSegment u)]) as Htarget.
  { intros t Ht u. unfold u.
    destruct (isActionSegment (segments opts !! t)
              && from_option seg_selectable false (segments opts !! t));
      destruct (bool_decide (t <> activeSegment s)) eqn:Emoved;
      unfold emit, with_input, set_segmentBuffer, set_activeSegment;
      cbn [activeSegment segmentBuffer input emitted];
      rewrite ?Emoved;
      match goal with
      | |- context [highlightSegment ?i ?k ?rs] =>
          destruct (highlightSegment_frame i k rs) as (-> & _)
      end;
      cbn [input_value classList_add classList_remove];
      rewrite <- ?app_assoc; done. }
  destruct (isActionSegment (segments opts !! clamped)
            && negb (from_option seg_selectable false (segments opts !! clamped)))
    eqn:Eaction.
  - apply andb_true_iff in Eaction as [Haction Hfixed].
    assert (exists seg, segments opts !! clamped = Some seg) as [seg Hseg].
    { destruct (segments opts !! clamped) as [seg|]; [by exists seg|done]. }
    assert (clamped < length (segments opts))%nat as Hlt
        by (by eapply lookup_lt_Some).
    pose proof (find_loop_forward (fun seg => negb (isActionSegment (Some seg)))
                  (length (segments opts)) (Z.of_nat clamped + 1)
                  ltac:(lia) ltac:(lia)) as Hfwd.
    pose proof (find_loop_backward (fun seg => negb (isActionSegment (Some seg)))
                  (length (segments opts)) (Z.of_nat clamped - 1)
                  ltac:(lia) ltac:(lia)) as Hbwd.
    fold (findEditable opts (Z.of_nat clamped + 1) 1) in Hfwd.
    fold (findEditable opts (Z.of_nat clamped - 1) (-1)) in Hbwd.
    destruct (findEditable opts (Z.of_nat clamped + 1) 1) as [f|].
    { right. apply Htarget. intros seg' Hseg'. left.
      destruct Hfwd as (_ & (seg'' & Hseg'' & Hstop) & _).
      rewrite Hseg' in Hseg''. injection Hseg'' as <-.
      by destruct (isActionSegment (Some seg')). }
    destruct (findEditable opts (Z.of_nat clamped - 1) (-1)) as [b|].
    { right. apply Htarget. intros seg' Hseg'. left.
      destruct Hbwd as (_ & (seg'' & Hseg'' & Hstop) & _).
      rewrite Hseg' in Hseg''. injection Hseg'' as <-.
      by destruct (isActionSegment (Some seg')). }
    left. split; [done|]. intros j seg' Hseg'.
    destruct (Z.lt_trichotomy (Z.of_nat j) (Z.of_nat clamped)) as [Hj|[Hj|Hj]].
    + specialize (Hbwd j seg' ltac:(lia) Hseg').
      by destruct (isActionSegment (Some seg')).
    + apply Nat2Z.inj in Hj. subst j. by rewrite <- Hseg'.
    + specialize (Hfwd j seg' ltac:(lia) Hseg').
      by destruct (isActionSegment (Some seg')).
  - right. apply Htarget. intros seg Hseg. rewrite Hseg in Eaction.
    cbn [from_option] in Eaction.
    destruct (isActionSegment (Some seg)); [right|by left].
    by destruct (seg_selectable seg).
Qed.

Lemma trimEnd_sublist (s : jsstring) : trimEnd s `sublist_of` s.
Proof.
  induction s as [|c s IH]; [done|]. cbn [trimEnd].
  destruct (trimEnd s) as [|k kept].
  - destruct (is_white_space c).
    + apply sublist_nil_l.
    + apply sublist_skip, sublist_nil_l.
  - by apply sublist_skip.
Qed.

Lemma trimEnd_last (s : jsstring) (c : N) :
  last (trimEnd s) = Some c -> is_white_space c = false.
Proof.
  induction s as [|x s IH]; [done|]. cbn [trimEnd].
  destruct (trimEnd s) as [|k kept].
  - destruct (is_white_space x) eqn:E; [done|]. by intros [= <-].
  - intros Hlast. apply IH. by rewrite <- Hlast.
Qed.

Lemma guard_start_le (result : jsstring) (from : nat) :
  (guard_start result from <= from)%nat.
Proof.
  induction from as [|before IH]; [done|]. cbn [guard_start].
  destruct (bool_decide _); lia.
Qed.

Lemma guard_end_ge (rest : jsstring) (to : nat) : (to <= guard_end rest to)%nat.
Proof.
  revert to. induction rest as [|c rest IH]; intros to; [done|].
  cbn [guard_end]. destruct (bool_decide _); [|done].
  specialize (IH (S to)). lia.
Qed.

(** Cutting a span out of a text leaves a subsequence of the text. *)
Lemma cut_sublist (result : jsstring) (from to : nat) :
  (from <= to)%nat -> take from result ++ drop to result `sublist_of` result.
Proof.
  intros Hle. rewrite <- (take_drop from result) at 3.
  apply sublist_app; [done|].
  replace to with (from + (to - from))%nat by lia.
  rewrite <- drop_drop. apply sublist_drop.
Qed.

Lemma value_step_sublist (result : jsstring) (ir : nat * range) :
  start ir.2 <= end_ ir.2 -> value_step opts result ir `sublist_of` result.
Proof.
  intros Hwf. unfold value_step.
  destruct (isActionSegment (segments opts !! ir.1)); [|done]. cbv zeta.
  apply cut_sublist.
  pose proof (guard_start_le result (Z.to_nat (start ir.2))).
  pose proof (guard_end_ge (drop (Z.to_nat (end_ ir.2)) result) (Z.to_nat (end_ ir.2))).
  lia.
Qed.

Lemma no_action_segment (i : nat) :
  existsb (fun seg => isActionSegment (Some seg)) (segments opts) = false ->
  isActionSegment (segments opts !! i) = false.
Proof.
  intros Hnone. destruct (segments opts !! i) as [seg|] eqn:Hseg; [|done].
  revert i Hseg Hnone. induction (segments opts) as [|x l IH]; intros i Hseg Hnone.
  - done.
  - simpl in Hnone. apply orb_false_iff in Hnone as [Hx Hl].
    destruct i as [|i]; [by injection Hseg as <-|].
    by apply (IH i).
Qed.

(** X22. The [value] getter returns the empty string for an empty field
    and for a field that shows nothing but placeholders.  What it returns
    otherwise is cut out of the text: a subsequence of it that does not
    end in white space; and when no descriptor is an action segment, it
    is the text with the white space at its end removed. *)
Theorem get_value_clean (s : state) :
  (input_value (input s) = [] \/ isPlaceholderState opts s = true ->
   get_value opts s = [])
  /\ get_value opts s `sublist_of` input_value (input s)
  /\ (forall c, last (get_value opts s) = Some c -> is_white_space c = false)
  /\ (existsb (fun seg => isActionSegment (Some seg)) (segments opts) = false ->
      isPlaceholderState opts s = false ->
      get_value opts s = trimEnd (input_value (input s))).
Proof.
  unfold get_value. split; [|split; [|split]].
  - intros [-> | ->]; [done|]. by rewrite orb_true_r.
  - destruct (_ || _); [apply sublist_nil_l|]. cbv zeta.
    etrans; [apply trimEnd_sublist|].
    assert (Forall (fun ir : nat * range => start ir.2 <= end_ ir.2)
                   (rev (imap (fun i r => (i, r)) (getSegmentRanges opts s))))
      as Hwf.
    { apply Forall_rev, Forall_lookup. intros i [j r] Hir.
      rewrite list_lookup_imap in Hir.
      destruct (getSegmentRanges opts s !! i) as [r'|] eqn:Hr; [|done].
      injection Hir as <- <-. simpl.
      unfold getSegmentRanges in Hr.
      by destruct (ascending_lookup _ i i r' r'
                     (getSegmentRanges_ascending _ _ _) Hr Hr ltac:(lia)) as (? & _). }
    revert Hwf. generalize (rev (imap (fun i r => (i, r)) (getSegmentRanges opts s))).
    intros irs. generalize (input_value (input s)).
    induction irs as [|ir irs IH]; intros text Hwf; [done|].
    inversion Hwf as [|? ? Hir Hirs]; subst. simpl.
    etrans; [by apply IH|]. by apply value_step_sublist.
  - intros c. destruct (_ || _); [done|]. apply trimEnd_last.
  - intros Hnone ->. rewrite orb_false_r.
    destruct (bool_decide (input_value (input s) = [])) eqn:E.
    { apply bool_decide_eq_true in E. by rewrite E. }
    cbv zeta. f_equal.
    generalize (rev (imap (fun i r => (i, r)) (getSegmentRanges opts s))).
    intros irs. generalize (input_value (input s)).
    induction irs as [|ir irs IH]; intros text; [done|].
    simpl. unfold value_step at 2. by rewrite (no_action_segment _ Hnone).
Qed.

End Controller.

Lemma formatGuarded_only_adds_guards_witness :
  stripZWS (formatGuarded (Presets.spaced [Presets.operand; Presets.button])
                          [Some (str "7"); Some (str "=")])
  = str "7 ="
  /\ formatGuarded (Presets.expression ["+"; "-"]%string)
                   [Some (str "1"); Some (str "+"); Some (str "2")]
     = str "1 + 2".
Proof.
  split.
  - apply (proj1 (formatGuarded_only_adds_guards
                    (Presets.spaced [Presets.operand; Presets.button])
                    [Some (str "7"); Some (str "=")])).
  - apply (proj2 (formatGuarded_only_adds_guards
                    (Presets.expression ["+"; "-"]%string)
                    [Some (str "1"); Some (str "+"); Some (str "2")])).
    reflexivity.
Defined.

Lemma findEditable_nearest_witness :
  let opts := Presets.spaced [Presets.button; Presets.operand; Presets.button] in
  findEditable opts 3 1 = None
  /\ match findEditable opts 0 1 with
     | Some k => @isActionSegment Decimal.decimal_number (segments opts !! k) = false
     | None => False
     end.
Proof.
  intros opts.
  destruct (findEditable_nearest opts 3) as (Houtside & _).
  destruct (findEditable_nearest opts 0) as (_ & Hinside).
  split.
  - apply Houtside. right. simpl. lia.
  - destruct (Hinside ltac:(simpl; lia)) as (Hforward & _).
    destruct (findEditable opts 0 1) as [k|] eqn:E.
    + by destruct Hforward as (_ & Heditable & _).
    + discriminate (Hforward 1%nat ltac:(simpl; lia)).
Defined.

Lemma focusSegment_skips_actions_witness :
  let opts := Presets.spaced [Presets.operand; Presets.button] in
  let s' := focusSegment opts 1 (Presets.guarded "7 =" 0) in
  activeSegment s' = 0%nat /\ segmentBuffer s' = []
  /\ emitted s' = [segmentfocus 0].
Proof.
  intros opts s'.
  destruct (focusSegment_skips_actions opts 1 (Presets.guarded "7 =" 0))
    as [[_ Hall]|(_ & Hbuffer & _ & Hemitted)].
  - discriminate (Hall 0%nat Presets.operand eq_refl).
  - split; [reflexivity|]. split; [exact Hbuffer|]. exact Hemitted.
Defined.

Lemma get_value_clean_witness :
  get_value (Presets.spaced [Presets.operand; Presets.button]) (Presets.guarded "" 0)
  = [].
Proof.
  apply (proj1 (get_value_clean (Presets.spaced [Presets.operand; Presets.button])
                                (Presets.guarded "" 0))).
  by left.
Defined.

(** The guards at work: the text that the controller writes for the
    values [7] and [=], whose second segment is an action segment, reads
    back as [7] alone. *)
Lemma get_value_without_action :
  let opts := Presets.spaced [Presets.operand; Presets.button] in
  let text := formatGuarded opts [Some (str "7"); Some (str "=")] in
  text = str "7 " ++ [ZWS] ++ str "=" ++ [ZWS]
  /\ get_value opts (mkState (mkInput text [] [] None [] []) 0 [] false []) = str "7".
Proof. split; reflexivity. Qed.

End GuardedInputGuards.
